(** * K shortest node-disjoint paths on a grid (Main.c)

    A shallow embedding of the path-finding core of [Main.c]: the validity
    test [is_valid_position], the single search [dijkstra_find_path], the
    click handler [handle_click] with its K-iteration loop, and the two
    resets.  The SDL rendering and event loop are not modelled.

    Conventions of the embedding:
    - C [int] values are mathematical integers ([Z]); the one place where
      the search does arithmetic on them ([dist + 1]) checks the [int]
      range and faults outside it.
    - A two-dimensional C array [T a[GRID_HEIGHT][GRID_WIDTH]] is a total
      function [Z -> Z -> T] taking the row [y] first, as [a[y][x]] does;
      every read and write made by the search goes through [rd] / [wr],
      which fault on an index outside the array.
    - The globals of the C file are the fields of the record [world].
    - Loops whose trip count is not syntactically bounded take fuel and
      report [Timeout] when it runs out. *)

From Stdlib Require Import ZArith List Bool Lia Sorted.
Import ListNotations.
Local Open Scope Z_scope.

(* ================================================================== *)
(** ** Outcomes: a small error monad *)

Inductive outcome (A : Type) : Type :=
| Done (a : A)      (* the code ran to its end and produced [a] *)
| Fault             (* undefined behaviour: array index out of range, int overflow *)
| Timeout.          (* the model's fuel ran out *)
Arguments Done {A} a.
Arguments Fault {A}.
Arguments Timeout {A}.

Definition bind {A B : Type} (c : outcome A) (k : A -> outcome B) : outcome B :=
  match c with
  | Done a => k a
  | Fault => Fault
  | Timeout => Timeout
  end.

Notation "x <- c ;; k" := (bind c (fun x => k))
  (at level 61, c at next level, right associativity).

(* ================================================================== *)
(** ** Constants and data (Main.c lines 8-50) *)

Definition GRID_WIDTH : Z := 20.
Definition GRID_HEIGHT : Z := 15.
Definition CELL_SIZE : Z := 40.
Definition K_PATHS : Z := 5.
Definition INT_MAX : Z := 2147483647.
Definition INT_MIN : Z := -2147483648.

Inductive CellType : Type :=
| CELL_EMPTY | CELL_WALL | CELL_START | CELL_END
| CELL_PATH_1 | CELL_PATH_2 | CELL_PATH_3 | CELL_PATH_4 | CELL_PATH_5.

Definition CellType_eqb (a b : CellType) : bool :=
  match a, b with
  | CELL_EMPTY, CELL_EMPTY | CELL_WALL, CELL_WALL
  | CELL_START, CELL_START | CELL_END, CELL_END
  | CELL_PATH_1, CELL_PATH_1 | CELL_PATH_2, CELL_PATH_2
  | CELL_PATH_3, CELL_PATH_3 | CELL_PATH_4, CELL_PATH_4
  | CELL_PATH_5, CELL_PATH_5 => true
  | _, _ => false
  end.

(** [typedef struct { int x, y; } Point;] *)
Record Point : Type := mkPoint { px : Z; py : Z }.

Definition Point_eqb (p q : Point) : bool :=
  (px p =? px q) && (py p =? py q).

(** [typedef struct Node { Point pos; int cost; } Node;] *)
Record Node : Type := mkNode { pos : Point; cost : Z }.

(** [typedef struct { Point points[...]; int length; int cost; } Path;]
    [p_points] holds the first [length] entries of the C array. *)
Record Path : Type := mkPath { p_points : list Point; p_length : Z; p_cost : Z }.

(** Two-dimensional arrays, indexed [a y x] like [a[y][x]]. *)
Definition array2 (A : Type) : Type := Z -> Z -> A.

Definition in_bounds (x y : Z) : bool :=
  (0 <=? x) && (x <? GRID_WIDTH) && (0 <=? y) && (y <? GRID_HEIGHT).

Definition rd {A : Type} (a : array2 A) (y x : Z) : outcome A :=
  if in_bounds x y then Done (a y x) else Fault.

Definition upd {A : Type} (a : array2 A) (y x : Z) (v : A) : array2 A :=
  fun y' x' => if (y' =? y) && (x' =? x) then v else a y' x'.

Definition wr {A : Type} (a : array2 A) (y x : Z) (v : A) : outcome (array2 A) :=
  if in_bounds x y then Done (upd a y x v) else Fault.

(** The globals of Main.c (lines 44-50). *)
Record world : Type := mkWorld {
  grid : array2 CellType;
  grid_path_type : array2 CellType;
  start : Point;
  end_ : Point;
  start_selected : bool;
  end_selected : bool;
  paths_found_and_drawn : bool
}.

(* ================================================================== *)
(** ** [screen_to_grid] and [is_valid_position] (lines 69-83) *)

(** C division truncates toward zero: [Z.quot]. *)
Definition screen_to_grid (screen_x screen_y : Z) : Point :=
  mkPoint (Z.quot screen_x CELL_SIZE) (Z.quot screen_y CELL_SIZE).

Definition is_valid_position (w : world) (x y : Z) : bool :=
  in_bounds x y
  && negb (CellType_eqb (grid w y x) CELL_WALL)
  && CellType_eqb (grid_path_type w y x) CELL_EMPTY.

(* ================================================================== *)
(** ** [dijkstra_find_path] (lines 89-229) *)

(** The local arrays of one search.  [pushes] is a history variable that
    the C code does not have: it records, most recent first, the cell of
    every node written by [nodes[node_count++] = ...]. *)
Record locals : Type := mkLocals {
  dist : array2 Z;
  visited : array2 bool;
  parent : array2 Point;
  nodes : list Node;          (* nodes[0 .. node_count-1] *)
  pushes : list Point
}.

Definition NODES_CAP : Z := GRID_WIDTH * GRID_HEIGHT.

(** [nodes[node_count++] = n] on an array of [NODES_CAP] entries. *)
Definition push_node (st : locals) (n : Node) : outcome locals :=
  if Z.of_nat (length (nodes st)) <? NODES_CAP
  then Done (mkLocals (dist st) (visited st) (parent st)
                      (nodes st ++ [n]) (pos n :: pushes st))
  else Fault.

(** [a + b] on C [int]: overflow is undefined. *)
Definition int_add (a b : Z) : outcome Z :=
  let r := a + b in
  if (INT_MIN <=? r) && (r <=? INT_MAX) then Done r else Fault.

(** Lines 140-144: index of the first node of minimal cost.  [rest] is
    [nodes[i ..]]. *)
Fixpoint scan_min (all rest : list Node) (i min_index : nat) : nat :=
  match rest with
  | [] => min_index
  | n :: rest' =>
      if cost n <? cost (nth min_index all n)
      then scan_min all rest' (S i) i
      else scan_min all rest' (S i) min_index
  end.

Definition find_min_index (l : list Node) : nat := scan_min l (tl l) 1 0.

Fixpoint set_nth {A : Type} (i : nat) (v : A) (l : list A) : list A :=
  match l, i with
  | [], _ => []
  | _ :: t, O => v :: t
  | h :: t, S i' => h :: set_nth i' v t
  end.

(** Line 148: [nodes[min_index] = nodes[--node_count]]. *)
Definition remove_at (i : nat) (l : list Node) : list Node :=
  match rev l with
  | [] => []
  | lst :: _ => firstn (length l - 1) (set_nth i lst l)
  end.

Definition dx : list Z := [0; 1; 0; -1].
Definition dy : list Z := [-1; 0; 1; 0].

(** One round of the neighbour loop (lines 167-193) for the offset
    [(ox, oy) = (dx[i], dy[i])]. *)
Definition explore_neighbor (w : world) (cx cy : Z) (st : locals) (o : Z * Z)
  : outcome locals :=
  let nx := cx + fst o in
  let ny := cy + snd o in
  let is_neighbor_end := (nx =? px (end_ w)) && (ny =? py (end_ w)) in
  if negb is_neighbor_end && negb (is_valid_position w nx ny) then Done st
  else
    v <- rd (visited st) ny nx ;;
    if (v : bool) then Done st
    else
      dc <- rd (dist st) cy cx ;;
      new_cost <- int_add dc 1 ;;
      dn <- rd (dist st) ny nx ;;
      if new_cost <? dn then
        dist' <- wr (dist st) ny nx new_cost ;;
        parent' <- wr (parent st) ny nx (mkPoint cx cy) ;;
        push_node (mkLocals dist' (visited st) parent' (nodes st) (pushes st))
                  (mkNode (mkPoint nx ny) new_cost)
      else Done st.

Fixpoint explore (w : world) (cx cy : Z) (st : locals) (os : list (Z * Z))
  : outcome locals :=
  match os with
  | [] => Done st
  | o :: os' => st' <- explore_neighbor w cx cy st o ;; explore w cx cy st' os'
  end.

(** The [while (node_count > 0)] loop (lines 138-197).  The result is the
    final locals and [Some current] when the loop left through [break]
    with [path_found = true], [None] when the queue ran empty. *)
Fixpoint search_loop (fuel : nat) (w : world) (st : locals)
  : outcome (locals * option Node) :=
  match fuel with
  | O => Timeout
  | S fuel' =>
      match nodes st with
      | [] => Done (st, None)
      | n0 :: _ =>
          let min_index := find_min_index (nodes st) in
          let current := nth min_index (nodes st) n0 in
          let st1 := mkLocals (dist st) (visited st) (parent st)
                              (remove_at min_index (nodes st)) (pushes st) in
          let cx := px (pos current) in
          let cy := py (pos current) in
          v <- rd (visited st1) cy cx ;;
          if (v : bool) then search_loop fuel' w st1
          else
            visited' <- wr (visited st1) cy cx true ;;
            let st2 := mkLocals (dist st1) visited' (parent st1)
                                (nodes st1) (pushes st1) in
            if (cx =? px (end_ w)) && (cy =? py (end_ w))
            then Done (st2, Some current)
            else
              st3 <- explore w cx cy st2 (combine dx dy) ;;
              search_loop fuel' w st3
      end
  end.

(** Lines 207-212: the walk along [parent] from the sink.  [room] is the
    number of free entries of [reverse_path]; [acc] is [reverse_path] in
    array order. *)
Fixpoint walk_back (room : nat) (w : world) (par : array2 Point)
         (at_ : Point) (acc : list Point) : outcome (list Point) :=
  if negb (px at_ =? -1) && negb (py at_ =? -1) then
    match room with
    | O => Fault
    | S room' =>
        let acc' := acc ++ [at_] in
        if (px at_ =? px (start w)) && (py at_ =? py (start w)) then Done acc'
        else
          nxt <- rd par (py at_) (px at_) ;;
          walk_back room' w par nxt acc'
    end
  else Done acc.

Definition no_path : Path := mkPath [] 0 (-1).

(** Lines 97-105: [true] when the function goes on past the entry test. *)
Definition entry_check (w : world) : outcome bool :=
  if is_valid_position w (px (start w)) (py (start w)) then Done true
  else if is_valid_position w (px (end_ w)) (py (end_ w)) then Done false
  else
    t <- rd (grid_path_type w) (py (end_ w)) (px (end_ w)) ;;
    Done (negb (CellType_eqb t CELL_EMPTY)).

(** Lines 108-130: the locals after the start node is queued. *)
Definition init_locals (w : world) : outcome locals :=
  let st0 := mkLocals (fun _ _ => INT_MAX) (fun _ _ => false)
                      (fun _ _ => mkPoint (-1) (-1)) [] [] in
  st1 <- push_node st0 (mkNode (start w) 0) ;;
  dist' <- wr (dist st1) (py (start w)) (px (start w)) 0 ;;
  Done (mkLocals dist' (visited st1) (parent st1) (nodes st1) (pushes st1)).

(** Lines 108-197. *)
Definition dijkstra_search (fuel : nat) (w : world)
  : outcome (locals * option Node) :=
  st <- init_locals w ;;
  search_loop fuel w st.

(** Lines 199-221. *)
Definition reconstruct (w : world) (st : locals) (found : option Node)
  : outcome Path :=
  match found with
  | None => Done no_path
  | Some current =>
      reverse_path <- walk_back (Z.to_nat (GRID_WIDTH * GRID_HEIGHT)) w
                                (parent st) (end_ w) [] ;;
      Done (mkPath (rev reverse_path)
                   (Z.of_nat (length reverse_path))
                   (cost current))
  end.

Definition dijkstra_find_path_fuel (fuel : nat) (w : world) : outcome Path :=
  go_on <- entry_check w ;;
  if (go_on : bool) then
    r <- dijkstra_search fuel w ;;
    reconstruct w (fst r) (snd r)
  else Done no_path.

(** Every iteration of the [while] loop removes one node, and no more than
    [GRID_WIDTH * GRID_HEIGHT] nodes are ever queued (see
    [search_loop_total] below), so this much fuel is never used up. *)
Definition search_fuel : nat := S (Z.to_nat (GRID_WIDTH * GRID_HEIGHT)).

Definition dijkstra_find_path (w : world) : outcome Path :=
  dijkstra_find_path_fuel search_fuel w.

(* ================================================================== *)
(** ** [handle_click], [reset_grid], [initialize_grid] *)

(** Lines 327-334. *)
Definition path_type_of (i : Z) : CellType :=
  if i =? 0 then CELL_PATH_1
  else if i =? 1 then CELL_PATH_2
  else if i =? 2 then CELL_PATH_3
  else if i =? 3 then CELL_PATH_4
  else if i =? 4 then CELL_PATH_5
  else CELL_EMPTY.

Definition set_path_type (w : world) (g : array2 CellType) : world :=
  mkWorld (grid w) g (start w) (end_ w)
          (start_selected w) (end_selected w) (paths_found_and_drawn w).

(** Lines 337-348: the marking loop over [path.points[0 .. length-1]]. *)
Fixpoint mark_points (w : world) (ty : CellType) (pts : list Point)
  : outcome world :=
  match pts with
  | [] => Done w
  | p :: pts' =>
      if Point_eqb p (start w) || Point_eqb p (end_ w)
      then mark_points w ty pts'
      else
        g <- wr (grid_path_type w) (py p) (px p) ty ;;
        mark_points (set_path_type w g) ty pts'
  end.

(** One call of [dijkstra_find_path] made by the loop of [handle_click]:
    the loop index plus one, the globals at the call, and the value
    returned.  The list of calls is a history variable; the C code prints
    one line per call ("Path i Cost: c" or "No more paths found."). *)
Record call : Type := mkCall {
  call_rank : Z;
  call_state : world;
  call_result : Path
}.

(** Lines 314-349: [for (int i = ...; i < K_PATHS; i++)], with [todo]
    iterations left. *)
Fixpoint k_loop (todo : nat) (i : Z) (w : world) : outcome (world * list call) :=
  match todo with
  | O => Done (w, [])
  | S todo' =>
      path <- dijkstra_find_path w ;;
      let c := mkCall (i + 1) w path in
      if p_cost path =? -1 then Done (w, [c])
      else
        w' <- mark_points w (path_type_of i)
                (firstn (Z.to_nat (p_length path)) (p_points path)) ;;
        r <- k_loop todo' (i + 1) w' ;;
        Done (fst r, c :: snd r)
  end.

(** The paths the loop reports, with their ranks. *)
Definition found_paths (tr : list call) : list (Z * Path) :=
  map (fun c => (call_rank c, call_result c))
      (filter (fun c => negb (p_cost (call_result c) =? -1)) tr).

(** Lines 280-354. *)
Definition handle_click (w : world) (x y : Z) : outcome (world * list call) :=
  let grid_pos := screen_to_grid x y in
  if negb (in_bounds (px grid_pos) (py grid_pos)) then Done (w, [])
  else if paths_found_and_drawn w then Done (w, [])
  else if CellType_eqb (grid w (py grid_pos) (px grid_pos)) CELL_WALL
  then Done (w, [])
  else if negb (start_selected w) then
    Done (mkWorld (upd (grid w) (py grid_pos) (px grid_pos) CELL_START)
                  (grid_path_type w) grid_pos (end_ w)
                  true (end_selected w) (paths_found_and_drawn w), [])
  else if negb (end_selected w) then
    if negb (Point_eqb grid_pos (start w)) then
      k_loop (Z.to_nat K_PATHS) 0
             (mkWorld (upd (grid w) (py grid_pos) (px grid_pos) CELL_END)
                      (grid_path_type w) (start w) grid_pos
                      (start_selected w) true true)
    else Done (w, [])
  else Done (w, []).

(** Lines 356-372. *)
Definition reset_grid (w : world) : world :=
  mkWorld (fun y x => if CellType_eqb (grid w y x) CELL_WALL
                      then CELL_WALL else CELL_EMPTY)
          (fun _ _ => CELL_EMPTY)
          (mkPoint (-1) (-1)) (mkPoint (-1) (-1)) false false false.

(** Lines 53-67.  [rnd y x] is the value [rand()] returns for cell
    [(x, y)]; [rand()] is never negative. *)
Definition initialize_grid (rnd : Z -> Z -> Z) : world :=
  mkWorld (fun y x => if Z.rem (rnd y x) 4 =? 0 then CELL_WALL else CELL_EMPTY)
          (fun _ _ => CELL_EMPTY)
          (mkPoint (-1) (-1)) (mkPoint (-1) (-1)) false false false.

(** The states the program can be in between two events of its main loop
    (lines 401-424): after the first [initialize_grid], and then after any
    left click, key C or key R. *)
Inductive reachable : world -> Prop :=
| reach_init : forall rnd, reachable (initialize_grid rnd)
| reach_click : forall w x y w' tr,
    reachable w -> handle_click w x y = Done (w', tr) -> reachable w'
| reach_reset : forall w, reachable w -> reachable (reset_grid w).

(* ================================================================== *)
(** ** [draw_grid] (lines 233-278) *)

(** [SDL_Color], four bytes. *)
Record SDL_Color : Type := mkColor { c_r : Z; c_g : Z; c_b : Z; c_a : Z }.

(** [SDL_FRect].  Its [float] fields only ever hold [x * CELL_SIZE],
    [y * CELL_SIZE] and [CELL_SIZE] for cell indices [x], [y]: integers
    below 2^24, which [float] represents exactly.  They are kept as
    integers. *)
Record SDL_FRect : Type := mkFRect { r_x : Z; r_y : Z; r_w : Z; r_h : Z }.

(** The calls [draw_grid] and [main] make on the renderer, in order. *)
Inductive render_op : Type :=
| SetRenderDrawColor (c : SDL_Color)
| RenderFillRect (r : SDL_FRect)
| RenderRect (r : SDL_FRect)
| RenderClear
| RenderPresent.

Definition cell_rect (x y : Z) : SDL_FRect :=
  mkFRect (x * CELL_SIZE) (y * CELL_SIZE) CELL_SIZE CELL_SIZE.

(** Lines 239-270: the colour from [grid[y][x]], then overridden by the
    one from [grid_path_type[y][x]] when that is a path type. *)
Definition cell_color (g gp : CellType) : SDL_Color :=
  let by_grid :=
    match g with
    | CELL_WALL => mkColor 50 50 50 255
    | CELL_START => mkColor 0 255 0 255
    | CELL_END => mkColor 255 0 0 255
    | _ => mkColor 200 200 200 255
    end in
  match gp with
  | CELL_PATH_1 => mkColor 2 136 209 255
  | CELL_PATH_2 => mkColor 41 182 246 255
  | CELL_PATH_3 => mkColor 129 212 250 255
  | CELL_PATH_4 => mkColor 179 229 252 255
  | CELL_PATH_5 => mkColor 224 247 250 255
  | _ => by_grid
  end.

(** The values of a loop variable running from 0 below [n]. *)
Definition zrange (n : Z) : list Z := map Z.of_nat (seq 0 (Z.to_nat n)).

(** Lines 236-275, one round of the inner loop. *)
Definition draw_cell (w : world) (y x : Z) : list render_op :=
  let rect := cell_rect x y in
  [ SetRenderDrawColor (cell_color (grid w y x) (grid_path_type w y x));
    RenderFillRect rect;
    SetRenderDrawColor (mkColor 100 100 100 255);
    RenderRect rect ].

Definition draw_grid (w : world) : list render_op :=
  flat_map (fun y => flat_map (fun x => draw_cell w y x) (zrange GRID_WIDTH))
           (zrange GRID_HEIGHT).

(* ================================================================== *)
(** ** [main] (lines 374-438) *)

(** The events [main] tells apart.  A mouse event carries whether the
    button is the left one and the coordinates as [handle_click] gets
    them, that is after the conversion of [event.button.x] and
    [event.button.y] to [int].  Key R carries the values [rand()] will
    return during the [initialize_grid] it triggers. *)
Inductive event : Type :=
| EVENT_QUIT
| EVENT_MOUSE_BUTTON_DOWN (is_left : bool) (x y : Z)
| EVENT_KEY_DOWN_R (rnd : Z -> Z -> Z)
| EVENT_KEY_DOWN_C
| EVENT_KEY_DOWN_other
| EVENT_other.

(** Lines 407-423: the [switch] on one event; the state is the globals
    and the local [running]. *)
Definition handle_event (st : world * bool) (e : event)
  : outcome (world * bool) :=
  match e with
  | EVENT_QUIT => Done (fst st, false)
  | EVENT_MOUSE_BUTTON_DOWN is_left x y =>
      if is_left then r <- handle_click (fst st) x y ;; Done (fst r, snd st)
      else Done st
  | EVENT_KEY_DOWN_R rnd => Done (initialize_grid rnd, snd st)
  | EVENT_KEY_DOWN_C => Done (reset_grid (fst st), snd st)
  | EVENT_KEY_DOWN_other => Done st
  | EVENT_other => Done st
  end.

(** Lines 406-424: [while (SDL_PollEvent(&event))] over the events that
    are pending in this round. *)
Fixpoint poll_events (st : world * bool) (es : list event)
  : outcome (world * bool) :=
  match es with
  | [] => Done st
  | e :: es' => st' <- handle_event st e ;; poll_events st' es'
  end.

(** Lines 426-429. *)
Definition render_frame (w : world) : list render_op :=
  [SetRenderDrawColor (mkColor 255 255 255 255); RenderClear]
  ++ draw_grid w ++ [RenderPresent].

(** Lines 403-431: [while (running)], one list of pending events per
    round.  The result is the globals at the end and the frames
    rendered; when the rounds given run out the model stops. *)
Fixpoint main_loop (rounds : list (list event)) (w : world)
  : outcome (world * list (list render_op)) :=
  match rounds with
  | [] => Done (w, [])
  | es :: rounds' =>
      st <- poll_events (w, true) es ;;
      let frame := render_frame (fst st) in
      if (snd st : bool) then
        r <- main_loop rounds' (fst st) ;;
        Done (fst r, frame :: snd r)
      else Done (fst st, [frame])
  end.

(** Line 401 and the loop; window and renderer are taken to be created
    without error. *)
Definition main (rnd : Z -> Z -> Z) (rounds : list (list event))
  : outcome (world * list (list render_op)) :=
  main_loop rounds (initialize_grid rnd).

(* ================================================================== *)
(** * Vocabulary of the statements and of the proofs *)

(** An empty field with Start at (0,0) and End at (2,0). *)
Definition open_field : world :=
  mkWorld (fun _ _ => CELL_EMPTY) (fun _ _ => CELL_EMPTY)
          (mkPoint 0 0) (mkPoint 2 0) true true true.

(* ================================================================== *)
(** ** Graph vocabulary used by the statements *)

Definition inb (p : Point) : bool := in_bounds (px p) (py p).

(** [a[p.y][p.x]] *)
Definition at2 {A : Type} (a : array2 A) (p : Point) : A := a (py p) (px p).

Definition valid (w : world) (p : Point) : bool :=
  is_valid_position w (px p) (py p).

(** A cell the neighbour loop does not skip (lines 172-176): in bounds
    and either the sink or a valid position. *)
Definition legal (w : world) (p : Point) : bool :=
  inb p && (Point_eqb p (end_ w) || valid w p).

Definition shift (p : Point) (o : Z * Z) : Point :=
  mkPoint (px p + fst o) (py p + snd o).

Definition offsets : list (Z * Z) := combine dx dy.

(** [p] and [q] differ by exactly one unit in exactly one axis. *)
Definition unit_step (p q : Point) : Prop :=
  (Z.abs (px q - px p) = 1 /\ py q = py p) \/
  (px q = px p /\ Z.abs (py q - py p) = 1).

Fixpoint chain (l : list Point) : Prop :=
  match l with
  | a :: (b :: _) as t => unit_step a b /\ chain t
  | _ => True
  end.

(** A 4-connected chain from Start to End all of whose cells after the
    first are legal: what a search that got past its entry test explores. *)
Definition walk (w : world) (l : list Point) : Prop :=
  hd_error l = Some (start w) /\ last l (start w) = end_ w /\
  chain l /\ Forall (fun p => legal w p = true) (tl l).

(** A walk whose first cell, the source, is a valid position too. *)
Definition legal_path (w : world) (l : list Point) : Prop :=
  valid w (start w) = true /\ walk w l.

(** Number of edges of a path given as its list of cells. *)
Definition edges (l : list Point) : Z := Z.of_nat (length l) - 1.

(** The points of a path other than the designated Start and End. *)
Definition interior (w : world) (p : Path) : list Point :=
  filter (fun q => negb (Point_eqb q (start w) || Point_eqb q (end_ w)))
         (p_points p).

(** The entry test of the search, in closed form. *)
Definition entry_open (w : world) : bool :=
  valid w (start w) || negb (CellType_eqb (at2 (grid_path_type w) (end_ w)) CELL_EMPTY).

(** Every in-bounds cell occurs in this list. *)
Definition all_cells : list Point :=
  flat_map (fun y => map (fun x => mkPoint (Z.of_nat x) (Z.of_nat y))
                         (seq 0 (Z.to_nat GRID_WIDTH)))
           (seq 0 (Z.to_nat GRID_HEIGHT)).

(* ================================================================== *)
(** ** The loop invariant of the search *)

Definition D (st : locals) (p : Point) : Z := at2 (dist st) p.
Definition V (st : locals) (p : Point) : bool := at2 (visited st) p.
Definition Par (st : locals) (p : Point) : Point := at2 (parent st) p.

(** [lo] is the cost of the node taken from the queue last; [pend p o]
    holds for the neighbours [shift p o] of a visited cell [p] that the
    neighbour loop has not looked at yet. *)
Record Inv (w : world) (lo : Z) (pend : Point -> Z * Z -> Prop) (st : locals)
  : Prop := {
  inv_start : D st (start w) = 0 /\ In (start w) (pushes st);
  inv_nodup : NoDup (pushes st);
  inv_inb : forall p, In p (pushes st) -> inb p = true;
  inv_fin : forall p, In p (pushes st) <-> D st p <> INT_MAX;
  inv_range : forall p, In p (pushes st) ->
      0 <= D st p < Z.of_nat (length (pushes st)) /\ D st p <= lo + 1;
  inv_len : (length (nodes st) <= length (pushes st))%nat;
  inv_queue : forall n, In n (nodes st) ->
      In (pos n) (pushes st) /\ cost n = D st (pos n) /\ lo <= cost n;
  inv_unvis : forall p, In p (pushes st) -> V st p = false ->
      In (mkNode p (D st p)) (nodes st);
  inv_vis : forall p, V st p = true -> In p (pushes st);
  inv_end : V st (end_ w) = false;
  inv_closed : forall p o, V st p = true -> In o offsets ->
      pend p o \/
      (legal w (shift p o) = true ->
       In (shift p o) (pushes st) /\ D st (shift p o) <= D st p + 1);
  inv_parent : forall p, In p (pushes st) -> p <> start w ->
      In (Par st p) (pushes st) /\ D st p = D st (Par st p) + 1 /\
      (exists o, In o offsets /\ p = shift (Par st p) o) /\
      legal w p = true
}.

Definition no_pend : Point -> Z * Z -> Prop := fun _ _ => False.
Definition pend_at (c : Point) (R : list (Z * Z)) : Point -> Z * Z -> Prop :=
  fun p o => p = c /\ In o R.

(** Pushes minus queue length: the number of nodes removed so far. *)
Definition popped (st : locals) : Z :=
  Z.of_nat (length (pushes st)) - Z.of_nat (length (nodes st)).

(** The part of the invariant that path reconstruction relies on: the
    parent pointers form a tree rooted at Start along which [dist] grows
    by one per edge. *)
Record Tree (w : world) (st : locals) : Prop := {
  tr_start : D st (start w) = 0 /\ In (start w) (pushes st);
  tr_nodup : NoDup (pushes st);
  tr_inb : forall p, In p (pushes st) -> inb p = true;
  tr_range : forall p, In p (pushes st) ->
      0 <= D st p < Z.of_nat (length (pushes st));
  tr_parent : forall p, In p (pushes st) -> p <> start w ->
      In (Par st p) (pushes st) /\ D st p = D st (Par st p) + 1 /\
      (exists o, In o offsets /\ p = shift (Par st p) o) /\
      legal w p = true
}.

(** What the loop returns. *)
Definition Post (w : world) (st : locals) (r : option Node) : Prop :=
  Tree w st /\
  match r with
  | None => forall l, ~ walk w l
  | Some cur =>
      pos cur = end_ w /\ cost cur = D st (end_ w) /\
      In (end_ w) (pushes st) /\
      forall l, walk w l -> cost cur <= edges l
  end.

Definition with_nodes (st : locals) (ns : list Node) : locals :=
  mkLocals (dist st) (visited st) (parent st) ns (pushes st).

Definition with_visited (st : locals) (v : array2 bool) : locals :=
  mkLocals (dist st) v (parent st) (nodes st) (pushes st).

(* ================================================================== *)
(** ** Results of a search *)

(** A successful result: the points are a walk from Start to End, the
    bookkeeping of the record is right, no walk is shorter, and the sink
    occurs only as the last point. *)
Record found_ok (w : world) (p : Path) : Prop := {
  fo_walk : walk w (p_points p);
  fo_length : p_length p = Z.of_nat (length (p_points p));
  fo_cost : p_cost p = p_length p - 1;
  fo_nonneg : 0 <= p_cost p;
  fo_room : p_length p <= GRID_WIDTH * GRID_HEIGHT;
  fo_optimal : forall l, walk w l -> p_cost p <= edges l;
  fo_sink_last : ~ In (end_ w) (removelast (p_points p))
}.

(** The source or the sink is a Wall or carries a rank label. *)
Definition blocked (w : world) (p : Point) : bool :=
  CellType_eqb (at2 (grid w) p) CELL_WALL
  || negb (CellType_eqb (at2 (grid_path_type w) p) CELL_EMPTY).

(** Source a Wall at (0,0), sink (1,0) already labelled with rank 1. *)
Definition walled_source : world :=
  mkWorld (fun y x => if (x =? 0) && (y =? 0) then CELL_WALL else CELL_EMPTY)
          (fun y x => if (x =? 1) && (y =? 0) then CELL_PATH_1 else CELL_EMPTY)
          (mkPoint 0 0) (mkPoint 1 0) true true true.

(* ================================================================== *)
(** ** C1 and C5 as the specification states them *)

(** The statement of C1 at a given state: the search returns a legal path
    of minimal cost, or cost -1 and length 0 when there is no legal path. *)
Definition returns_minimal_or_none (w : world) : Prop :=
  exists p, dijkstra_find_path w = Done p /\
    ((legal_path w (p_points p) /\ p_cost p = edges (p_points p) /\
      forall l, legal_path w l -> p_cost p <= edges l)
     \/
     (p_cost p = -1 /\ p_length p = 0 /\ forall l, ~ legal_path w l)).

(** The statement of C5 at a given state. *)
Definition blocked_source_fails (w : world) : Prop :=
  blocked w (start w) = true -> dijkstra_find_path w = Done no_path.

(** Source a Wall at (0,0), sink (1,0) without rank label. *)
Definition walled_source_free_sink : world :=
  mkWorld (fun y x => if (x =? 0) && (y =? 0) then CELL_WALL else CELL_EMPTY)
          (fun _ _ => CELL_EMPTY)
          (mkPoint 0 0) (mkPoint 1 0) true true true.

(** Sink (2,0) is a Wall; the source (0,0) is free. *)
Definition walled_sink : world :=
  mkWorld (fun y x => if (x =? 2) && (y =? 0) then CELL_WALL else CELL_EMPTY)
          (fun _ _ => CELL_EMPTY)
          (mkPoint 0 0) (mkPoint 2 0) true true true.

(* ================================================================== *)
(** ** Runs of the K-iteration loop *)

(** Everything but [grid_path_type] is the same in both states. *)
Record same_frame (w w' : world) : Prop := {
  sf_grid : grid w' = grid w;
  sf_start : start w' = start w;
  sf_end : end_ w' = end_ w;
  sf_ssel : start_selected w' = start_selected w;
  sf_esel : end_selected w' = end_selected w;
  sf_done : paths_found_and_drawn w' = paths_found_and_drawn w
}.

(** [w'] is [w] after the marking loop has run over [pts] with label [ty]. *)
Record marked (w : world) (ty : CellType) (pts : list Point) (w' : world)
  : Prop := {
  mk_frame : same_frame w w';
  mk_set : forall q, In q pts -> q <> start w -> q <> end_ w ->
      at2 (grid_path_type w') q = ty;
  mk_kept : forall q,
      at2 (grid_path_type w') q = at2 (grid_path_type w) q \/
      (at2 (grid_path_type w') q = ty /\ In q pts /\
       q <> start w /\ q <> end_ w)
}.

(** The runs of the loop from index [i] in state [w]: the calls made, in
    order, and the final state. *)
Inductive good_run : Z -> world -> list call -> world -> Prop :=
| gr_done i w : good_run i w [] w
| gr_fail i w :
    dijkstra_find_path w = Done no_path ->
    good_run i w [mkCall (i + 1) w no_path] w
| gr_step i w p w1 tr w' :
    0 <= i < K_PATHS ->
    dijkstra_find_path w = Done p -> entry_open w = true -> found_ok w p ->
    marked w (path_type_of i) (p_points p) w1 ->
    good_run (i + 1) w1 tr w' ->
    good_run i w (mkCall (i + 1) w p :: tr) w'.

Definition report (c : call) : Z * Path := (call_rank c, call_result c).

(* ================================================================== *)
(** ** The click handler and the reachable states *)

(** The globals after the first valid click (lines 297-299). *)
Definition start_world (w : world) (grid_pos : Point) : world :=
  mkWorld (upd (grid w) (py grid_pos) (px grid_pos) CELL_START)
          (grid_path_type w) grid_pos (end_ w)
          true (end_selected w) (paths_found_and_drawn w).

(** The globals when the loop starts (lines 304-309). *)
Definition end_world (w : world) (grid_pos : Point) : world :=
  mkWorld (upd (grid w) (py grid_pos) (px grid_pos) CELL_END)
          (grid_path_type w) (start w) grid_pos
          (start_selected w) true true.

(** What holds of the globals between two events. *)
Record RInv (w : world) : Prop := {
  ri_flags : paths_found_and_drawn w = end_selected w;
  ri_order : end_selected w = true -> start_selected w = true;
  ri_start : start_selected w = true ->
      inb (start w) = true /\ at2 (grid w) (start w) <> CELL_WALL /\
      at2 (grid_path_type w) (start w) = CELL_EMPTY;
  ri_end : end_selected w = true ->
      inb (end_ w) = true /\ at2 (grid_path_type w) (end_ w) = CELL_EMPTY;
  ri_clean : end_selected w = false ->
      forall q, at2 (grid_path_type w) q = CELL_EMPTY
}.

(* ================================================================== *)
(** ** C8 as the specification states it *)

(** The click at screen position [(x, y)] designates End. *)
Definition designates_end (w : world) (x y : Z) : Prop :=
  exists w' tr, handle_click w x y = Done (w', tr) /\
    end_selected w = false /\ end_selected w' = true /\
    end_ w' = screen_to_grid x y.

(** The statement of C8 at a given state and click. *)
Definition end_refused_iff (w : world) (x y : Z) : Prop :=
  let grid_pos := screen_to_grid x y in
  (~ designates_end w x y <->
   (grid_pos = start w \/ inb grid_pos = false \/ end_selected w = true)) /\
  (~ designates_end w x y -> handle_click w x y = Done (w, [])).

(** A grid whose only Wall is (1,0), after Start was put on (0,0). *)
Definition one_wall : world :=
  initialize_grid (fun y x => if (x =? 1) && (y =? 0) then 0 else 1).

Definition one_wall_started : world := start_world one_wall (mkPoint 0 0).

(* ================================================================== *)
(** ** Further vocabulary: distances and agreement of states *)

(** Number of unit steps any 4-connected chain from [p] to [q] needs at
    least. *)
Definition manhattan (p q : Point) : Z :=
  Z.abs (px q - px p) + Z.abs (py q - py p).

(** Two states the search cannot tell apart: same endpoints, same Walls,
    same rank labels. *)
Record same_obstacles (w1 w2 : world) : Prop := {
  so_start : start w1 = start w2;
  so_end : end_ w1 = end_ w2;
  so_walls : forall y x, grid w1 y x = CELL_WALL <-> grid w2 y x = CELL_WALL;
  so_labels : forall y x, grid_path_type w1 y x = grid_path_type w2 y x
}.

(** The open field with the Start and End markers written into [grid] and
    all three flags cleared. *)
Definition open_field_marked : world :=
  mkWorld (fun y x => if (y =? 0) && (x =? 0) then CELL_START
                      else if (y =? 0) && (x =? 2) then CELL_END
                      else CELL_EMPTY)
          (fun _ _ => CELL_EMPTY)
          (mkPoint 0 0) (mkPoint 2 0) false false false.

(** Start and End on the same free cell. *)
Definition same_cell : world :=
  mkWorld (fun _ _ => CELL_EMPTY) (fun _ _ => CELL_EMPTY)
          (mkPoint 3 4) (mkPoint 3 4) true true true.

(** [n] steps by the offset [o], starting after [p]. *)
Fixpoint seg (p : Point) (o : Z * Z) (n : nat) : list Point :=
  match n with
  | O => []
  | S n' => shift p o :: seg (shift p o) o n'
  end.

Definition shiftn (p : Point) (o : Z * Z) (k : Z) : Point :=
  mkPoint (px p + k * fst o) (py p + k * snd o).

Definition toward (a b : Z) : Z := if a <=? b then 1 else -1.

(** From [s] along its row to the column of [e], then along that column
    to [e]. *)
Definition l_path (s e : Point) : list Point :=
  s :: seg s (toward (px s) (px e), 0) (Z.to_nat (Z.abs (px e - px s)))
    ++ seg (mkPoint (px e) (py s)) (0, toward (py s) (py e))
           (Z.to_nat (Z.abs (py e - py s))).

(** [q] lies in the smallest rectangle that holds [s] and [e]. *)
Definition in_box (s e q : Point) : Prop :=
  Z.min (px s) (px e) <= px q <= Z.max (px s) (px e) /\
  Z.min (py s) (py e) <= py q <= Z.max (py s) (py e).

(** Start (0,0) and End (1,0) side by side on an empty field. *)
Definition neighbours_field : world :=
  mkWorld (fun _ _ => CELL_EMPTY) (fun _ _ => CELL_EMPTY)
          (mkPoint 0 0) (mkPoint 1 0) true true true.

(** The offsets that lead from Start to a valid position. *)
Definition free_neighbours (w : world) : list (Z * Z) :=
  filter (fun o => valid w (shift (start w) o)) offsets.

(* ================================================================== *)
(** ** Further vocabulary: the states of a session *)

(** Where a session stands, read off the two selection flags. *)
Inductive phase : Type := AwaitingStart | AwaitingEnd | Finished.

Definition phase_of (w : world) : phase :=
  if negb (start_selected w) then AwaitingStart
  else if negb (end_selected w) then AwaitingEnd
  else Finished.

(** The labels the loop writes. *)
Definition rank_label (c : CellType) : Prop :=
  c = CELL_PATH_1 \/ c = CELL_PATH_2 \/ c = CELL_PATH_3 \/ c = CELL_PATH_4.

(** What the two grids hold between two events. *)
Record state_ok (w : world) : Prop := {
  sk_kinds : forall y x,
      grid w y x = CELL_EMPTY \/ grid w y x = CELL_WALL \/
      grid w y x = CELL_START \/ grid w y x = CELL_END;
  sk_start : forall y x,
      grid w y x = CELL_START <->
      start_selected w = true /\ start w = mkPoint x y;
  sk_end : forall y x,
      grid w y x = CELL_END <->
      end_selected w = true /\ end_ w = mkPoint x y;
  sk_labels : forall q, at2 (grid_path_type w) q <> CELL_EMPTY ->
      inb q = true /\ at2 (grid w) q = CELL_EMPTY /\
      end_selected w = true /\ rank_label (at2 (grid_path_type w) q);
  sk_unset_start : start_selected w = false -> start w = mkPoint (-1) (-1);
  sk_unset_end : end_selected w = false -> end_ w = mkPoint (-1) (-1);
  sk_distinct : end_selected w = true -> start w <> end_ w
}.

(* ================================================================== *)
(** ** Further vocabulary: what is painted *)

(** What a sequence of renderer calls fills: every filled rectangle with
    the draw colour in force at that call; [cur] is the colour in force
    at the beginning. *)
Fixpoint fills (cur : SDL_Color) (ops : list render_op)
  : list (SDL_FRect * SDL_Color) :=
  match ops with
  | [] => []
  | SetRenderDrawColor c :: ops' => fills c ops'
  | RenderFillRect r :: ops' => (r, cur) :: fills cur ops'
  | _ :: ops' => fills cur ops'
  end.

(** The pixel [(sx, sy)] lies in the rectangle. *)
Definition covers (r : SDL_FRect) (sx sy : Z) : Prop :=
  r_x r <= sx < r_x r + r_w r /\ r_y r <= sy < r_y r + r_h r.

(** The colour [draw_grid] fills cell [(x, y)] with. *)
Definition shown (w : world) (y x : Z) : SDL_Color :=
  cell_color (grid w y x) (grid_path_type w y x).

(* ================================================================== *)
(** ** Further vocabulary: rounds of the event loop *)

Definition is_quit (e : event) : bool :=
  match e with EVENT_QUIT => true | _ => false end.

(** The rounds up to and including the first one with a quit event. *)
Fixpoint until_quit (rounds : list (list event)) : list (list event) :=
  match rounds with
  | [] => []
  | es :: rounds' =>
      if existsb is_quit es then [es] else es :: until_quit rounds'
  end.

(** The one-wall grid after the second click, on (2,0): the state and the
    calls made. *)
Definition one_wall_finished : world * list call :=
  match handle_click one_wall_started 80 0 with
  | Done r => r
  | _ => (one_wall_started, [])
  end.

(* ================================================================== *)
(** * Proofs *)

(* ================================================================== *)
(** ** Sample runs *)

Example open_field_first :
  dijkstra_find_path open_field
  = Done (mkPath [mkPoint 0 0; mkPoint 1 0; mkPoint 2 0] 3 2).
Proof. vm_compute. reflexivity. Qed.

Example open_field_costs :
  match k_loop (Z.to_nat K_PATHS) 0 open_field with
  | Done (_, tr) => map (fun c => p_cost (call_result c)) tr = [2; 4; -1]
  | _ => False
  end.
Proof. vm_compute. reflexivity. Qed.

(* ================================================================== *)
(** ** Basic facts *)

Lemma Point_eqb_eq p q : Point_eqb p q = true <-> p = q.
Proof.
  unfold Point_eqb. destruct p as [a b], q as [c d]; simpl.
  rewrite andb_true_iff, !Z.eqb_eq. split.
  - intros [-> ->]. reflexivity.
  - intros H. inversion H. auto.
Qed.

Lemma Point_eqb_neq p q : Point_eqb p q = false <-> p <> q.
Proof.
  rewrite <- Point_eqb_eq. destruct (Point_eqb p q); split; congruence.
Qed.

Lemma Point_eqb_refl p : Point_eqb p p = true.
Proof. apply Point_eqb_eq. reflexivity. Qed.

Lemma Point_eq_dec (p q : Point) : {p = q} + {p <> q}.
Proof.
  destruct (Point_eqb p q) eqn:E.
  - left. apply Point_eqb_eq. exact E.
  - right. apply Point_eqb_neq. exact E.
Defined.

Lemma CellType_eqb_eq a b : CellType_eqb a b = true <-> a = b.
Proof. destruct a, b; simpl; split; congruence. Qed.

Lemma point_eta p : mkPoint (px p) (py p) = p.
Proof. destruct p. reflexivity. Qed.

Lemma in_bounds_iff x y :
  in_bounds x y = true <-> 0 <= x < GRID_WIDTH /\ 0 <= y < GRID_HEIGHT.
Proof.
  unfold in_bounds. rewrite !andb_true_iff, !Z.leb_le, !Z.ltb_lt. lia.
Qed.

Lemma rd_in {A} (a : array2 A) p :
  inb p = true -> rd a (py p) (px p) = Done (at2 a p).
Proof. unfold rd, inb, at2. intros ->. reflexivity. Qed.

Lemma wr_in {A} (a : array2 A) p v :
  inb p = true -> wr a (py p) (px p) v = Done (upd a (py p) (px p) v).
Proof. unfold wr, inb. intros ->. reflexivity. Qed.

Lemma at2_upd_same {A} (a : array2 A) p (v : A) :
  at2 (upd a (py p) (px p) v) p = v.
Proof. unfold at2, upd. rewrite !Z.eqb_refl. reflexivity. Qed.

Lemma at2_upd_other {A} (a : array2 A) p q (v : A) :
  q <> p -> at2 (upd a (py p) (px p) v) q = at2 a q.
Proof.
  unfold at2, upd. intros H.
  destruct ((py q =? py p) && (px q =? px p)) eqn:E; [|reflexivity].
  apply andb_true_iff in E. destruct E as [E1 E2].
  apply Z.eqb_eq in E1, E2. destruct p, q; simpl in *; subst. congruence.
Qed.

Lemma legal_inb w p : legal w p = true -> inb p = true.
Proof. unfold legal. intros H. apply andb_true_iff in H. tauto. Qed.

Lemma valid_inb w p : valid w p = true -> inb p = true.
Proof.
  unfold valid, is_valid_position, inb. intros H.
  apply andb_true_iff in H. destruct H as [H _].
  apply andb_true_iff in H. tauto.
Qed.

Lemma unit_step_shift p o : In o offsets -> unit_step p (shift p o).
Proof.
  unfold offsets, dx, dy, unit_step, shift. simpl.
  intros [<-|[<-|[<-|[<-|[]]]]]; simpl; lia.
Qed.

Lemma all_cells_length : length all_cells = Z.to_nat NODES_CAP.
Proof. vm_compute. reflexivity. Qed.

Lemma all_cells_complete p : inb p = true -> In p all_cells.
Proof.
  unfold inb. rewrite in_bounds_iff. intros [Hx Hy].
  unfold all_cells. apply in_flat_map.
  exists (Z.to_nat (py p)). split.
  - apply in_seq. lia.
  - apply in_map_iff. exists (Z.to_nat (px p)). split.
    + rewrite !Z2Nat.id by lia. apply point_eta.
    + apply in_seq. lia.
Qed.

Lemma cells_bounded (l : list Point) :
  NoDup l -> (forall p, In p l -> inb p = true) ->
  Z.of_nat (length l) <= NODES_CAP.
Proof.
  intros Hnd Hin.
  assert (H : (length l <= length all_cells)%nat).
  { apply NoDup_incl_length; [exact Hnd|].
    intros p Hp. apply all_cells_complete. auto. }
  rewrite all_cells_length in H.
  assert (0 <= NODES_CAP) by (vm_compute; congruence).
  lia.
Qed.

(* ------------------------------------------------------------------ *)
(** *** The linear scan and the removal *)

Lemma scan_min_spec all : forall rest (i m : nat) d,
  (m < i)%nat ->
  i = (length all - length rest)%nat ->
  rest = skipn i all ->
  (forall j, (j < i)%nat -> cost (nth m all d) <= cost (nth j all d)) ->
  let r := scan_min all rest i m in
  (r < length all)%nat /\
  forall j, (j < length all)%nat -> cost (nth r all d) <= cost (nth j all d).
Proof.
  induction rest as [|n rest IH]; intros i m d Hm Hi Hr Hmin; simpl.
  - simpl in Hi. split; [lia|]. intros j Hj. apply Hmin. lia.
  - simpl in Hi.
    assert (Hlen : (i < length all)%nat) by lia.
    assert (Hn : nth i all d = n).
    { rewrite <- (firstn_skipn i all) at 1.
      rewrite app_nth2; rewrite length_firstn, Nat.min_l by lia; [|lia].
      rewrite Nat.sub_diag, <- Hr. reflexivity. }
    assert (Hrest : rest = skipn (S i) all).
    { replace (S i) with (1 + i)%nat by lia.
      rewrite <- skipn_skipn, <- Hr. reflexivity. }
    rewrite (nth_indep all n d) by lia.
    destruct (cost n <? cost (nth m all d)) eqn:E.
    + apply Z.ltb_lt in E.
      apply IH; try lia; auto.
      intros j Hj. rewrite Hn.
      destruct (Nat.eq_dec j i) as [->|Hne]; [rewrite Hn; lia|].
      specialize (Hmin j ltac:(lia)). lia.
    + apply Z.ltb_ge in E.
      apply IH; try lia; auto.
      intros j Hj.
      destruct (Nat.eq_dec j i) as [->|Hne]; [rewrite Hn; lia|].
      apply Hmin. lia.
Qed.

Lemma find_min_index_spec (l : list Node) d :
  l <> [] ->
  (find_min_index l < length l)%nat /\
  forall n, In n l -> cost (nth (find_min_index l) l d) <= cost n.
Proof.
  intros Hne. destruct l as [|a t]; [congruence|].
  unfold find_min_index.
  assert (H0 : forall j, (j < 1)%nat ->
            cost (nth 0 (a :: t) d) <= cost (nth j (a :: t) d)).
  { intros j Hj. assert (j = 0%nat) by lia. subst. lia. }
  assert (Hlen : 1%nat = (length (a :: t) - length (tl (a :: t)))%nat).
  { cbn [length tl]. lia. }
  destruct (scan_min_spec (a :: t) (tl (a :: t)) 1 0 d
              (Nat.lt_0_1) Hlen eq_refl H0) as [H1 H2].
  split; [exact H1|].
  intros n Hn. destruct (In_nth _ _ d Hn) as [j [Hj <-]].
  apply H2. exact Hj.
Qed.

Lemma set_nth_length {A} (v : A) : forall l i, length (set_nth i v l) = length l.
Proof.
  induction l as [|h t IH]; intros [|i]; simpl; auto.
Qed.

Lemma set_nth_nth {A} (v d : A) : forall l i j,
  (i < length l)%nat ->
  nth j (set_nth i v l) d = if Nat.eqb j i then v else nth j l d.
Proof.
  induction l as [|h t IH]; intros [|i] [|j] Hi; simpl in *; try lia; auto.
  apply IH. lia.
Qed.

(** What the removal leaves behind: one entry fewer, nothing new, and
    every entry of the old array except possibly the removed one. *)
Lemma remove_at_spec (l : list Node) (i : nat) d :
  (i < length l)%nat ->
  length (remove_at i l) = (length l - 1)%nat /\
  (forall n, In n (remove_at i l) -> In n l) /\
  (forall n, In n l -> n = nth i l d \/ In n (remove_at i l)).
Proof.
  intros Hi. unfold remove_at.
  destruct (rev l) as [|lst r] eqn:Hrev.
  { apply (f_equal (@length _)) in Hrev. rewrite length_rev in Hrev.
    simpl in Hrev. lia. }
  assert (Hl : l = rev r ++ [lst]).
  { rewrite <- (rev_involutive l), Hrev. reflexivity. }
  assert (Hlen : length l = S (length r)).
  { rewrite Hl, length_app, length_rev. simpl. lia. }
  assert (Hlast : nth (length r) l d = lst).
  { rewrite Hl, app_nth2; rewrite length_rev; [|lia].
    rewrite Nat.sub_diag. reflexivity. }
  split; [|split].
  - rewrite length_firstn, set_nth_length. lia.
  - intros n Hn.
    destruct (In_nth _ _ d Hn) as [j [Hj Hnth]].
    rewrite length_firstn, set_nth_length in Hj.
    rewrite nth_firstn in Hnth.
    assert (Hj' : (j < length l - 1)%nat) by lia.
    apply Nat.ltb_lt in Hj'. rewrite Hj' in Hnth.
    rewrite set_nth_nth in Hnth by lia.
    destruct (Nat.eqb j i).
    + subst n. rewrite <- Hlast. apply nth_In. lia.
    + subst n. apply nth_In. apply Nat.ltb_lt in Hj'. lia.
  - intros n Hn.
    destruct (In_nth _ _ d Hn) as [j [Hj Hnth]].
    destruct (Nat.eq_dec j i) as [->|Hji]; [left; auto|].
    right.
    destruct (Nat.eq_dec j (length r)) as [Hjl|Hjl].
    + (* the last entry moved to slot i *)
      assert (Hil : (i < length r)%nat) by lia.
      replace n with (nth i (firstn (length l - 1) (set_nth i lst l)) d).
      * apply nth_In. rewrite length_firstn, set_nth_length. lia.
      * rewrite nth_firstn.
        assert (Hi' : (i < length l - 1)%nat) by lia.
        apply Nat.ltb_lt in Hi'. rewrite Hi'.
        rewrite set_nth_nth, Nat.eqb_refl by lia.
        rewrite <- Hnth, Hjl. auto.
    + replace n with (nth j (firstn (length l - 1) (set_nth i lst l)) d).
      * apply nth_In. rewrite length_firstn, set_nth_length. lia.
      * rewrite nth_firstn.
        assert (Hj' : (j < length l - 1)%nat) by lia.
        apply Nat.ltb_lt in Hj'. rewrite Hj'.
        rewrite set_nth_nth by lia.
        apply Nat.eqb_neq in Hji. rewrite Hji. exact Hnth.
Qed.

(* ================================================================== *)
(** ** The loop invariant of the search *)

Lemma cap_small : 0 < NODES_CAP < INT_MAX.
Proof. vm_compute. split; reflexivity. Qed.

Lemma int_add_ok a b :
  INT_MIN <= a + b <= INT_MAX -> int_add a b = Done (a + b).
Proof.
  intros H. unfold int_add. cbv zeta.
  destruct (INT_MIN <=? a + b) eqn:E1; [|apply Z.leb_gt in E1; lia].
  destruct (a + b <=? INT_MAX) eqn:E2; [|apply Z.leb_gt in E2; lia].
  reflexivity.
Qed.

Lemma int_min_neg : INT_MIN < 0.
Proof. reflexivity. Qed.

Lemma explore_neighbor_eq w c st o :
  explore_neighbor w (px c) (py c) st o =
  let q := shift c o in
  if negb (Point_eqb q (end_ w)) && negb (valid w q) then Done st
  else
    v <- rd (visited st) (py q) (px q) ;;
    if (v : bool) then Done st
    else
      dc <- rd (dist st) (py c) (px c) ;;
      new_cost <- int_add dc 1 ;;
      dn <- rd (dist st) (py q) (px q) ;;
      if new_cost <? dn then
        dist' <- wr (dist st) (py q) (px q) new_cost ;;
        parent' <- wr (parent st) (py q) (px q) c ;;
        push_node (mkLocals dist' (visited st) parent' (nodes st) (pushes st))
                  (mkNode q new_cost)
      else Done st.
Proof. unfold explore_neighbor. rewrite (point_eta c). reflexivity. Qed.

Section SearchInvariant.

Variable w : world.
Hypothesis Hstart : inb (start w) = true.
Hypothesis Hend : inb (end_ w) = true.

Lemma inv_pushes_bounded lo pend st :
  Inv w lo pend st -> Z.of_nat (length (pushes st)) <= NODES_CAP.
Proof.
  intros I. apply cells_bounded; [apply (inv_nodup _ _ _ _ I)|apply (inv_inb _ _ _ _ I)].
Qed.

Lemma init_locals_inv :
  exists st, init_locals w = Done st /\ Inv w 0 no_pend st /\ popped st = 0.
Proof.
  unfold init_locals, push_node. cbn [nodes length].
  pose proof cap_small as Hc.
  destruct (Z.of_nat 0 <? NODES_CAP) eqn:E; [|apply Z.ltb_ge in E; simpl in E; lia].
  cbn [bind dist visited parent nodes pushes pos app].
  rewrite (wr_in _ (start w)) by exact Hstart. cbn [bind].
  eexists. split; [reflexivity|]. split; [|reflexivity].
  assert (Hd : forall p, D {| dist := upd (fun _ _ => INT_MAX) (py (start w)) (px (start w)) 0;
                              visited := fun _ _ => false;
                              parent := fun _ _ => mkPoint (-1) (-1);
                              nodes := [mkNode (start w) 0];
                              pushes := [start w] |} p
                      = if Point_eqb p (start w) then 0 else INT_MAX).
  { intros p. unfold D. cbn [dist].
    destruct (Point_eqb p (start w)) eqn:Ep.
    - apply Point_eqb_eq in Ep. subst. apply at2_upd_same.
    - apply Point_eqb_neq in Ep. rewrite at2_upd_other by exact Ep. reflexivity. }
  constructor; cbn [nodes pushes length In]; unfold V, Par; cbn [visited parent].
  - rewrite Hd, Point_eqb_refl. auto.
  - constructor; [simpl; tauto|constructor].
  - intros p [<-|[]]. exact Hstart.
  - intros p. rewrite Hd. destruct (Point_eqb p (start w)) eqn:Ep.
    + apply Point_eqb_eq in Ep. subst. split; [intros _; lia|auto].
    + apply Point_eqb_neq in Ep. split; [intros [?|[]]; congruence|congruence].
  - intros p [<-|[]]. rewrite Hd, Point_eqb_refl. simpl. lia.
  - lia.
  - intros n [<-|[]]. cbn [pos cost]. rewrite Hd, Point_eqb_refl. split; [auto|lia].
  - intros p [<-|[]] _. rewrite Hd, Point_eqb_refl. auto.
  - unfold at2. congruence.
  - reflexivity.
  - unfold at2. congruence.
  - intros p [<-|[]] Hne. congruence.
Qed.

End SearchInvariant.

(* ------------------------------------------------------------------ *)
(** *** The neighbour loop keeps the invariant *)

Section NeighbourLoop.

Variable w : world.
Hypothesis Hend : inb (end_ w) = true.

Lemma Inv_pend lo (pend pend' : Point -> Z * Z -> Prop) st :
  Inv w lo pend st ->
  (forall p o, V st p = true -> In o offsets -> pend p o ->
     pend' p o \/
     (legal w (shift p o) = true ->
      In (shift p o) (pushes st) /\ D st (shift p o) <= D st p + 1)) ->
  Inv w lo pend' st.
Proof.
  intros I H. destruct I as [? ? ? ? ? ? ? ? ? ? Hcl ?]. constructor; auto.
  intros p o Hv Ho. destruct (Hcl p o Hv Ho) as [Hp|Hc]; auto.
Qed.

Lemma skip_not_legal q :
  negb (Point_eqb q (end_ w)) && negb (valid w q) = true -> legal w q = false.
Proof.
  intros H. apply andb_true_iff in H. destruct H as [H1 H2].
  apply negb_true_iff in H1, H2. unfold legal. rewrite H1, H2.
  apply andb_false_r.
Qed.

Lemma noskip_legal q :
  negb (Point_eqb q (end_ w)) && negb (valid w q) = false -> legal w q = true.
Proof.
  intros H. apply andb_false_iff in H. unfold legal.
  destruct H as [H|H]; apply negb_false_iff in H.
  - rewrite H. apply Point_eqb_eq in H. subst. rewrite Hend. reflexivity.
  - rewrite H, (valid_inb _ _ H). simpl. apply orb_true_r.
Qed.

Lemma explore_neighbor_inv d c o R st :
  Inv w d (pend_at c (o :: R)) st ->
  In o offsets -> V st c = true -> D st c = d ->
  exists st',
    explore_neighbor w (px c) (py c) st o = Done st' /\
    Inv w d (pend_at c R) st' /\
    V st' c = true /\ D st' c = d /\ popped st' = popped st.
Proof.
  intros I Ho Hv Hd.
  rewrite explore_neighbor_eq. cbv zeta.
  set (q := shift c o).
  pose proof (inv_vis _ _ _ _ I c Hv) as Hcp.
  pose proof (inv_inb _ _ _ _ I c Hcp) as Hcb.
  pose proof (inv_range _ _ _ _ I c Hcp) as [Hcr _].
  pose proof (inv_pushes_bounded _ _ _ _ I) as Hcap.
  pose proof cap_small as Hsmall. pose proof int_min_neg as Hneg.
  (* what is left to show about the offset just handled *)
  assert (Hdone : (legal w q = true ->
                   In q (pushes st) /\ D st q <= D st c + 1) ->
                  Inv w d (pend_at c R) st).
  { intros Hq. apply (Inv_pend _ _ _ _ I).
    intros p o' Hvp Ho' [-> [<-|Hin]].
    - right. exact Hq.
    - left. split; auto. }
  destruct (negb (Point_eqb q (end_ w)) && negb (valid w q)) eqn:Eskip.
  { exists st; split; [reflexivity|]; split; [|split; [exact Hv|split; [exact Hd|reflexivity]]].
    apply Hdone. rewrite (skip_not_legal _ Eskip). discriminate. }
  pose proof (noskip_legal _ Eskip) as Hleg.
  pose proof (legal_inb _ _ Hleg) as Hqb.
  rewrite (rd_in _ q Hqb). cbn [bind]. fold (V st q).
  destruct (V st q) eqn:Hvq.
  { exists st; split; [reflexivity|]; split; [|split; [exact Hv|split; [exact Hd|reflexivity]]].
    apply Hdone. intros _.
    pose proof (inv_vis _ _ _ _ I q Hvq) as Hqp.
    split; [exact Hqp|].
    destruct (inv_range _ _ _ _ I q Hqp) as [_ H]. lia. }
  rewrite (rd_in _ c Hcb). cbn [bind]. fold (D st c). rewrite Hd.
  rewrite int_add_ok by lia. cbn [bind].
  rewrite (rd_in _ q Hqb). cbn [bind]. fold (D st q).
  destruct (d + 1 <? D st q) eqn:Elt.
  2:{ apply Z.ltb_ge in Elt. exists st; split; [reflexivity|]; split; [|split; [exact Hv|split; [exact Hd|reflexivity]]].
      apply Hdone. intros _. split; [|lia].
      apply (inv_fin _ _ _ _ I). lia. }
  apply Z.ltb_lt in Elt.
  assert (Hqn : ~ In q (pushes st)).
  { intros Hq. destruct (inv_range _ _ _ _ I q Hq) as [_ H]. lia. }
  assert (Hne : forall p, In p (pushes st) -> p <> q) by (intros p Hp ->; auto).
  rewrite (wr_in _ q _ Hqb). cbn [bind].
  rewrite (wr_in _ q _ Hqb). cbn [bind].
  unfold push_node. cbn [nodes dist visited parent pushes pos].
  assert (Hnd' : NoDup (q :: pushes st))
    by (constructor; [exact Hqn|apply (inv_nodup _ _ _ _ I)]).
  assert (Hcap' : Z.of_nat (length (q :: pushes st)) <= NODES_CAP).
  { apply cells_bounded; [exact Hnd'|].
    intros p [<-|Hp]; [exact Hqb|apply (inv_inb _ _ _ _ I p Hp)]. }
  cbn [length] in Hcap'.
  pose proof (inv_len _ _ _ _ I) as Hlen.
  destruct (Z.of_nat (length (nodes st)) <? NODES_CAP) eqn:Ecap;
    [|apply Z.ltb_ge in Ecap; lia].
  eexists. split; [reflexivity|].
  set (st' := {| dist := upd (dist st) (py q) (px q) (d + 1);
                 visited := visited st;
                 parent := upd (parent st) (py q) (px q) c;
                 nodes := nodes st ++ [mkNode q (d + 1)];
                 pushes := q :: pushes st |}).
  assert (HDq : D st' q = d + 1) by apply at2_upd_same.
  assert (HDo : forall p, p <> q -> D st' p = D st p)
    by (intros p Hp; apply at2_upd_other; exact Hp).
  assert (HPq : Par st' q = c) by apply at2_upd_same.
  assert (HPo : forall p, p <> q -> Par st' p = Par st p)
    by (intros p Hp; apply at2_upd_other; exact Hp).
  assert (HV : forall p, V st' p = V st p) by reflexivity.
  assert (Hcq : c <> q) by (apply Hne; exact Hcp).
  split; [|split; [exact Hv|split; [rewrite HDo; auto|]]].
  2:{ unfold popped, st'. cbn [pushes nodes length].
      rewrite length_app. cbn [length]. lia. }
  assert (Hpu : pushes st' = q :: pushes st) by reflexivity.
  assert (Hno : nodes st' = nodes st ++ [mkNode q (d + 1)]) by reflexivity.
  clearbody st'.
  constructor; rewrite ?Hpu, ?Hno.
  - destruct (inv_start _ _ _ _ I) as [H1 H2]. split; [|right; exact H2].
    rewrite HDo; auto.
  - exact Hnd'.
  - intros p [<-|Hp]; [exact Hqb|apply (inv_inb _ _ _ _ I p Hp)].
  - intros p. destruct (Point_eq_dec p q) as [->|Hpq].
    + rewrite HDq. split; [lia|left; reflexivity].
    + rewrite HDo by exact Hpq. rewrite <- (inv_fin _ _ _ _ I p).
      split; [intros [?|?]; [congruence|auto]|right; auto].
  - intros p [<-|Hp].
    + rewrite HDq. cbn [length]. lia.
    + rewrite HDo by auto. destruct (inv_range _ _ _ _ I p Hp).
      cbn [length]. lia.
  - rewrite length_app. cbn [length]. lia.
  - intros n Hn. apply in_app_or in Hn. destruct Hn as [Hn|[<-|[]]].
    + destruct (inv_queue _ _ _ _ I n Hn) as (H1 & H2 & H3).
      split; [right; exact H1|]. rewrite HDo by auto. auto.
    + cbn [pos cost]. rewrite HDq. split; [left; reflexivity|lia].
  - intros p Hp Hvp. rewrite HV in Hvp. apply in_or_app. destruct Hp as [<-|Hp].
    + right. rewrite HDq. left. reflexivity.
    + left. rewrite HDo by auto. apply (inv_unvis _ _ _ _ I p Hp Hvp).
  - intros p Hp. rewrite HV in Hp. right. apply (inv_vis _ _ _ _ I p Hp).
  - rewrite HV. apply (inv_end _ _ _ _ I).
  - intros p o' Hvp Ho'. rewrite HV in Hvp.
    pose proof (inv_vis _ _ _ _ I p Hvp) as Hpp.
    rewrite (HDo p) by auto.
    destruct (inv_closed _ _ _ _ I p o' Hvp Ho') as [[-> [<-|Hin]]|Hc].
    * right. intros _. fold q. rewrite HDq. split; [left; reflexivity|lia].
    * left. split; auto.
    * right. intros Hl. destruct (Hc Hl) as [H1 H2].
      split; [right; exact H1|]. rewrite HDo by auto. exact H2.
  - intros p Hp Hps. destruct Hp as [<-|Hp].
    + rewrite HPq, HDq, (HDo c) by auto.
      split; [right; exact Hcp|]. split; [lia|].
      split; [exists o; auto|exact Hleg].
    + rewrite HPo, (HDo p) by auto.
      destruct (inv_parent _ _ _ _ I p Hp Hps) as (H1 & H2 & H3 & H4).
      rewrite HDo by auto. split; [right; exact H1|auto].
Qed.

Lemma explore_inv d c : forall R st,
  Inv w d (pend_at c R) st ->
  (forall o, In o R -> In o offsets) -> V st c = true -> D st c = d ->
  exists st',
    explore w (px c) (py c) st R = Done st' /\
    Inv w d no_pend st' /\ popped st' = popped st.
Proof.
  induction R as [|o R IH]; intros st I HR Hv Hd; cbn [explore].
  - exists st. split; [reflexivity|]. split; [|reflexivity].
    apply (Inv_pend _ _ _ _ I). intros p o _ _ [_ []].
  - destruct (explore_neighbor_inv d c o R st I (HR o (or_introl eq_refl)) Hv Hd)
      as (st1 & E1 & I1 & Hv1 & Hd1 & Hp1).
    rewrite E1. cbn [bind].
    destruct (IH st1 I1 (fun o' H => HR o' (or_intror H)) Hv1 Hd1)
      as (st2 & E2 & I2 & Hp2).
    exists st2. split; [exact E2|]. split; [exact I2|lia].
Qed.

End NeighbourLoop.

(* ------------------------------------------------------------------ *)
(** *** The main loop *)

Lemma last_cons {A} (l : list A) : forall a d, last (a :: l) d = last l a.
Proof.
  induction l as [|b l IH]; intros a d; [reflexivity|].
  change (last (a :: b :: l) d) with (last (b :: l) d).
  rewrite !IH. reflexivity.
Qed.

Lemma unit_step_offset p q :
  unit_step p q -> exists o, In o offsets /\ q = shift p o.
Proof.
  unfold unit_step, offsets, dx, dy, shift. destruct p as [a b], q as [c d].
  cbn [px py combine In fst snd].
  intros [[H1 H2]|[H1 H2]].
  - destruct (Z.abs_spec (c - a)) as [[_ E]|[_ E]].
    + exists (1, 0). split; [tauto|]. cbn [fst snd]. f_equal; lia.
    + exists (-1, 0). split; [tauto|]. cbn [fst snd]. f_equal; lia.
  - destruct (Z.abs_spec (d - b)) as [[_ E]|[_ E]].
    + exists (0, 1). split; [tauto|]. cbn [fst snd]. f_equal; lia.
    + exists (0, -1). split; [tauto|]. cbn [fst snd]. f_equal; lia.
Qed.

Section MainLoop.

Variable w : world.
Hypothesis Hend : inb (end_ w) = true.

Lemma Inv_Tree lo pend st : Inv w lo pend st -> Tree w st.
Proof.
  intros I. constructor; apply I.
Qed.

Lemma pop_stale lo st cur ns :
  Inv w lo no_pend st ->
  V st (pos cur) = true ->
  (length ns <= length (nodes st))%nat ->
  (forall n, In n ns -> In n (nodes st)) ->
  (forall n, In n (nodes st) -> n = cur \/ In n ns) ->
  Inv w lo no_pend (with_nodes st ns).
Proof.
  intros I Hv Hlen Hsub Hsup.
  destruct I as [? ? ? ? ? Hl Hq Hu ? ? ? ?].
  constructor; auto; unfold with_nodes; cbn [nodes pushes].
  - lia.
  - intros p Hp Hvp. destruct (Hsup _ (Hu p Hp Hvp)) as [E|Hin]; [|exact Hin].
    subst cur. cbn [pos] in Hv. unfold V in *. cbn [visited] in Hvp. congruence.
Qed.

Lemma pop_fresh lo st cur ns :
  Inv w lo no_pend st ->
  In cur (nodes st) ->
  (forall n, In n (nodes st) -> cost cur <= cost n) ->
  V st (pos cur) = false ->
  pos cur <> end_ w ->
  (length ns <= length (nodes st))%nat ->
  (forall n, In n ns -> In n (nodes st)) ->
  (forall n, In n (nodes st) -> n = cur \/ In n ns) ->
  let st2 := with_visited (with_nodes st ns)
               (upd (visited st) (py (pos cur)) (px (pos cur)) true) in
  Inv w (cost cur) (pend_at (pos cur) offsets) st2 /\
  V st2 (pos cur) = true /\ D st2 (pos cur) = cost cur.
Proof.
  intros I Hin Hmin Hv Hne Hlen Hsub Hsup st2.
  set (c := pos cur) in *.
  assert (HVc : V st2 c = true) by apply at2_upd_same.
  assert (HVo : forall p, p <> c -> V st2 p = V st p)
    by (intros p Hp; apply at2_upd_other; exact Hp).
  assert (HD : forall p, D st2 p = D st p) by reflexivity.
  assert (HP : forall p, Par st2 p = Par st p) by reflexivity.
  assert (Hpu : pushes st2 = pushes st) by reflexivity.
  assert (Hno : nodes st2 = ns) by reflexivity.
  destruct (inv_queue _ _ _ _ I cur Hin) as (Hcp & Hcd & Hclo). fold c in Hcp, Hcd.
  split; [|split; [exact HVc|rewrite HD; auto]].
  clearbody st2.
  constructor; rewrite ?Hpu, ?Hno.
  - rewrite HD. apply I.
  - apply I.
  - apply I.
  - intros p. rewrite HD. apply I.
  - intros p Hp. rewrite HD. destruct (inv_range _ _ _ _ I p Hp). lia.
  - pose proof (inv_len _ _ _ _ I). lia.
  - intros n Hn. rewrite HD.
    destruct (inv_queue _ _ _ _ I n (Hsub n Hn)) as (H1 & H2 & H3).
    specialize (Hmin n (Hsub n Hn)). auto.
  - intros p Hp Hvp. rewrite HD.
    assert (Hpc : p <> c) by (intros ->; congruence).
    rewrite HVo in Hvp by exact Hpc.
    destruct (Hsup _ (inv_unvis _ _ _ _ I p Hp Hvp)) as [E|Hn]; [|exact Hn].
    exfalso. apply Hpc. subst cur. reflexivity.
  - intros p Hvp. destruct (Point_eq_dec p c) as [->|Hpc]; [exact Hcp|].
    rewrite HVo in Hvp by exact Hpc. apply (inv_vis _ _ _ _ I p Hvp).
  - rewrite HVo by (intros E; apply Hne; auto). apply I.
  - intros p o Hvp Ho. rewrite !HD.
    destruct (Point_eq_dec p c) as [->|Hpc]; [left; split; auto|].
    rewrite HVo in Hvp by exact Hpc.
    destruct (inv_closed _ _ _ _ I p o Hvp Ho) as [[]|Hc]. right. exact Hc.
  - intros p Hp Hps. rewrite !HD, HP. apply (inv_parent _ _ _ _ I p Hp Hps).
Qed.

(** Optimality when the sink leaves the queue: along any walk, [dist]
    stays below the number of steps made until the walk leaves the visited
    cells, and the cell where it leaves them is still queued. *)
Lemma pop_sink_optimal lo st cur :
  Inv w lo no_pend st ->
  In cur (nodes st) ->
  (forall n, In n (nodes st) -> cost cur <= cost n) ->
  pos cur = end_ w ->
  forall l p, In p (pushes st) -> chain (p :: l) ->
    Forall (fun q => legal w q = true) l -> last l p = end_ w ->
    cost cur <= D st p + Z.of_nat (length l).
Proof.
  intros I Hin Hmin Hpos.
  destruct (inv_queue _ _ _ _ I cur Hin) as (Hcp & Hcd & _).
  rewrite Hpos in Hcp, Hcd.
  induction l as [|q l IH]; intros p Hp Hch Hleg Hlast.
  - cbn in Hlast. subst p. cbn [length]. lia.
  - destruct (Point_eq_dec p (end_ w)) as [->|Hpe]; [lia|].
    destruct (V st p) eqn:Hv.
    + destruct Hch as [Hst Hch]. inversion Hleg as [|? ? Hq Hleg']; subst.
      destruct (unit_step_offset _ _ Hst) as (o & Ho & ->).
      destruct (inv_closed _ _ _ _ I p o Hv Ho) as [[]|Hc].
      destruct (Hc Hq) as [Hqp Hqd].
      rewrite last_cons in Hlast.
      specialize (IH _ Hqp Hch Hleg' Hlast).
      cbn [length]. lia.
    + pose proof (inv_unvis _ _ _ _ I p Hp Hv) as Hn.
      specialize (Hmin _ Hn). cbn [cost] in Hmin. lia.
Qed.

(** Completeness when the queue runs empty: every cell of a walk has been
    visited, so the walk cannot end at the sink, which never was. *)
Lemma empty_no_walk lo st :
  Inv w lo no_pend st -> nodes st = [] ->
  forall l p, In p (pushes st) -> chain (p :: l) ->
    Forall (fun q => legal w q = true) l -> last l p = end_ w -> False.
Proof.
  intros I Hemp.
  assert (Hvis : forall p, In p (pushes st) -> V st p = true).
  { intros p Hp. destruct (V st p) eqn:Hv; [reflexivity|].
    pose proof (inv_unvis _ _ _ _ I p Hp Hv) as Hn.
    rewrite Hemp in Hn. destruct Hn. }
  induction l as [|q l IH]; intros p Hp Hch Hleg Hlast.
  - cbn in Hlast. subst p. specialize (Hvis _ Hp).
    rewrite (inv_end _ _ _ _ I) in Hvis. discriminate.
  - destruct Hch as [Hst Hch]. inversion Hleg as [|? ? Hq Hleg']; subst.
    destruct (unit_step_offset _ _ Hst) as (o & Ho & ->).
    destruct (inv_closed _ _ _ _ I p o (Hvis p Hp) Ho) as [[]|Hc].
    destruct (Hc Hq) as [Hqp _].
    rewrite last_cons in Hlast.
    exact (IH _ Hqp Hch Hleg' Hlast).
Qed.

Lemma walk_split l :
  walk w l -> exists t, l = start w :: t /\ chain (start w :: t) /\
    Forall (fun q => legal w q = true) t /\ last t (start w) = end_ w /\
    edges l = Z.of_nat (length t).
Proof.
  intros (Hhd & Hlast & Hch & Hleg).
  destruct l as [|a t]; [discriminate|].
  cbn in Hhd. inversion Hhd; subst a.
  exists t. split; [reflexivity|]. split; [exact Hch|]. split; [exact Hleg|].
  split; [rewrite <- last_cons with (d := start w); exact Hlast|].
  unfold edges. cbn [length]. lia.
Qed.

Lemma search_loop_S fuel st :
  search_loop (S fuel) w st =
  match nodes st with
  | [] => Done (st, None)
  | n0 :: _ =>
      let min_index := find_min_index (nodes st) in
      let current := nth min_index (nodes st) n0 in
      let st1 := with_nodes st (remove_at min_index (nodes st)) in
      v <- rd (visited st1) (py (pos current)) (px (pos current)) ;;
      if (v : bool) then search_loop fuel w st1
      else
        visited' <- wr (visited st1) (py (pos current)) (px (pos current)) true ;;
        let st2 := with_visited st1 visited' in
        if Point_eqb (pos current) (end_ w)
        then Done (st2, Some current)
        else
          st3 <- explore w (px (pos current)) (py (pos current)) st2 offsets ;;
          search_loop fuel w st3
  end.
Proof. reflexivity. Qed.

Lemma search_loop_inv : forall fuel st lo,
  Inv w lo no_pend st ->
  NODES_CAP - popped st < Z.of_nat fuel ->
  exists st' r, search_loop fuel w st = Done (st', r) /\ Post w st' r.
Proof.
  induction fuel as [|fuel IH]; intros st lo I Hfuel.
  { pose proof (inv_pushes_bounded _ _ _ _ I). unfold popped in Hfuel. lia. }
  rewrite search_loop_S.
  destruct (nodes st) as [|n0 t] eqn:En.
  { exists st, None. split; [reflexivity|]. split; [apply (Inv_Tree _ _ _ I)|].
    intros l Hw. destruct (walk_split _ Hw) as (t & -> & Hch & Hleg & Hlast & _).
    apply (empty_no_walk _ _ I En t (start w)); auto.
    apply (inv_start _ _ _ _ I). }
  rewrite <- En. cbv zeta.
  assert (Hne : nodes st <> []) by (rewrite En; discriminate).
  destruct (find_min_index_spec (nodes st) n0 Hne) as [Hidx Hmin].
  destruct (remove_at_spec (nodes st) _ n0 Hidx) as (Hrl & Hsub & Hsup).
  set (cur := nth (find_min_index (nodes st)) (nodes st) n0) in *.
  set (ns := remove_at (find_min_index (nodes st)) (nodes st)) in *.
  assert (Hcur : In cur (nodes st)) by (apply nth_In; exact Hidx).
  destruct (inv_queue _ _ _ _ I cur Hcur) as (Hcp & Hcd & Hclo).
  pose proof (inv_inb _ _ _ _ I _ Hcp) as Hcb.
  assert (Hpop : popped (with_nodes st ns) = popped st + 1).
  { unfold popped, with_nodes. cbn [pushes nodes]. rewrite Hrl.
    assert (length (nodes st) <> 0%nat) by (rewrite En; discriminate). lia. }
  cbn [with_nodes visited].
  rewrite (rd_in _ _ Hcb). cbn [bind]. fold (V st (pos cur)).
  destruct (V st (pos cur)) eqn:Hv.
  { apply (IH _ lo).
    - apply (pop_stale lo st cur ns I Hv); auto. lia.
    - fold (with_nodes st ns). lia. }
  rewrite (wr_in _ _ _ Hcb). cbn [bind].
  fold (with_nodes st ns).
  destruct (Point_eqb (pos cur) (end_ w)) eqn:Ee.
  - apply Point_eqb_eq in Ee.
    eexists _, (Some cur). split; [reflexivity|].
    split.
    + pose proof (Inv_Tree _ _ _ I) as T. destruct T. constructor; auto.
    + split; [exact Ee|]. split; [rewrite <- Ee; exact Hcd|].
      split; [rewrite <- Ee; exact Hcp|].
      intros l Hw. destruct (walk_split _ Hw) as (t' & -> & Hch & Hleg & Hlast & ->).
      pose proof (pop_sink_optimal lo st cur I Hcur Hmin Ee t' (start w)
                    (proj2 (inv_start _ _ _ _ I)) Hch Hleg Hlast) as H.
      rewrite (proj1 (inv_start _ _ _ _ I)) in H. lia.
  - apply Point_eqb_neq in Ee.
    destruct (pop_fresh lo st cur ns I Hcur Hmin Hv Ee ltac:(lia) Hsub Hsup)
      as (I2 & Hv2 & Hd2).
    destruct (explore_inv w Hend _ _ _ _ I2 (fun o H => H) Hv2 Hd2)
      as (st3 & E3 & I3 & Hp3).
    rewrite E3. cbn [bind].
    apply (IH _ _ I3). rewrite Hp3.
    unfold popped in *. cbn [with_visited with_nodes pushes nodes] in *. lia.
Qed.

End MainLoop.

(* ------------------------------------------------------------------ *)
(** *** Path reconstruction *)

Lemma chain_snoc l c p :
  chain (l ++ [c]) -> unit_step c p -> chain ((l ++ [c]) ++ [p]).
Proof.
  induction l as [|a l IH]; intros Hch Hst.
  - cbn. auto.
  - destruct l as [|b l].
    + cbn in *. tauto.
    + cbn [app chain] in *. destruct Hch as [H1 H2]. split; [exact H1|].
      apply IH; auto.
Qed.

Lemma walk_back_S room w par at_ acc :
  walk_back (S room) w par at_ acc =
  if negb (px at_ =? -1) && negb (py at_ =? -1) then
    if Point_eqb at_ (start w) then Done (acc ++ [at_])
    else nxt <- rd par (py at_) (px at_) ;;
         walk_back room w par nxt (acc ++ [at_])
  else Done acc.
Proof. reflexivity. Qed.

Section Reconstruction.

Variable w : world.
Variable st : locals.
Hypothesis T : Tree w st.

Lemma walk_back_tree : forall room p acc,
  In p (pushes st) -> D st p < Z.of_nat room ->
  exists pre,
    walk_back room w (parent st) p acc = Done (acc ++ rev (pre ++ [p])) /\
    Z.of_nat (length pre) = D st p /\
    Forall (fun q => D st q < D st p) pre /\
    chain (pre ++ [p]) /\
    hd_error (pre ++ [p]) = Some (start w) /\
    Forall (fun q => legal w q = true) (tl (pre ++ [p])).
Proof.
  induction room as [|room IH]; intros p acc Hp Hd.
  { destruct (tr_range _ _ T p Hp). lia. }
  rewrite walk_back_S.
  pose proof (tr_inb _ _ T p Hp) as Hb.
  assert (Hb' := Hb). unfold inb in Hb'. apply in_bounds_iff in Hb'.
  replace (negb (px p =? -1) && negb (py p =? -1)) with true.
  2:{ symmetry. apply andb_true_iff. split; apply negb_true_iff, Z.eqb_neq; lia. }
  destruct (Point_eqb p (start w)) eqn:Es.
  - apply Point_eqb_eq in Es. subst p. exists []. cbn [app rev length].
    destruct (tr_start _ _ T) as [H0 _]. rewrite H0.
    repeat split; auto.
  - apply Point_eqb_neq in Es.
    rewrite (rd_in _ _ Hb). cbn [bind]. fold (Par st p).
    destruct (tr_parent _ _ T p Hp Es) as (Hcp & Hcd & (o & Ho & Hsh) & Hleg).
    set (c := Par st p) in *.
    destruct (IH c (acc ++ [p]) Hcp ltac:(lia))
      as (pre & E & Hlen & Hlt & Hch & Hhd & Hl).
    exists (pre ++ [c]). split; [|split; [|split; [|split; [|split]]]].
    + rewrite E, (rev_unit (pre ++ [c]) p), <- app_assoc. reflexivity.
    + rewrite length_app. cbn [length]. lia.
    + apply Forall_app. split.
      * eapply Forall_impl; [|exact Hlt]. cbn. intros q Hq. lia.
      * constructor; [lia|constructor].
    + apply chain_snoc; [exact Hch|]. rewrite Hsh. apply unit_step_shift. exact Ho.
    + destruct pre; cbn in *; exact Hhd.
    + replace (tl ((pre ++ [c]) ++ [p])) with (tl (pre ++ [c]) ++ [p])
        by (destruct pre; reflexivity).
      apply Forall_app. split; [exact Hl|]. constructor; [exact Hleg|constructor].
Qed.

End Reconstruction.

(* ------------------------------------------------------------------ *)
(** *** More fuel does not change the result *)

Lemma search_loop_mono w : forall fuel fuel' st r,
  search_loop fuel w st = Done r -> (fuel <= fuel')%nat ->
  search_loop fuel' w st = Done r.
Proof.
  induction fuel as [|fuel IH]; intros fuel' st r H Hle; [discriminate|].
  destruct fuel' as [|fuel']; [lia|].
  rewrite search_loop_S in *.
  destruct (nodes st) as [|n0 t]; [exact H|].
  cbv zeta in *.
  destruct (rd _ _ _) as [v| |]; cbn [bind] in *; try discriminate.
  destruct v; [apply (IH _ _ _ H); lia|].
  destruct (wr _ _ _ _) as [v'| |]; cbn [bind] in *; try discriminate.
  destruct (Point_eqb _ _); [exact H|].
  destruct (explore _ _ _ _ _) as [st3| |]; cbn [bind] in *; try discriminate.
  apply (IH _ _ _ H). lia.
Qed.

(* ================================================================== *)
(** ** The search as a whole *)

Lemma entry_check_closed w :
  inb (end_ w) = true -> entry_check w = Done (entry_open w).
Proof.
  intros He. unfold entry_check, entry_open. fold (valid w (start w)) (valid w (end_ w)).
  destruct (valid w (start w)); [reflexivity|].
  destruct (valid w (end_ w)) eqn:Ev.
  - unfold valid, is_valid_position in Ev.
    apply andb_true_iff in Ev. destruct Ev as [_ Ev].
    unfold at2. rewrite Ev. reflexivity.
  - rewrite (rd_in _ _ He). reflexivity.
Qed.

Lemma search_fuel_enough : NODES_CAP < Z.of_nat search_fuel.
Proof. vm_compute. reflexivity. Qed.

(** The loop and the locals it ends with. *)
Lemma dijkstra_search_total w fuel :
  inb (start w) = true -> inb (end_ w) = true ->
  NODES_CAP < Z.of_nat fuel ->
  exists st r, dijkstra_search fuel w = Done (st, r) /\ Post w st r.
Proof.
  intros Hs He Hf. unfold dijkstra_search.
  destruct (init_locals_inv w Hs) as (st0 & E0 & I0 & P0).
  rewrite E0. cbn [bind].
  apply (search_loop_inv w He fuel st0 0 I0). lia.
Qed.

Lemma reconstruct_found w st cur :
  Post w st (Some cur) ->
  exists p, reconstruct w st (Some cur) = Done p /\ found_ok w p.
Proof.
  intros (T & Hpos & Hcost & Hep & Hopt).
  unfold reconstruct.
  pose proof (tr_range _ _ T _ Hep) as Hr.
  assert (Hcap : Z.of_nat (length (pushes st)) <= NODES_CAP)
    by (apply cells_bounded; apply T).
  assert (Hroom : D st (end_ w) < Z.of_nat (Z.to_nat (GRID_WIDTH * GRID_HEIGHT))).
  { fold NODES_CAP. pose proof cap_small. rewrite Z2Nat.id by lia. lia. }
  destruct (walk_back_tree w st T _ (end_ w) [] Hep Hroom)
    as (pre & E & Hlen & Hlt & Hch & Hhd & Hleg).
  rewrite E. cbn [bind app].
  eexists. split; [reflexivity|].
  assert (Hl : Z.of_nat (length (rev (pre ++ [end_ w]))) = D st (end_ w) + 1).
  { rewrite length_rev, length_app. cbn [length]. lia. }
  constructor; cbn [p_points p_length p_cost]; rewrite ?rev_involutive.
  - split; [exact Hhd|]. split; [apply last_last|]. split; assumption.
  - rewrite !length_rev. reflexivity.
  - lia.
  - lia.
  - fold NODES_CAP. lia.
  - exact Hopt.
  - rewrite removelast_last. intros Hin.
    rewrite Forall_forall in Hlt. specialize (Hlt _ Hin). lia.
Qed.

(** The search never faults or times out on in-bounds endpoints, and its
    result is one of three kinds. *)
Theorem search_correct w :
  inb (start w) = true -> inb (end_ w) = true ->
  exists p, dijkstra_find_path w = Done p /\
    ((entry_open w = false /\ p = no_path) \/
     (entry_open w = true /\ p = no_path /\ forall l, ~ walk w l) \/
     (entry_open w = true /\ found_ok w p)).
Proof.
  intros Hs He. unfold dijkstra_find_path, dijkstra_find_path_fuel.
  rewrite (entry_check_closed w He). cbn [bind].
  destruct (entry_open w) eqn:G.
  2:{ exists no_path. split; [reflexivity|]. left. auto. }
  destruct (dijkstra_search_total w search_fuel Hs He search_fuel_enough)
    as (st & r & E & HP).
  rewrite E. cbn [bind fst snd].
  destruct r as [cur|].
  - destruct (reconstruct_found w st cur HP) as (p & Ep & Hok).
    exists p. split; [exact Ep|]. right. right. auto.
  - exists no_path. split; [reflexivity|]. right. left.
    destruct HP as [_ Hno]. auto.
Qed.

(** Any larger amount of fuel gives the same result. *)
Lemma dijkstra_find_path_fuel_enough w fuel :
  inb (start w) = true -> inb (end_ w) = true ->
  (search_fuel <= fuel)%nat ->
  dijkstra_find_path_fuel fuel w = dijkstra_find_path w.
Proof.
  intros Hs He Hf. unfold dijkstra_find_path, dijkstra_find_path_fuel.
  destruct (entry_check w) as [[|]| |]; cbn [bind]; try reflexivity.
  destruct (dijkstra_search_total w search_fuel Hs He search_fuel_enough)
    as (st & r & E & _).
  unfold dijkstra_search in *.
  destruct (init_locals w) as [st0| |]; cbn [bind] in *; try discriminate.
  rewrite E, (search_loop_mono w _ _ _ _ E Hf). reflexivity.
Qed.

(** A write to [nodes] that does not fault was within the array. *)
Lemma push_node_in_bounds st n st' :
  push_node st n = Done st' ->
  Z.of_nat (length (nodes st)) < GRID_WIDTH * GRID_HEIGHT /\
  pushes st' = pos n :: pushes st.
Proof.
  unfold push_node. fold NODES_CAP.
  destruct (Z.of_nat (length (nodes st)) <? NODES_CAP) eqn:E; [|discriminate].
  intros H. inversion H. apply Z.ltb_lt in E. auto.
Qed.

Lemma blocked_not_valid w p : blocked w p = true -> valid w p = false.
Proof.
  unfold blocked, valid, is_valid_position, at2. intros H.
  apply orb_true_iff in H. destruct H as [H|H].
  - rewrite H. cbn. rewrite andb_false_r. reflexivity.
  - apply negb_true_iff in H. rewrite H. apply andb_false_r.
Qed.

(* ================================================================== *)
(** ** Claims about one search *)

Lemma walled_source_run :
  dijkstra_find_path walled_source
  = Done (mkPath [mkPoint 0 0; mkPoint 1 0] 2 1).
Proof. vm_compute. reflexivity. Qed.

(** C1, as stated, fails: with a Wall as source and a rank-labelled sink
    next to it the search returns a path of cost 1 although no legal path
    exists. *)
Lemma C1_counterexample : ~ returns_minimal_or_none walled_source.
Proof.
  intros (p & E & H). rewrite walled_source_run in E. inversion E; subst p.
  destruct H as [[[Hv _] _]|[Hc _]].
  - vm_compute in Hv. discriminate.
  - cbn in Hc. discriminate.
Qed.

(** Were the source exempt from legality like the sink, the statement
    would fail elsewhere: from a Wall source next to an unlabelled sink
    the search returns cost -1 although the two cells form a walk. *)
Example walled_source_free_sink_run :
  dijkstra_find_path walled_source_free_sink = Done no_path /\
  walk walled_source_free_sink [mkPoint 0 0; mkPoint 1 0].
Proof.
  split; [vm_compute; reflexivity|].
  repeat split; cbn; auto. left. split; reflexivity.
Qed.

(** C1 (amended): for in-bounds source and sink such that the source is a
    valid position or the sink carries no rank label, one search returns a
    path of minimal cost among the 4-connected source-to-sink paths
    through legal cells, or cost -1 and length 0 when there is none. *)
Theorem C1_search_minimal (w : world) :
  inb (start w) = true -> inb (end_ w) = true ->
  valid w (start w) = true \/ at2 (grid_path_type w) (end_ w) = CELL_EMPTY ->
  returns_minimal_or_none w.
Proof.
  intros Hs He Hg.
  destruct (search_correct w Hs He) as (p & E & H).
  exists p. split; [exact E|].
  assert (Hgv : entry_open w = valid w (start w)).
  { unfold entry_open. destruct Hg as [-> | ->]; [reflexivity|]. cbn. apply orb_false_r. }
  destruct H as [[G ->]|[[G [-> Hno]]|[G Hok]]].
  - right. cbn. repeat split. intros l [Hv _]. congruence.
  - right. cbn. repeat split. intros l [_ Hw]. exact (Hno l Hw).
  - left. destruct Hok. split; [|split].
    + split; [congruence|assumption].
    + unfold edges. lia.
    + intros l [_ Hw]. auto.
Qed.

Lemma C1_search_minimal_witness : returns_minimal_or_none open_field.
Proof.
  apply (C1_search_minimal open_field);
    [reflexivity | reflexivity | left; reflexivity].
Defined.

(** C4: every path the search returns with a cost other than -1 starts at
    Start, ends at End, moves by one unit in one axis between consecutive
    points, and has cost = length - 1. *)
Theorem C4_path_is_chain (w : world) :
  inb (start w) = true -> inb (end_ w) = true ->
  exists p, dijkstra_find_path w = Done p /\
    (p_cost p <> -1 ->
     hd_error (p_points p) = Some (start w) /\
     last (p_points p) (start w) = end_ w /\
     chain (p_points p) /\
     p_length p = Z.of_nat (length (p_points p)) /\
     p_cost p = p_length p - 1).
Proof.
  intros Hs He.
  destruct (search_correct w Hs He) as (p & E & H).
  exists p. split; [exact E|]. intros Hc.
  destruct H as [[_ ->]|[[_ [-> _]]|[_ Hok]]];
    [cbn in Hc; congruence | cbn in Hc; congruence |].
  destruct Hok as [(H1 & H2 & H3 & _) H4 H5 _ _ _ _]. auto.
Qed.

Lemma C4_path_is_chain_witness :
  exists p, dijkstra_find_path open_field = Done p /\
    (p_cost p <> -1 ->
     hd_error (p_points p) = Some (start open_field) /\
     last (p_points p) (start open_field) = end_ open_field /\
     chain (p_points p) /\
     p_length p = Z.of_nat (length (p_points p)) /\
     p_cost p = p_length p - 1).
Proof.
  apply (C4_path_is_chain open_field); reflexivity.
Defined.

(** C5, as stated, fails: when the sink carries a rank label the entry
    test lets a blocked source through. *)
Lemma C5_counterexample : ~ blocked_source_fails walled_source.
Proof.
  intros H. specialize (H eq_refl).
  rewrite walled_source_run in H. discriminate.
Qed.

(** C5 (amended): when the source is a Wall or carries a rank label and
    the sink carries no rank label, the search returns at its entry test
    with cost -1 and length 0. *)
Theorem C5_blocked_source (w : world) :
  inb (end_ w) = true ->
  blocked w (start w) = true ->
  at2 (grid_path_type w) (end_ w) = CELL_EMPTY ->
  entry_check w = Done false /\ dijkstra_find_path w = Done no_path.
Proof.
  intros He Hb Hr.
  assert (G : entry_open w = false).
  { unfold entry_open. rewrite (blocked_not_valid _ _ Hb), Hr. reflexivity. }
  unfold dijkstra_find_path, dijkstra_find_path_fuel.
  rewrite (entry_check_closed w He), G. auto.
Qed.

Lemma C5_blocked_source_witness :
  entry_check walled_source_free_sink = Done false /\
  dijkstra_find_path walled_source_free_sink = Done no_path.
Proof.
  apply (C5_blocked_source walled_source_free_sink); reflexivity.
Defined.

(** C6: when the sink is a Wall or carries a rank label, it still is a
    legal expansion target, the search still succeeds whenever a legal
    path to it exists, and the sink is the last point of the returned
    path and no other point of it. *)
Theorem C6_sink_exception (w : world) :
  inb (start w) = true -> inb (end_ w) = true ->
  blocked w (end_ w) = true ->
  legal w (end_ w) = true /\
  ((exists l, legal_path w l) ->
   exists p, dijkstra_find_path w = Done p /\ p_cost p <> -1 /\
     last (p_points p) (start w) = end_ w /\
     ~ In (end_ w) (removelast (p_points p))).
Proof.
  intros Hs He Hb. split.
  { unfold legal. rewrite He, Point_eqb_refl. reflexivity. }
  intros (l & Hv & Hw).
  destruct (search_correct w Hs He) as (p & E & H).
  exists p. split; [exact E|].
  destruct H as [[G _]|[(_ & _ & Hno)|(_ & Hok)]].
  - unfold entry_open in G. rewrite Hv in G. discriminate.
  - destruct (Hno l Hw).
  - destruct Hok as [(_ & H2 & _) _ _ H3 _ _ H4].
    split; [lia|]. auto.
Qed.

Lemma C6_sink_exception_witness :
  legal walled_sink (end_ walled_sink) = true /\
  ((exists l, legal_path walled_sink l) ->
   exists p, dijkstra_find_path walled_sink = Done p /\ p_cost p <> -1 /\
     last (p_points p) (start walled_sink) = end_ walled_sink /\
     ~ In (end_ walled_sink) (removelast (p_points p))).
Proof.
  apply (C6_sink_exception walled_sink); reflexivity.
Defined.

Example walled_sink_run :
  dijkstra_find_path walled_sink
  = Done (mkPath [mkPoint 0 0; mkPoint 1 0; mkPoint 2 0] 3 2).
Proof. vm_compute. reflexivity. Qed.

(** C9: in one search every cell is written to [nodes] at most once, so
    no more than GRID_WIDTH * GRID_HEIGHT nodes are ever queued and no
    write to [nodes] is out of bounds (the run does not fault). *)
Theorem C9_nodes_fit (w : world) :
  inb (start w) = true -> inb (end_ w) = true ->
  exists st r, dijkstra_search search_fuel w = Done (st, r) /\
    NoDup (pushes st) /\
    Z.of_nat (length (pushes st)) <= GRID_WIDTH * GRID_HEIGHT /\
    (forall p, In p (pushes st) -> inb p = true).
Proof.
  intros Hs He.
  destruct (dijkstra_search_total w search_fuel Hs He search_fuel_enough)
    as (st & r & E & T & _).
  exists st, r. split; [exact E|].
  split; [apply T|]. split; [|apply T].
  apply cells_bounded; apply T.
Qed.

Lemma C9_nodes_fit_witness :
  exists st r, dijkstra_search search_fuel open_field = Done (st, r) /\
    NoDup (pushes st) /\
    Z.of_nat (length (pushes st)) <= GRID_WIDTH * GRID_HEIGHT /\
    (forall p, In p (pushes st) -> inb p = true).
Proof.
  apply (C9_nodes_fit open_field); reflexivity.
Defined.

(* ================================================================== *)
(** ** The K-iteration loop *)

Lemma same_frame_refl w : same_frame w w.
Proof. constructor; reflexivity. Qed.

Lemma same_frame_trans w1 w2 w3 :
  same_frame w1 w2 -> same_frame w2 w3 -> same_frame w1 w3.
Proof.
  intros [] []. constructor; congruence.
Qed.

Lemma mark_points_spec ty : forall pts w,
  (forall p, In p pts -> inb p = true) ->
  exists w', mark_points w ty pts = Done w' /\ marked w ty pts w'.
Proof.
  induction pts as [|p pts IH]; intros w Hin; cbn [mark_points].
  - exists w. split; [reflexivity|]. constructor.
    + apply same_frame_refl.
    + intros q [].
    + intros q. left. reflexivity.
  - assert (Hin' : forall q, In q pts -> inb q = true)
      by (intros q Hq; apply Hin; right; exact Hq).
    destruct (Point_eqb p (start w) || Point_eqb p (end_ w)) eqn:Ese.
    + destruct (IH w Hin') as (w' & E & [F S K]).
      exists w'. split; [exact E|]. constructor; [exact F| |].
      * intros q [<-|Hq] Hs He; [|auto].
        apply orb_true_iff in Ese.
        destruct Ese as [H|H]; apply Point_eqb_eq in H; congruence.
      * intros q. destruct (K q) as [H|(H1 & H2 & H3)]; [left; exact H|].
        right. split; [exact H1|]. split; [right; exact H2|exact H3].
    + apply orb_false_iff in Ese. destruct Ese as [Hs He].
      apply Point_eqb_neq in Hs, He.
      rewrite (wr_in _ p _ (Hin p (or_introl eq_refl))). cbn [bind].
      set (w1 := set_path_type w _).
      destruct (IH w1 Hin') as (w' & E & [F S K]).
      exists w'. split; [exact E|].
      assert (G1 : forall q, at2 (grid_path_type w1) q =
                             if Point_eqb q p then ty
                             else at2 (grid_path_type w) q).
      { intros q. unfold w1. cbn [grid_path_type set_path_type].
        destruct (Point_eqb q p) eqn:Eq.
        - apply Point_eqb_eq in Eq. subst. apply at2_upd_same.
        - apply Point_eqb_neq in Eq. apply at2_upd_other. exact Eq. }
      constructor.
      * destruct F. constructor; assumption.
      * intros q Hq Hqs Hqe. destruct Hq as [<-|Hq]; [|apply S; auto].
        destruct (K p) as [H|[H _]]; [|exact H].
        rewrite H, G1, Point_eqb_refl. reflexivity.
      * intros q. destruct (K q) as [H|(H1 & H2 & H3)].
        -- rewrite H, G1. destruct (Point_eqb q p) eqn:Eq.
           ++ apply Point_eqb_eq in Eq. subst q. right.
              split; [reflexivity|]. split; [left; reflexivity|auto].
           ++ left. reflexivity.
        -- right. split; [exact H1|]. split; [right; exact H2|exact H3].
Qed.

Lemma found_ok_inb w p :
  inb (start w) = true -> found_ok w p ->
  forall q, In q (p_points p) -> inb q = true.
Proof.
  intros Hs [(Hhd & _ & _ & Hleg) _ _ _ _ _ _] q Hq.
  destruct (p_points p) as [|a t]; [destruct Hq|].
  cbn in Hhd. inversion Hhd; subst a. destruct Hq as [<-|Hq]; [exact Hs|].
  cbn [tl] in Hleg. rewrite Forall_forall in Hleg.
  apply (legal_inb w). auto.
Qed.

Lemma k_loop_good : forall todo i w,
  inb (start w) = true -> inb (end_ w) = true ->
  0 <= i -> i + Z.of_nat todo <= K_PATHS ->
  exists w' tr, k_loop todo i w = Done (w', tr) /\
    good_run i w tr w' /\ (length tr <= todo)%nat.
Proof.
  induction todo as [|todo IH]; intros i w Hs He Hi Hk; cbn [k_loop].
  { exists w, []. split; [reflexivity|]. split; [constructor|cbn; lia]. }
  destruct (search_correct w Hs He) as (p & E & H).
  rewrite E. cbn [bind].
  assert (Hfail : p = no_path ->
            exists w' tr,
              (if p_cost p =? -1 then Done (w, [mkCall (i + 1) w p])
               else w' <- mark_points w (path_type_of i)
                            (firstn (Z.to_nat (p_length p)) (p_points p)) ;;
                    r <- k_loop todo (i + 1) w' ;;
                    Done (fst r, mkCall (i + 1) w p :: snd r))
              = Done (w', tr) /\ good_run i w tr w' /\ (length tr <= S todo)%nat).
  { intros ->. exists w, [mkCall (i + 1) w no_path].
    split; [reflexivity|]. split; [constructor; exact E|cbn; lia]. }
  destruct H as [[_ Hp]|[[_ [Hp _]]|[G Hok]]]; [auto|auto|].
  clear Hfail.
  pose proof (fo_nonneg _ _ Hok) as Hnn.
  destruct (p_cost p =? -1) eqn:Ec; [apply Z.eqb_eq in Ec; lia|].
  rewrite (fo_length _ _ Hok), Nat2Z.id, firstn_all.
  destruct (mark_points_spec (path_type_of i) (p_points p) w
              (found_ok_inb w p Hs Hok)) as (w1 & Em & Hm).
  rewrite Em. cbn [bind].
  pose proof (mk_frame _ _ _ _ Hm) as F.
  destruct (IH (i + 1) w1) as (w' & tr & Ek & Hg & Hl).
  - rewrite (sf_start _ _ F). exact Hs.
  - rewrite (sf_end _ _ F). exact He.
  - lia.
  - lia.
  - rewrite Ek. cbn [bind fst snd].
    exists w', (mkCall (i + 1) w p :: tr).
    split; [reflexivity|]. split; [|cbn; lia].
    econstructor; eauto. lia.
Qed.

(* ------------------------------------------------------------------ *)
(** *** What a run of the loop keeps *)

Lemma path_type_of_not_empty i :
  0 <= i < K_PATHS -> path_type_of i <> CELL_EMPTY.
Proof.
  unfold K_PATHS, path_type_of. intros Hi.
  destruct (i =? 0) eqn:E0; [discriminate|].
  destruct (i =? 1) eqn:E1; [discriminate|].
  destruct (i =? 2) eqn:E2; [discriminate|].
  destruct (i =? 3) eqn:E3; [discriminate|].
  destruct (i =? 4) eqn:E4; [discriminate|].
  apply Z.eqb_neq in E0, E1, E2, E3, E4. lia.
Qed.

Section Marking.

Variables (w w1 : world) (ty : CellType) (pts : list Point).
Hypothesis Hm : marked w ty pts w1.
Hypothesis Hty : ty <> CELL_EMPTY.

(** Marking never frees a cell. *)
Lemma marked_empty q :
  at2 (grid_path_type w1) q = CELL_EMPTY ->
  at2 (grid_path_type w) q = CELL_EMPTY /\
  ~ (In q pts /\ q <> start w /\ q <> end_ w).
Proof.
  intros H. destruct (mk_kept _ _ _ _ Hm q) as [E|[E _]]; [|congruence].
  split; [congruence|]. intros (H1 & H2 & H3).
  rewrite (mk_set _ _ _ _ Hm q H1 H2 H3) in H. congruence.
Qed.

Lemma marked_valid q : valid w1 q = true -> valid w q = true.
Proof.
  unfold valid, is_valid_position.
  rewrite (sf_grid _ _ (mk_frame _ _ _ _ Hm)).
  intros H. apply andb_true_iff in H. destruct H as [H1 H2].
  apply CellType_eqb_eq in H2.
  destruct (marked_empty q H2) as [H3 _]. unfold at2 in H3.
  rewrite H1, H3. reflexivity.
Qed.

Lemma marked_legal q : legal w1 q = true -> legal w q = true.
Proof.
  unfold legal. rewrite (sf_end _ _ (mk_frame _ _ _ _ Hm)).
  intros H. apply andb_true_iff in H. destruct H as [H1 H2].
  rewrite H1. cbn. apply orb_true_iff in H2. apply orb_true_iff.
  destruct H2 as [H2|H2]; [left; exact H2|right; apply marked_valid; exact H2].
Qed.

Lemma marked_walk l : walk w1 l -> walk w l.
Proof.
  unfold walk. destruct (mk_frame _ _ _ _ Hm) as [_ -> -> _ _ _].
  intros (H1 & H2 & H3 & H4). repeat split; auto.
  eapply Forall_impl; [|exact H4]. apply marked_legal.
Qed.

(** The source keeps its label, whatever it is. *)
Lemma marked_start :
  at2 (grid_path_type w1) (start w) = at2 (grid_path_type w) (start w).
Proof.
  destruct (mk_kept _ _ _ _ Hm (start w)) as [E|(_ & _ & H & _)];
    [exact E|congruence].
Qed.

Lemma marked_end :
  at2 (grid_path_type w1) (end_ w) = at2 (grid_path_type w) (end_ w).
Proof.
  destruct (mk_kept _ _ _ _ Hm (end_ w)) as [E|(_ & _ & _ & H)];
    [exact E|congruence].
Qed.

End Marking.

Lemma interior_frame w w1 p : same_frame w w1 -> interior w1 p = interior w p.
Proof. intros [_ Hs He _ _ _]. unfold interior. rewrite Hs, He. reflexivity. Qed.

Lemma interior_spec w p q :
  In q (interior w p) <->
  In q (p_points p) /\ q <> start w /\ q <> end_ w.
Proof.
  unfold interior. rewrite filter_In, negb_true_iff, orb_false_iff.
  rewrite !Point_eqb_neq. tauto.
Qed.

(** The interior points of a found path carried no label before. *)
Lemma found_interior_fresh w p q :
  found_ok w p -> In q (interior w p) ->
  at2 (grid_path_type w) q = CELL_EMPTY.
Proof.
  intros [(Hhd & _ & _ & Hleg) _ _ _ _ _ _] Hq.
  apply interior_spec in Hq. destruct Hq as (Hq & Hs & He).
  destruct (p_points p) as [|a t]; [destruct Hq|].
  cbn in Hhd. inversion Hhd; subst a.
  destruct Hq as [Hq|Hq]; [congruence|].
  cbn [tl] in Hleg. rewrite Forall_forall in Hleg. specialize (Hleg q Hq).
  unfold legal in Hleg. apply andb_true_iff in Hleg. destruct Hleg as [_ Hl].
  apply orb_true_iff in Hl. destruct Hl as [Hl|Hl].
  - apply Point_eqb_eq in Hl. congruence.
  - unfold valid, is_valid_position in Hl.
    apply andb_true_iff in Hl. destruct Hl as [_ Hl].
    apply CellType_eqb_eq in Hl. exact Hl.
Qed.

Lemma found_paths_cons c tr :
  found_paths (c :: tr) =
  if p_cost (call_result c) =? -1 then found_paths tr
  else (call_rank c, call_result c) :: found_paths tr.
Proof.
  unfold found_paths. cbn [filter].
  destruct (p_cost (call_result c) =? -1); reflexivity.
Qed.

Lemma found_paths_step i w p tr :
  found_ok w p ->
  found_paths (mkCall (i + 1) w p :: tr) = (i + 1, p) :: found_paths tr.
Proof.
  intros Hok. rewrite found_paths_cons. cbn [call_result call_rank].
  pose proof (fo_nonneg _ _ Hok).
  destruct (p_cost p =? -1) eqn:E; [apply Z.eqb_eq in E; lia|reflexivity].
Qed.

Lemma good_run_frame i w tr w' :
  good_run i w tr w' ->
  same_frame w w' /\
  forall c, In c tr ->
    same_frame w (call_state c) /\
    dijkstra_find_path (call_state c) = Done (call_result c).
Proof.
  induction 1 as [i w|i w E|i w p w1 tr w' Hi E G Hok Hm Hrun [IH1 IH2]].
  - split; [apply same_frame_refl|]. intros c [].
  - split; [apply same_frame_refl|]. intros c [<-|[]]. cbn.
    split; [apply same_frame_refl|exact E].
  - pose proof (mk_frame _ _ _ _ Hm) as F.
    split; [exact (same_frame_trans _ _ _ F IH1)|].
    intros c [<-|Hc].
    + cbn. split; [apply same_frame_refl|exact E].
    + destruct (IH2 c Hc) as [F2 E2].
      split; [exact (same_frame_trans _ _ _ F F2)|exact E2].
Qed.

(** Every path the loop reports is, in the state the loop started from, a
    walk whose interior carried no label, and its rank is beyond [i]. *)
Lemma good_run_found i w tr w' :
  good_run i w tr w' ->
  forall r p, In (r, p) (found_paths tr) ->
    i < r /\ walk w (p_points p) /\ p_cost p = edges (p_points p) /\
    forall q, In q (interior w p) -> at2 (grid_path_type w) q = CELL_EMPTY.
Proof.
  induction 1 as [i w|i w E|i w p w1 tr w' Hi E G Hok Hm Hrun IH];
    intros r p' Hin.
  - destruct Hin.
  - destruct Hin.
  - rewrite (found_paths_step _ _ _ _ Hok) in Hin.
    destruct Hin as [Heq|Hin].
    + inversion Heq; subst r p'. split; [lia|].
      split; [apply Hok|]. split.
      * unfold edges. rewrite (fo_cost _ _ Hok), (fo_length _ _ Hok). reflexivity.
      * intros q. apply found_interior_fresh. exact Hok.
    + destruct (IH r p' Hin) as (H1 & H2 & H3 & H4).
      pose proof (path_type_of_not_empty i Hi) as Hty.
      split; [lia|]. split; [exact (marked_walk _ _ _ _ Hm Hty _ H2)|].
      split; [exact H3|].
      intros q Hq.
      rewrite <- (interior_frame w w1 p' (mk_frame _ _ _ _ Hm)) in Hq.
      apply (marked_empty _ _ _ _ Hm Hty q (H4 q Hq)).
Qed.

(* ================================================================== *)
(** ** Claims about the loop *)

(** C2: two paths reported by the loop under different ranks share no
    point other than Start and End. *)
Theorem C2_interiors_disjoint (w : world) :
  inb (start w) = true -> inb (end_ w) = true ->
  exists w' tr, k_loop (Z.to_nat K_PATHS) 0 w = Done (w', tr) /\
    forall r1 p1 r2 p2 q,
      In (r1, p1) (found_paths tr) -> In (r2, p2) (found_paths tr) ->
      r1 <> r2 ->
      In q (interior w p1) -> In q (interior w p2) -> False.
Proof.
  intros Hs He.
  destruct (k_loop_good (Z.to_nat K_PATHS) 0 w Hs He) as (w' & tr & E & Hg & _);
    [lia|vm_compute; discriminate|].
  exists w', tr. split; [exact E|]. clear E Hs He.
  induction Hg as [i w|i w E|i w p w1 tr w' Hi E G Hok Hm Hrun IH].
  - intros r1 p1 r2 p2 q [].
  - intros r1 p1 r2 p2 q [].
  - pose proof (path_type_of_not_empty i Hi) as Hty.
    pose proof (mk_frame _ _ _ _ Hm) as F.
    (* a point of the path just marked is in no later path *)
    assert (Hcross : forall r p' q, In (r, p') (found_paths tr) ->
              In q (interior w p) -> In q (interior w p') -> False).
    { intros r p' q Hin Hq Hq'.
      destruct (good_run_found _ _ _ _ Hrun r p' Hin) as (_ & _ & _ & Hfresh).
      rewrite <- (interior_frame w w1 p' F) in Hq'.
      specialize (Hfresh q Hq').
      apply interior_spec in Hq.
      destruct (marked_empty _ _ _ _ Hm Hty q Hfresh) as [_ Hn]. auto. }
    intros r1 p1 r2 p2 q H1 H2 Hne Hq1 Hq2.
    rewrite (found_paths_step _ _ _ _ Hok) in H1, H2.
    destruct H1 as [H1|H1], H2 as [H2|H2].
    + inversion H1; inversion H2; subst. congruence.
    + inversion H1; subst. eapply Hcross; eauto.
    + inversion H2; subst. eapply Hcross; eauto.
    + rewrite <- (interior_frame w w1 p1 F) in Hq1.
      rewrite <- (interior_frame w w1 p2 F) in Hq2.
      eapply IH; eauto.
Qed.

Lemma C2_interiors_disjoint_witness :
  exists w' tr, k_loop (Z.to_nat K_PATHS) 0 open_field = Done (w', tr) /\
    forall r1 p1 r2 p2 q,
      In (r1, p1) (found_paths tr) -> In (r2, p2) (found_paths tr) ->
      r1 <> r2 ->
      In q (interior open_field p1) -> In q (interior open_field p2) -> False.
Proof.
  apply (C2_interiors_disjoint open_field); reflexivity.
Defined.

(** C3: the costs of the paths the loop reports, in rank order, never
    decrease. *)
Theorem C3_costs_nondecreasing (w : world) :
  inb (start w) = true -> inb (end_ w) = true ->
  exists w' tr, k_loop (Z.to_nat K_PATHS) 0 w = Done (w', tr) /\
    StronglySorted Z.le (map (fun rp => p_cost (snd rp)) (found_paths tr)).
Proof.
  intros Hs He.
  destruct (k_loop_good (Z.to_nat K_PATHS) 0 w Hs He) as (w' & tr & E & Hg & _);
    [lia|vm_compute; discriminate|].
  exists w', tr. split; [exact E|]. clear E Hs He.
  induction Hg as [i w|i w E|i w p w1 tr w' Hi E G Hok Hm Hrun IH].
  - constructor.
  - constructor.
  - rewrite (found_paths_step _ _ _ _ Hok). cbn [map snd].
    constructor; [exact IH|].
    apply Forall_forall. intros c Hc.
    apply in_map_iff in Hc. destruct Hc as ([r p'] & <- & Hin). cbn [snd].
    destruct (good_run_found _ _ _ _ Hrun r p' Hin) as (_ & Hw & Hc & _).
    rewrite Hc. apply (fo_optimal _ _ Hok).
    exact (marked_walk _ _ _ _ Hm (path_type_of_not_empty i Hi) _ Hw).
Qed.

Lemma C3_costs_nondecreasing_witness :
  exists w' tr, k_loop (Z.to_nat K_PATHS) 0 open_field = Done (w', tr) /\
    StronglySorted Z.le (map (fun rp => p_cost (snd rp)) (found_paths tr)).
Proof.
  apply (C3_costs_nondecreasing open_field); reflexivity.
Defined.

Lemma seq_ranks i n :
  map (fun k => i + Z.of_nat k) (seq 2 n)
  = map (fun k => (i + 1) + Z.of_nat k) (seq 1 n).
Proof.
  rewrite <- (seq_shift n 1), map_map.
  apply map_ext. intros k. lia.
Qed.

(** The shape of a run: consecutive ranks, and a call that fails is the
    last one, all calls before it being the reported paths. *)
Lemma good_run_shape i w tr w' :
  good_run i w tr w' ->
  map call_rank tr = map (fun k => i + Z.of_nat k) (seq 1 (length tr)) /\
  map fst (found_paths tr)
    = map (fun k => i + Z.of_nat k) (seq 1 (length (found_paths tr))) /\
  forall n c, nth_error tr n = Some c -> p_cost (call_result c) = -1 ->
    length tr = S n /\ found_paths tr = map report (firstn n tr) /\
    w' = call_state c.
Proof.
  induction 1 as [i w|i w E|i w p w1 tr w' Hi E G Hok Hm Hrun (IH1 & IH2 & IH3)].
  - split; [reflexivity|]. split; [reflexivity|].
    intros [|n] c H; discriminate.
  - split.
    { reflexivity. }
    split; [reflexivity|].
    intros [|n] c H _.
    + cbn in H. inversion H; subst c. repeat split.
    + destruct n; discriminate.
  - rewrite (found_paths_step _ _ _ _ Hok). cbn [map length call_rank fst].
    split; [|split].
    + cbn [seq map]. f_equal; try lia. rewrite IH1. symmetry. apply seq_ranks.
    + cbn [seq map]. f_equal; try lia. rewrite IH2. symmetry. apply seq_ranks.
    + intros [|n] c H Hc.
      * cbn in H. inversion H; subst c. cbn in Hc.
        pose proof (fo_nonneg _ _ Hok). lia.
      * cbn [nth_error] in H. destruct (IH3 n c H Hc) as (H1 & H2 & H3).
        split; [lia|]. split; [|exact H3].
        cbn [firstn map]. rewrite H2. reflexivity.
Qed.

(** C7: the loop makes at most K searches and reports at most K paths;
    a search that returns cost -1 is the last one made, the globals stay
    as that search saw them, and the paths reported are those of the
    searches before it, ranked 1, 2, ... in the order they were found.
    The loop itself never faults. *)
Theorem C7_stops_when_exhausted (w : world) :
  inb (start w) = true -> inb (end_ w) = true ->
  exists w' tr, k_loop (Z.to_nat K_PATHS) 0 w = Done (w', tr) /\
    Z.of_nat (length tr) <= K_PATHS /\
    Z.of_nat (length (found_paths tr)) <= K_PATHS /\
    (forall c, In c tr ->
       dijkstra_find_path (call_state c) = Done (call_result c)) /\
    map call_rank tr = map Z.of_nat (seq 1 (length tr)) /\
    map fst (found_paths tr)
      = map Z.of_nat (seq 1 (length (found_paths tr))) /\
    forall n c, nth_error tr n = Some c -> p_cost (call_result c) = -1 ->
      length tr = S n /\ found_paths tr = map report (firstn n tr) /\
      w' = call_state c.
Proof.
  intros Hs He.
  destruct (k_loop_good (Z.to_nat K_PATHS) 0 w Hs He) as (w' & tr & E & Hg & Hl);
    [lia|vm_compute; discriminate|].
  exists w', tr. split; [exact E|].
  destruct (good_run_shape _ _ _ _ Hg) as (H1 & H2 & H3).
  destruct (good_run_frame _ _ _ _ Hg) as [_ H4].
  assert (Hk : Z.of_nat (length tr) <= K_PATHS).
  { rewrite <- (Z2Nat.id K_PATHS) by (vm_compute; discriminate). lia. }
  split; [exact Hk|]. split.
  { unfold found_paths. rewrite length_map.
    pose proof (filter_length_le
      (fun c => negb (p_cost (call_result c) =? -1)) tr). lia. }
  split; [intros c Hc; apply (H4 c Hc)|].
  split; [rewrite H1; apply map_ext; intros; lia|].
  split; [rewrite H2; apply map_ext; intros; lia|exact H3].
Qed.

Lemma C7_stops_when_exhausted_witness :
  exists w' tr, k_loop (Z.to_nat K_PATHS) 0 open_field = Done (w', tr) /\
    Z.of_nat (length tr) <= K_PATHS /\
    Z.of_nat (length (found_paths tr)) <= K_PATHS /\
    (forall c, In c tr ->
       dijkstra_find_path (call_state c) = Done (call_result c)) /\
    map call_rank tr = map Z.of_nat (seq 1 (length tr)) /\
    map fst (found_paths tr)
      = map Z.of_nat (seq 1 (length (found_paths tr))) /\
    forall n c, nth_error tr n = Some c -> p_cost (call_result c) = -1 ->
      length tr = S n /\ found_paths tr = map report (firstn n tr) /\
      w' = call_state c.
Proof.
  apply (C7_stops_when_exhausted open_field); reflexivity.
Defined.

(* ================================================================== *)
(** ** The click handler and the reachable states *)

Lemma handle_click_eq w x y :
  handle_click w x y =
  let grid_pos := screen_to_grid x y in
  if negb (inb grid_pos) || paths_found_and_drawn w
     || CellType_eqb (at2 (grid w) grid_pos) CELL_WALL
  then Done (w, [])
  else if negb (start_selected w) then Done (start_world w grid_pos, [])
  else if end_selected w || Point_eqb grid_pos (start w) then Done (w, [])
  else k_loop (Z.to_nat K_PATHS) 0 (end_world w grid_pos).
Proof.
  unfold handle_click, inb, at2, start_world, end_world. cbv zeta.
  destruct (in_bounds _ _); [|reflexivity].
  destruct (paths_found_and_drawn w); [reflexivity|].
  destruct (CellType_eqb _ _); [reflexivity|].
  destruct (start_selected w); [|reflexivity].
  destruct (end_selected w); [reflexivity|].
  destruct (Point_eqb _ _); reflexivity.
Qed.

Lemma valid_intro w p :
  inb p = true -> at2 (grid w) p <> CELL_WALL ->
  at2 (grid_path_type w) p = CELL_EMPTY -> valid w p = true.
Proof.
  unfold valid, is_valid_position, inb, at2. intros -> Hg ->.
  destruct (CellType_eqb (grid w (py p) (px p)) CELL_WALL) eqn:E; [|reflexivity].
  apply CellType_eqb_eq in E. contradiction.
Qed.

(** The endpoints keep their labels through a run of the loop, and so
    does the validity of the source at every call. *)
Lemma good_run_endpoints i w tr w' :
  good_run i w tr w' ->
  (at2 (grid_path_type w') (start w) = at2 (grid_path_type w) (start w) /\
   at2 (grid_path_type w') (end_ w) = at2 (grid_path_type w) (end_ w)) /\
  forall c, In c tr ->
    at2 (grid_path_type (call_state c)) (start w)
      = at2 (grid_path_type w) (start w).
Proof.
  induction 1 as [i w|i w E|i w p w1 tr w' Hi E G Hok Hm Hrun [[IH1 IH2] IH3]].
  - split; [split; reflexivity|]. intros c [].
  - split; [split; reflexivity|]. intros c [<-|[]]. reflexivity.
  - pose proof (mk_frame _ _ _ _ Hm) as F.
    rewrite (sf_start _ _ F) in IH1, IH3. rewrite (sf_end _ _ F) in IH2.
    rewrite (marked_start _ _ _ _ Hm) in IH1, IH3.
    rewrite (marked_end _ _ _ _ Hm) in IH2.
    split; [split; assumption|].
    intros c [<-|Hc]; [reflexivity|auto].
Qed.

Section Click.

Variables (w : world) (x y : Z).
Hypothesis I : RInv w.
Hypothesis Hsel : start_selected w = true.
Hypothesis Hnot : end_selected w = false.
Let grid_pos := screen_to_grid x y.
Hypothesis Hin : inb grid_pos = true.
Hypothesis Hwall : CellType_eqb (at2 (grid w) grid_pos) CELL_WALL = false.
Hypothesis Hne : Point_eqb grid_pos (start w) = false.

(** The click that designates End: the loop runs from [end_world], with a
    valid source at every call. *)
Lemma click_runs_loop :
  exists w' tr,
    handle_click w x y = Done (w', tr) /\
    good_run 0 (end_world w grid_pos) tr w' /\
    same_frame (end_world w grid_pos) w' /\
    at2 (grid_path_type w') (start w) = CELL_EMPTY /\
    at2 (grid_path_type w') grid_pos = CELL_EMPTY /\
    forall c, In c tr ->
      valid (call_state c) (start (call_state c)) = true /\
      entry_check (call_state c) = Done true.
Proof.
  rewrite handle_click_eq. cbv zeta. fold grid_pos.
  rewrite Hin, Hwall, Hsel, Hnot, Hne, (ri_flags _ I), Hnot. cbn [negb orb].
  destruct (ri_start _ I Hsel) as (Hsb & Hsw & Hse).
  apply Point_eqb_neq in Hne.
  set (w1 := end_world w grid_pos).
  destruct (k_loop_good (Z.to_nat K_PATHS) 0 w1) as (w' & tr & E & Hg & _);
    [exact Hsb|exact Hin|lia|vm_compute; discriminate|].
  exists w', tr. split; [exact E|]. split; [exact Hg|].
  destruct (good_run_frame _ _ _ _ Hg) as [F Hc].
  destruct (good_run_endpoints _ _ _ _ Hg) as [[H1 H2] H3].
  subst w1. cbn [end_world start end_ grid_path_type] in H1, H2, H3.
  split; [exact F|].
  split; [rewrite H1; exact Hse|].
  split; [rewrite H2; apply (ri_clean _ I Hnot)|].
  intros c Hin'. destruct (Hc c Hin') as [Fc _].
  assert (Hv : valid (call_state c) (start (call_state c)) = true).
  { rewrite (sf_start _ _ Fc). cbn [end_world start]. apply valid_intro.
    - exact Hsb.
    - rewrite (sf_grid _ _ Fc). cbn [end_world grid start].
      rewrite at2_upd_other by congruence. exact Hsw.
    - rewrite (H3 c Hin'). exact Hse. }
  split; [exact Hv|].
  unfold entry_check. fold (valid (call_state c) (start (call_state c))).
  rewrite Hv. reflexivity.
Qed.

End Click.

Lemma handle_click_RInv w x y w' tr :
  RInv w -> handle_click w x y = Done (w', tr) -> RInv w'.
Proof.
  intros I E. rewrite handle_click_eq in E. cbv zeta in E.
  set (grid_pos := screen_to_grid x y) in *.
  destruct (inb grid_pos) eqn:Hin; cbn [negb orb] in E;
    [|inversion E; subst; exact I].
  destruct (paths_found_and_drawn w) eqn:Hp; cbn [orb] in E;
    [inversion E; subst; exact I|].
  destruct (CellType_eqb (at2 (grid w) grid_pos) CELL_WALL) eqn:Hw;
    [inversion E; subst; exact I|].
  rewrite (ri_flags _ I) in Hp.
  destruct (start_selected w) eqn:Hs; cbn [negb] in E.
  2:{ inversion E; subst. unfold start_world.
      constructor; cbn [paths_found_and_drawn end_selected start_selected
                        start end_ grid grid_path_type].
      - apply I.
      - reflexivity.
      - intros _. split; [exact Hin|]. split.
        + rewrite at2_upd_same. discriminate.
        + apply (ri_clean _ I Hp).
      - congruence.
      - apply I. }
  rewrite Hp in E. cbn [orb] in E.
  destruct (Point_eqb grid_pos (start w)) eqn:Hne;
    [inversion E; subst; exact I|].
  destruct (click_runs_loop w x y I Hs Hp Hin Hw Hne)
    as (w2 & tr2 & E2 & _ & F & H1 & H2 & _).
  rewrite handle_click_eq in E2. cbv zeta in E2. fold grid_pos in E2.
  rewrite Hin, Hw, Hs, Hp, Hne, (ri_flags _ I), Hp in E2. cbn [negb orb] in E2.
  rewrite E2 in E. inversion E; subst w2 tr2.
  destruct F as [Fg Fs Fe Fss Fes Fd]. cbn in Fs, Fe, Fss, Fes, Fd.
  constructor.
  - congruence.
  - intros _. congruence.
  - intros _. rewrite Fs, Fg. cbn [end_world grid].
    destruct (ri_start _ I Hs) as (Hsb & Hsw & _).
    split; [exact Hsb|]. split; [|exact H1].
    apply Point_eqb_neq in Hne.
    rewrite at2_upd_other by (intros Heq; apply Hne; symmetry; exact Heq).
    exact Hsw.
  - intros _. rewrite Fe. split; [exact Hin|exact H2].
  - congruence.
Qed.

Lemma reset_grid_RInv w : RInv (reset_grid w).
Proof.
  constructor; cbn; try reflexivity; try discriminate.
Qed.

Lemma initialize_grid_RInv rnd : RInv (initialize_grid rnd).
Proof.
  constructor; cbn; try reflexivity; try discriminate.
Qed.

Lemma reachable_RInv w : reachable w -> RInv w.
Proof.
  induction 1 as [rnd|w x y w' tr _ IH E|w _ _].
  - apply initialize_grid_RInv.
  - exact (handle_click_RInv _ _ _ _ _ IH E).
  - apply reset_grid_RInv.
Qed.

(* ================================================================== *)
(** ** Claims about the click handler *)

Lemma one_wall_started_reachable : reachable one_wall_started.
Proof.
  apply (reach_click one_wall 0 0 one_wall_started []).
  - apply reach_init.
  - reflexivity.
Qed.

Lemma one_wall_finished_reachable : reachable (fst one_wall_finished).
Proof.
  apply (reach_click one_wall_started 80 0
           (fst one_wall_finished) (snd one_wall_finished)).
  - exact one_wall_started_reachable.
  - vm_compute. reflexivity.
Qed.

(** C8, as stated, fails: a click on a Wall is refused as well. *)
Lemma C8_counterexample : ~ end_refused_iff one_wall_started 40 0.
Proof.
  intros [[H _] _].
  assert (Hn : ~ designates_end one_wall_started 40 0).
  { intros (w' & tr & E & _ & Hsel & _).
    assert (E' : handle_click one_wall_started 40 0 = Done (one_wall_started, []))
      by reflexivity.
    rewrite E' in E. inversion E; subst w'. cbn in Hsel. discriminate. }
  destruct (H Hn) as [H1|[H1|H1]]; cbn in H1; discriminate.
Qed.

(** C8 (amended): with Start designated, a click fails to designate End
    if and only if the clicked cell equals Start, is out of bounds, is a
    Wall, or End is already designated; a click that fails leaves the
    globals as they were and runs no search. *)
Theorem C8_end_designation (w : world) (x y : Z) :
  reachable w -> start_selected w = true ->
  let grid_pos := screen_to_grid x y in
  (~ designates_end w x y <->
   (grid_pos = start w \/ inb grid_pos = false \/
    at2 (grid w) grid_pos = CELL_WALL \/ end_selected w = true)) /\
  (~ designates_end w x y -> handle_click w x y = Done (w, [])).
Proof.
  intros Hr Hs grid_pos. pose proof (reachable_RInv w Hr) as I.
  (* either the click is turned away, or it designates End *)
  assert (Hcases :
    (handle_click w x y = Done (w, []) /\
     (grid_pos = start w \/ inb grid_pos = false \/
      at2 (grid w) grid_pos = CELL_WALL \/ end_selected w = true))
    \/
    (designates_end w x y /\
     ~ (grid_pos = start w \/ inb grid_pos = false \/
        at2 (grid w) grid_pos = CELL_WALL \/ end_selected w = true))).
  { destruct (inb grid_pos) eqn:Hin.
    2:{ left. rewrite handle_click_eq. cbv zeta. fold grid_pos.
        rewrite Hin. auto. }
    destruct (end_selected w) eqn:He.
    { left. rewrite handle_click_eq. cbv zeta. fold grid_pos.
      rewrite Hin, (ri_flags _ I), He. auto. }
    destruct (CellType_eqb (at2 (grid w) grid_pos) CELL_WALL) eqn:Hw.
    { left. rewrite handle_click_eq. cbv zeta. fold grid_pos.
      rewrite Hin, Hw, orb_true_r. apply CellType_eqb_eq in Hw. auto. }
    destruct (Point_eqb grid_pos (start w)) eqn:Hne.
    { left. rewrite handle_click_eq. cbv zeta. fold grid_pos.
      rewrite Hin, Hw, Hs, He, Hne, (ri_flags _ I), He.
      apply Point_eqb_eq in Hne. auto. }
    right. split.
    - destruct (click_runs_loop w x y I Hs He Hin Hw Hne)
        as (w' & tr & E & _ & F & _).
      exists w', tr. split; [exact E|]. split; [exact He|].
      split; [rewrite (sf_esel _ _ F)|rewrite (sf_end _ _ F)]; reflexivity.
    - apply Point_eqb_neq in Hne.
      intros [H|[H|[H|H]]]; try congruence.
      apply CellType_eqb_eq in H. congruence. }
  destruct Hcases as [[E Hrej]|[Hd Hnrej]].
  - assert (Hn : ~ designates_end w x y).
    { intros (w' & tr & E' & H0 & H1 & _). rewrite E in E'.
      inversion E'; subst w'. congruence. }
    split; [split; auto|auto].
  - split; [split|]; intros H; contradiction.
Qed.

Lemma C8_end_designation_witness :
  let grid_pos := screen_to_grid 40 0 in
  (~ designates_end one_wall_started 40 0 <->
   (grid_pos = start one_wall_started \/ inb grid_pos = false \/
    at2 (grid one_wall_started) grid_pos = CELL_WALL \/
    end_selected one_wall_started = true)) /\
  (~ designates_end one_wall_started 40 0 ->
   handle_click one_wall_started 40 0 = Done (one_wall_started, [])).
Proof.
  apply (C8_end_designation one_wall_started 40 0).
  - exact one_wall_started_reachable.
  - reflexivity.
Defined.

(** C10: in every reachable state the designated Start and End carry no
    rank label, and every search the loop of a click makes finds its
    source valid and gets past the entry test. *)
Theorem C10_source_always_valid (w : world) :
  reachable w ->
  (start_selected w = true ->
   at2 (grid_path_type w) (start w) = CELL_EMPTY) /\
  (end_selected w = true ->
   at2 (grid_path_type w) (end_ w) = CELL_EMPTY) /\
  forall x y w' tr, handle_click w x y = Done (w', tr) ->
    forall c, In c tr ->
      valid (call_state c) (start (call_state c)) = true /\
      entry_check (call_state c) = Done true.
Proof.
  intros Hr. pose proof (reachable_RInv w Hr) as I.
  split; [intros H; apply (ri_start _ I H)|].
  split; [intros H; apply (ri_end _ I H)|].
  intros x y w' tr E c Hc.
  assert (Hnil : handle_click w x y = Done (w', tr) -> tr = [] -> False)
    by (intros _ ->; destruct Hc).
  rewrite handle_click_eq in E. cbv zeta in E.
  set (grid_pos := screen_to_grid x y) in *.
  destruct (inb grid_pos) eqn:Hin; cbn [negb orb] in E;
    [|inversion E; subst; destruct Hc].
  destruct (paths_found_and_drawn w) eqn:Hp; cbn [orb] in E;
    [inversion E; subst; destruct Hc|].
  destruct (CellType_eqb (at2 (grid w) grid_pos) CELL_WALL) eqn:Hw;
    [inversion E; subst; destruct Hc|].
  rewrite (ri_flags _ I) in Hp.
  destruct (start_selected w) eqn:Hs; cbn [negb] in E;
    [|inversion E; subst; destruct Hc].
  rewrite Hp in E. cbn [orb] in E.
  destruct (Point_eqb grid_pos (start w)) eqn:Hne;
    [inversion E; subst; destruct Hc|].
  destruct (click_runs_loop w x y I Hs Hp Hin Hw Hne)
    as (w2 & tr2 & E2 & _ & _ & _ & _ & Hall).
  rewrite handle_click_eq in E2. cbv zeta in E2. fold grid_pos in E2.
  rewrite Hin, Hw, Hs, Hp, Hne, (ri_flags _ I), Hp in E2. cbn [negb orb] in E2.
  rewrite E2 in E. inversion E; subst w2 tr2.
  apply Hall. exact Hc.
Qed.

Lemma C10_source_always_valid_witness :
  (start_selected one_wall_started = true ->
   at2 (grid_path_type one_wall_started) (start one_wall_started) = CELL_EMPTY) /\
  (end_selected one_wall_started = true ->
   at2 (grid_path_type one_wall_started) (end_ one_wall_started) = CELL_EMPTY) /\
  forall x y w' tr, handle_click one_wall_started x y = Done (w', tr) ->
    forall c, In c tr ->
      valid (call_state c) (start (call_state c)) = true /\
      entry_check (call_state c) = Done true.
Proof.
  apply (C10_source_always_valid one_wall_started).
  exact one_wall_started_reachable.
Defined.

(** The second click on the one-wall grid: End on (2,0).  The only path
    goes around the Wall through (0,1); after it the two neighbours of
    Start are a Wall and a labelled cell, and the second search fails. *)
Example one_wall_costs :
  match handle_click one_wall_started 80 0 with
  | Done (_, tr) => map (fun c => p_cost (call_result c)) tr = [4; -1]
  | _ => False
  end.
Proof. vm_compute. reflexivity. Qed.

(* ================================================================== *)
(** ** More about one search *)

Lemma NoDup_snoc {A} (l : list A) (x : A) :
  NoDup l -> ~ In x l -> NoDup (l ++ [x]).
Proof.
  induction l as [|a l IH]; intros Hnd Hx; cbn.
  - constructor; [intros []|constructor].
  - inversion Hnd as [|? ? Ha Hl]; subst. constructor.
    + intros Hin. apply in_app_or in Hin. destruct Hin as [Hin|[->|[]]].
      * contradiction.
      * apply Hx. left. reflexivity.
    + apply IH; [exact Hl|]. intros Hin. apply Hx. right. exact Hin.
Qed.

(** Along the walk back from the sink [dist] strictly falls, so no cell
    is met twice. *)
Lemma walk_back_distinct w st (T : Tree w st) : forall room p acc,
  In p (pushes st) -> D st p < Z.of_nat room ->
  exists pre,
    walk_back room w (parent st) p acc = Done (acc ++ rev (pre ++ [p])) /\
    Forall (fun q => D st q < D st p) pre /\
    NoDup (pre ++ [p]).
Proof.
  induction room as [|room IH]; intros p acc Hp Hd.
  { destruct (tr_range _ _ T p Hp). lia. }
  rewrite walk_back_S.
  pose proof (tr_inb _ _ T p Hp) as Hb.
  assert (Hb' := Hb). unfold inb in Hb'. apply in_bounds_iff in Hb'.
  replace (negb (px p =? -1) && negb (py p =? -1)) with true.
  2:{ symmetry. apply andb_true_iff. split; apply negb_true_iff, Z.eqb_neq; lia. }
  destruct (Point_eqb p (start w)) eqn:Es.
  - exists []. cbn [app rev]. split; [reflexivity|]. split; [constructor|].
    constructor; [intros []|constructor].
  - apply Point_eqb_neq in Es.
    rewrite (rd_in _ _ Hb). cbn [bind]. fold (Par st p).
    destruct (tr_parent _ _ T p Hp Es) as (Hcp & Hcd & _ & _).
    set (c := Par st p) in *.
    destruct (IH c (acc ++ [p]) Hcp ltac:(lia)) as (pre & E & Hlt & Hnd).
    assert (Hall : Forall (fun q => D st q < D st p) (pre ++ [c])).
    { apply Forall_app. split.
      - eapply Forall_impl; [|exact Hlt]. cbn. intros q Hq. lia.
      - constructor; [lia|constructor]. }
    exists (pre ++ [c]). split; [|split].
    + rewrite E, (rev_unit (pre ++ [c]) p), <- app_assoc. reflexivity.
    + exact Hall.
    + apply NoDup_snoc; [exact Hnd|].
      intros Hin. rewrite Forall_forall in Hall. specialize (Hall p Hin). lia.
Qed.

(** X1: the points of a returned path are pairwise distinct cells of the
    grid, and there are no more of them than [Path.points] has room for. *)
Theorem path_points_distinct (w : world) :
  inb (start w) = true -> inb (end_ w) = true ->
  exists p, dijkstra_find_path w = Done p /\
    NoDup (p_points p) /\
    (forall q, In q (p_points p) -> inb q = true) /\
    p_length p = Z.of_nat (length (p_points p)) /\
    0 <= p_length p <= GRID_WIDTH * GRID_HEIGHT.
Proof.
  intros Hs He.
  destruct (search_correct w Hs He) as (p & E & H).
  exists p. split; [exact E|].
  assert (Hnone : p = no_path ->
            NoDup (p_points p) /\
            (forall q, In q (p_points p) -> inb q = true) /\
            p_length p = Z.of_nat (length (p_points p)) /\
            0 <= p_length p <= GRID_WIDTH * GRID_HEIGHT).
  { intros ->. cbn. split; [constructor|]. split; [intros q []|].
    split; [reflexivity|]. split; [lia|discriminate]. }
  destruct H as [[_ Hp]|[[_ [Hp _]]|[G Hok]]]; [auto|auto|]. clear Hnone.
  split.
  - (* rerun the reconstruction with the finer lemma *)
    unfold dijkstra_find_path, dijkstra_find_path_fuel in E.
    rewrite (entry_check_closed w He), G in E. cbn [bind] in E.
    destruct (dijkstra_search_total w search_fuel Hs He search_fuel_enough)
      as (st & r & Es & T & HP).
    rewrite Es in E. cbn [bind fst snd] in E.
    destruct r as [cur|].
    2:{ cbn in E. inversion E; subst p. constructor. }
    destruct HP as (_ & _ & Hep & _).
    assert (Hroom : D st (end_ w) < Z.of_nat (Z.to_nat (GRID_WIDTH * GRID_HEIGHT))).
    { pose proof (tr_range _ _ T _ Hep) as Hr.
      assert (Hcap : Z.of_nat (length (pushes st)) <= NODES_CAP)
        by (apply cells_bounded; apply T).
      fold NODES_CAP. pose proof cap_small. rewrite Z2Nat.id by lia. lia. }
    destruct (walk_back_distinct w st T _ (end_ w) [] Hep Hroom)
      as (pre & Ew & _ & Hnd).
    unfold reconstruct in E. rewrite Ew in E. cbn [bind app] in E.
    inversion E; subst p. cbn [p_points]. rewrite rev_involutive. exact Hnd.
  - split; [apply (found_ok_inb w p Hs Hok)|].
    split; [apply Hok|].
    pose proof (fo_nonneg _ _ Hok). pose proof (fo_cost _ _ Hok).
    pose proof (fo_room _ _ Hok). lia.
Qed.

Lemma path_points_distinct_witness :
  exists p, dijkstra_find_path open_field = Done p /\
    NoDup (p_points p) /\
    (forall q, In q (p_points p) -> inb q = true) /\
    p_length p = Z.of_nat (length (p_points p)) /\
    0 <= p_length p <= GRID_WIDTH * GRID_HEIGHT.
Proof.
  apply (path_points_distinct open_field); reflexivity.
Defined.

Lemma path_eta p : mkPath (p_points p) (p_length p) (p_cost p) = p.
Proof. destruct p. reflexivity. Qed.

(** X2: when Start and End are the same cell, the search returns the
    one-point path with cost 0 if it gets past its entry test, and cost
    -1 otherwise. *)
Theorem search_start_is_end (w : world) :
  inb (start w) = true -> start w = end_ w ->
  dijkstra_find_path w =
  Done (if entry_open w then mkPath [start w] 1 0 else no_path).
Proof.
  intros Hs Hse. assert (He : inb (end_ w) = true) by (rewrite <- Hse; exact Hs).
  assert (Hw : walk w [start w]).
  { split; [reflexivity|]. split; [exact Hse|]. split; constructor. }
  destruct (search_correct w Hs He) as (p & E & H). rewrite E. f_equal.
  destruct H as [[G ->]|[[G [-> Hno]]|[G Hok]]]; rewrite G.
  - reflexivity.
  - destruct (Hno _ Hw).
  - pose proof (fo_optimal _ _ Hok _ Hw) as Hopt. unfold edges in Hopt.
    cbn [length] in Hopt.
    pose proof (fo_nonneg _ _ Hok) as Hnn.
    pose proof (fo_cost _ _ Hok) as Hc.
    pose proof (fo_length _ _ Hok) as Hl.
    destruct (fo_walk _ _ Hok) as (Hhd & _).
    rewrite <- (path_eta p).
    destruct (p_points p) as [|a [|b t]]; cbn [length] in Hl.
    + discriminate.
    + cbn in Hhd. inversion Hhd; subst a.
      replace (p_length p) with 1 by lia. replace (p_cost p) with 0 by lia.
      reflexivity.
    + lia.
Qed.

Lemma search_start_is_end_witness :
  dijkstra_find_path same_cell =
  Done (if entry_open same_cell then mkPath [start same_cell] 1 0 else no_path).
Proof.
  apply (search_start_is_end same_cell); reflexivity.
Defined.

Lemma chain_manhattan : forall l a,
  chain (a :: l) ->
  exists k, 0 <= k /\
    Z.of_nat (length l) = manhattan a (last l a) + 2 * k.
Proof.
  induction l as [|b l IH]; intros a Hch.
  - exists 0. unfold manhattan. cbn. lia.
  - destruct Hch as [Hst Hch]. destruct (IH b Hch) as (k & Hk & Hlen).
    rewrite last_cons. cbn [length]. rewrite Nat2Z.inj_succ, Hlen.
    unfold manhattan, unit_step in *.
    set (e := last l b) in *.
    assert (Hd : manhattan a e = manhattan b e + 1 \/
                 manhattan a e + 1 = manhattan b e).
    { unfold manhattan. lia. }
    unfold manhattan in Hd.
    destruct Hd as [Hd|Hd]; [exists k|exists (k + 1)]; lia.
Qed.

(** X3: the cost of a returned path is at least the Manhattan distance
    between Start and End and differs from it by an even number. *)
Theorem cost_at_least_manhattan (w : world) :
  inb (start w) = true -> inb (end_ w) = true ->
  exists p, dijkstra_find_path w = Done p /\
    (p_cost p <> -1 ->
     exists k, 0 <= k /\ p_cost p = manhattan (start w) (end_ w) + 2 * k).
Proof.
  intros Hs He.
  destruct (search_correct w Hs He) as (p & E & H).
  exists p. split; [exact E|]. intros Hc.
  destruct H as [[_ ->]|[[_ [-> _]]|[_ Hok]]];
    [cbn in Hc; congruence | cbn in Hc; congruence |].
  destruct (walk_split w _ (fo_walk _ _ Hok)) as (t & Hp & Hch & _ & Hlast & Hed).
  destruct (chain_manhattan t (start w) Hch) as (k & Hk & Hlen).
  exists k. split; [exact Hk|].
  rewrite Hlast in Hlen. unfold edges in Hed.
  pose proof (fo_cost _ _ Hok). pose proof (fo_length _ _ Hok). lia.
Qed.

Lemma cost_at_least_manhattan_witness :
  exists p, dijkstra_find_path open_field = Done p /\
    (p_cost p <> -1 ->
     exists k, 0 <= k /\
       p_cost p = manhattan (start open_field) (end_ open_field) + 2 * k).
Proof.
  apply (cost_at_least_manhattan open_field); reflexivity.
Defined.

(** X4: a blocked source does not stop the search when the sink carries a
    rank label: the loop runs from the blocked source and the result is a
    shortest walk, or cost -1 when there is no walk. *)
Theorem blocked_source_labelled_sink (w : world) :
  inb (start w) = true -> inb (end_ w) = true ->
  blocked w (start w) = true ->
  at2 (grid_path_type w) (end_ w) <> CELL_EMPTY ->
  entry_check w = Done true /\
  exists p, dijkstra_find_path w = Done p /\
    ((p = no_path /\ forall l, ~ walk w l) \/ found_ok w p).
Proof.
  intros Hs He Hb Hl.
  assert (G : entry_open w = true).
  { unfold entry_open. rewrite (blocked_not_valid _ _ Hb). cbn.
    destruct (CellType_eqb _ _) eqn:E; [|reflexivity].
    apply CellType_eqb_eq in E. contradiction. }
  split; [rewrite (entry_check_closed w He), G; reflexivity|].
  destruct (search_correct w Hs He) as (p & E & H).
  exists p. split; [exact E|].
  destruct H as [[G' _]|[[_ [Hp Hno]]|[_ Hok]]]; [congruence|auto|auto].
Qed.

Lemma blocked_source_labelled_sink_witness :
  entry_check walled_source = Done true /\
  exists p, dijkstra_find_path walled_source = Done p /\
    ((p = no_path /\ forall l, ~ walk walled_source l) \/
     found_ok walled_source p).
Proof.
  apply (blocked_source_labelled_sink walled_source);
    [reflexivity | reflexivity | reflexivity | discriminate].
Defined.

(** X5: with an invalid Start and an End outside the grid (as before End
    is designated, when it is (-1,-1)), the entry test reads
    [grid_path_type] out of bounds. *)
Theorem search_before_designation_faults (w : world) :
  valid w (start w) = false -> inb (end_ w) = false ->
  dijkstra_find_path w = Fault.
Proof.
  intros Hv He.
  unfold dijkstra_find_path, dijkstra_find_path_fuel, entry_check.
  fold (valid w (start w)) (valid w (end_ w)). rewrite Hv.
  destruct (valid w (end_ w)) eqn:Ev.
  { rewrite (valid_inb _ _ Ev) in He. discriminate. }
  unfold rd. unfold inb in He. rewrite He. reflexivity.
Qed.

Lemma search_before_designation_faults_witness :
  dijkstra_find_path (initialize_grid (fun _ _ => 1)) = Fault.
Proof.
  apply (search_before_designation_faults (initialize_grid (fun _ _ => 1)));
    reflexivity.
Defined.

(* ------------------------------------------------------------------ *)
(** *** What the search looks at *)

Section Agreement.

Variables w1 w2 : world.
Hypothesis A : same_obstacles w1 w2.

Lemma agree_valid x y : is_valid_position w1 x y = is_valid_position w2 x y.
Proof.
  unfold is_valid_position. rewrite (so_labels _ _ A). f_equal. f_equal.
  destruct (CellType_eqb (grid w1 y x) CELL_WALL) eqn:E1,
           (CellType_eqb (grid w2 y x) CELL_WALL) eqn:E2; try reflexivity.
  - apply CellType_eqb_eq in E1. apply (so_walls _ _ A) in E1.
    apply CellType_eqb_eq in E1. congruence.
  - apply CellType_eqb_eq in E2. apply (so_walls _ _ A) in E2.
    apply CellType_eqb_eq in E2. congruence.
Qed.

Lemma agree_explore_neighbor cx cy st o :
  explore_neighbor w1 cx cy st o = explore_neighbor w2 cx cy st o.
Proof.
  unfold explore_neighbor. rewrite (so_end _ _ A), agree_valid. reflexivity.
Qed.

Lemma agree_explore cx cy : forall os st,
  explore w1 cx cy st os = explore w2 cx cy st os.
Proof.
  induction os as [|o os IH]; intros st; cbn [explore]; [reflexivity|].
  rewrite agree_explore_neighbor.
  destruct (explore_neighbor w2 cx cy st o); cbn [bind]; auto.
Qed.

Lemma agree_search_loop : forall fuel st,
  search_loop fuel w1 st = search_loop fuel w2 st.
Proof.
  induction fuel as [|fuel IH]; intros st; [reflexivity|].
  rewrite !search_loop_S. destruct (nodes st) as [|n0 t]; [reflexivity|].
  cbv zeta. rewrite (so_end _ _ A).
  destruct (rd _ _ _) as [v| |]; cbn [bind]; try reflexivity.
  destruct v; [apply IH|].
  destruct (wr _ _ _ _) as [v'| |]; cbn [bind]; try reflexivity.
  destruct (Point_eqb _ _); [reflexivity|].
  rewrite agree_explore.
  destruct (explore _ _ _ _ _) as [st3| |]; cbn [bind]; auto.
Qed.

Lemma agree_walk_back par : forall room at_ acc,
  walk_back room w1 par at_ acc = walk_back room w2 par at_ acc.
Proof.
  induction room as [|room IH]; intros at_ acc; [reflexivity|].
  rewrite !walk_back_S, (so_start _ _ A).
  destruct (negb _ && negb _); [|reflexivity].
  destruct (Point_eqb _ _); [reflexivity|].
  destruct (rd _ _ _); cbn [bind]; auto.
Qed.

Lemma agree_entry_check : entry_check w1 = entry_check w2.
Proof.
  unfold entry_check.
  rewrite !agree_valid, (so_start _ _ A), (so_end _ _ A).
  unfold rd. rewrite (so_labels _ _ A). reflexivity.
Qed.

Lemma agree_init_locals : init_locals w1 = init_locals w2.
Proof. unfold init_locals. rewrite (so_start _ _ A). reflexivity. Qed.

Lemma agree_reconstruct st r : reconstruct w1 st r = reconstruct w2 st r.
Proof.
  unfold reconstruct. destruct r as [cur|]; [|reflexivity].
  rewrite agree_walk_back, (so_end _ _ A). reflexivity.
Qed.

(** X6: the search looks only at the endpoints, the Walls and the rank
    labels: two states that agree on these give the same result, whatever
    the Start and End markers in [grid] and the three flags are. *)
Theorem search_ignores_markers fuel :
  dijkstra_find_path_fuel fuel w1 = dijkstra_find_path_fuel fuel w2.
Proof.
  unfold dijkstra_find_path_fuel, dijkstra_search.
  rewrite agree_entry_check, agree_init_locals.
  destruct (entry_check w2) as [go_on| |]; cbn [bind]; try reflexivity.
  destruct go_on; [|reflexivity].
  destruct (init_locals w2) as [st0| |]; cbn [bind]; try reflexivity.
  rewrite agree_search_loop.
  destruct (search_loop fuel w2 st0) as [res| |]; cbn [bind]; try reflexivity.
  apply agree_reconstruct.
Qed.

End Agreement.

Lemma open_field_same_obstacles : same_obstacles open_field open_field_marked.
Proof.
  constructor; try reflexivity.
  intros y x. cbn.
  destruct ((y =? 0) && (x =? 0)); [split; discriminate|].
  destruct ((y =? 0) && (x =? 2)); split; discriminate.
Qed.

Lemma search_ignores_markers_witness :
  dijkstra_find_path_fuel search_fuel open_field
  = dijkstra_find_path_fuel search_fuel open_field_marked.
Proof.
  apply (search_ignores_markers open_field open_field_marked).
  exact open_field_same_obstacles.
Defined.

(** X7: the [while] loop of the search ends: on in-bounds endpoints every
    amount of fuel above GRID_WIDTH * GRID_HEIGHT gives one and the same
    returned path. *)
Theorem search_terminates (w : world) :
  inb (start w) = true -> inb (end_ w) = true ->
  exists p, forall fuel,
    GRID_WIDTH * GRID_HEIGHT < Z.of_nat fuel ->
    dijkstra_find_path_fuel fuel w = Done p.
Proof.
  intros Hs He.
  destruct (search_correct w Hs He) as (p & E & _).
  exists p. intros fuel Hf.
  rewrite (dijkstra_find_path_fuel_enough w fuel Hs He); [exact E|].
  unfold search_fuel. pose proof cap_small. unfold NODES_CAP in *. lia.
Qed.

Lemma search_terminates_witness :
  exists p, forall fuel,
    GRID_WIDTH * GRID_HEIGHT < Z.of_nat fuel ->
    dijkstra_find_path_fuel fuel open_field = Done p.
Proof.
  apply (search_terminates open_field); reflexivity.
Defined.

(* ------------------------------------------------------------------ *)
(** *** An unobstructed rectangle *)

Lemma seg_length p o n : length (seg p o n) = n.
Proof.
  revert p. induction n as [|n IH]; intros p; cbn; [reflexivity|].
  rewrite IH. reflexivity.
Qed.

Lemma shiftn_shift p o k : shiftn (shift p o) o k = shiftn p o (k + 1).
Proof. unfold shiftn, shift. cbn [px py]. f_equal; ring. Qed.

Lemma seg_last o : forall n p, last (seg p o n) p = shiftn p o (Z.of_nat n).
Proof.
  induction n as [|n IH]; intros p.
  - unfold shiftn. cbn. rewrite !Z.add_0_r. symmetry. apply point_eta.
  - cbn [seg]. rewrite last_cons, IH, shiftn_shift. f_equal. lia.
Qed.

Lemma seg_chain o : In o offsets -> forall n p, chain (p :: seg p o n).
Proof.
  intros Ho. induction n as [|n IH]; intros p; cbn [seg]; [exact I|].
  split; [apply unit_step_shift; exact Ho|apply IH].
Qed.

Lemma seg_Forall (P : Point -> Prop) o : forall n p,
  (forall k, 1 <= k <= Z.of_nat n -> P (shiftn p o k)) ->
  Forall P (seg p o n).
Proof.
  induction n as [|n IH]; intros p H; cbn [seg]; constructor.
  - replace (shift p o) with (shiftn p o 1); [apply H; lia|].
    unfold shiftn, shift. f_equal; ring.
  - apply IH. intros k Hk. rewrite shiftn_shift. apply H. lia.
Qed.

Lemma last_app2 {A} : forall (l1 l2 : list A) a,
  last (l1 ++ l2) a = last l2 (last l1 a).
Proof.
  induction l1 as [|b l1 IH]; intros l2 a; [reflexivity|].
  cbn [app]. rewrite !last_cons. apply IH.
Qed.

Lemma valid_is_legal w p : valid w p = true -> legal w p = true.
Proof.
  intros H. unfold legal. rewrite (valid_inb _ _ H), H.
  cbn. apply orb_true_r.
Qed.

Lemma chain_app : forall l1 l2 a,
  chain (a :: l1) -> chain (last l1 a :: l2) -> chain (a :: l1 ++ l2).
Proof.
  induction l1 as [|b l1 IH]; intros l2 a H1 H2.
  - exact H2.
  - destruct H1 as [Hst H1]. rewrite last_cons in H2.
    cbn [app]. split; [exact Hst|]. apply IH; assumption.
Qed.

Lemma toward_offset_h a b : In (toward a b, 0) offsets.
Proof. unfold toward, offsets, dx, dy. destruct (a <=? b); cbn; tauto. Qed.

Lemma toward_offset_v a b : In (0, toward a b) offsets.
Proof. unfold toward, offsets, dx, dy. destruct (a <=? b); cbn; tauto. Qed.

Lemma toward_reaches a b :
  a + Z.of_nat (Z.to_nat (Z.abs (b - a))) * toward a b = b.
Proof.
  unfold toward. rewrite Z2Nat.id by lia.
  destruct (a <=? b) eqn:E; [apply Z.leb_le in E|apply Z.leb_gt in E]; lia.
Qed.

Lemma toward_between a b k :
  1 <= k <= Z.of_nat (Z.to_nat (Z.abs (b - a))) ->
  Z.min a b <= a + k * toward a b <= Z.max a b.
Proof.
  unfold toward. rewrite Z2Nat.id by lia.
  destruct (a <=? b) eqn:E; [apply Z.leb_le in E|apply Z.leb_gt in E]; lia.
Qed.

(** The L-shaped path is a chain from [s] to [e] inside their rectangle
    with as many edges as the Manhattan distance. *)
Lemma l_path_spec s e :
  chain (l_path s e) /\ last (l_path s e) s = e /\
  edges (l_path s e) = manhattan s e /\
  Forall (in_box s e) (tl (l_path s e)).
Proof.
  unfold l_path.
  set (nx := Z.to_nat (Z.abs (px e - px s))).
  set (ny := Z.to_nat (Z.abs (py e - py s))).
  set (ox := (toward (px s) (px e), 0)).
  set (oy := (0, toward (py s) (py e))).
  set (c := mkPoint (px e) (py s)).
  assert (Hc : last (seg s ox nx) s = c).
  { rewrite seg_last. unfold shiftn, ox, nx, c. cbn [fst snd].
    rewrite toward_reaches. f_equal. lia. }
  assert (He : last (seg c oy ny) c = e).
  { rewrite seg_last. unfold shiftn, oy, ny, c. cbn [fst snd px py].
    rewrite toward_reaches, Z.mul_0_r, Z.add_0_r. apply point_eta. }
  split; [|split; [|split]].
  - apply chain_app; [apply seg_chain, toward_offset_h|].
    rewrite Hc. apply seg_chain, toward_offset_v.
  - rewrite last_cons, last_app2, Hc. exact He.
  - unfold edges, manhattan. cbn [length].
    rewrite length_app, !seg_length. unfold nx, ny. lia.
  - cbn [tl]. apply Forall_app. split; apply seg_Forall; intros k Hk.
    + unfold in_box, shiftn, ox. cbn [fst snd px py].
      pose proof (toward_between (px s) (px e) k Hk). lia.
    + unfold in_box, shiftn, oy, c. cbn [fst snd px py].
      pose proof (toward_between (py s) (py e) k Hk). lia.
Qed.

(** X8: when every cell of the rectangle spanned by Start and End is a
    valid position, the search returns a path whose cost is exactly the
    Manhattan distance between them. *)
Theorem open_rectangle_cost (w : world) :
  inb (start w) = true -> inb (end_ w) = true ->
  (forall q, in_box (start w) (end_ w) q -> valid w q = true) ->
  exists p, dijkstra_find_path w = Done p /\
    p_cost p = manhattan (start w) (end_ w) /\
    p_length p = manhattan (start w) (end_ w) + 1.
Proof.
  intros Hs He Hbox.
  destruct (l_path_spec (start w) (end_ w)) as (Hch & Hlast & Hed & Hin).
  assert (Hw : walk w (l_path (start w) (end_ w))).
  { split; [reflexivity|]. split; [exact Hlast|]. split; [exact Hch|].
    eapply Forall_impl; [|exact Hin].
    intros q Hq. apply valid_is_legal. apply Hbox. exact Hq. }
  assert (Hv : valid w (start w) = true).
  { apply Hbox. unfold in_box. lia. }
  destruct (search_correct w Hs He) as (p & E & H).
  exists p. split; [exact E|].
  destruct H as [[G _]|[[_ [_ Hno]]|[_ Hok]]].
  - unfold entry_open in G. rewrite Hv in G. discriminate.
  - destruct (Hno _ Hw).
  - pose proof (fo_optimal _ _ Hok _ Hw) as Hopt. rewrite Hed in Hopt.
    destruct (walk_split w _ (fo_walk _ _ Hok))
      as (t & _ & Hcht & _ & Hlastt & Hedt).
    destruct (chain_manhattan t (start w) Hcht) as (k & Hk & Hlen).
    rewrite Hlastt in Hlen. unfold edges in Hedt.
    pose proof (fo_cost _ _ Hok). pose proof (fo_length _ _ Hok). lia.
Qed.

Lemma open_rectangle_cost_witness :
  exists p, dijkstra_find_path open_field = Done p /\
    p_cost p = manhattan (start open_field) (end_ open_field) /\
    p_length p = manhattan (start open_field) (end_ open_field) + 1.
Proof.
  apply (open_rectangle_cost open_field); [reflexivity|reflexivity|].
  intros q [Hx Hy]. cbn in Hx, Hy.
  unfold valid, is_valid_position, open_field. cbn [grid grid_path_type].
  cbn. rewrite andb_true_r, andb_true_r. apply in_bounds_iff.
  unfold GRID_WIDTH, GRID_HEIGHT. lia.
Defined.

(* ================================================================== *)
(** ** More about the K-iteration loop *)

Lemma unit_step_manhattan p q : unit_step p q -> manhattan p q = 1.
Proof. unfold unit_step, manhattan. lia. Qed.

(** With End next to Start every successful search returns the two
    endpoints and nothing else. *)
Lemma adjacent_path w p :
  inb (end_ w) = true -> unit_step (start w) (end_ w) ->
  found_ok w p -> p = mkPath [start w; end_ w] 2 1.
Proof.
  intros He Hadj Hok.
  assert (Hw : walk w [start w; end_ w]).
  { split; [reflexivity|]. split; [reflexivity|]. split; [cbn; auto|].
    constructor; [|constructor].
    unfold legal. rewrite He, Point_eqb_refl. reflexivity. }
  pose proof (fo_optimal _ _ Hok _ Hw) as Hopt. unfold edges in Hopt.
  cbn [length] in Hopt.
  pose proof (fo_cost _ _ Hok) as Hc. pose proof (fo_length _ _ Hok) as Hl.
  destruct (walk_split w _ (fo_walk _ _ Hok)) as (t & Hp & Hch & _ & Hlast & _).
  destruct (chain_manhattan t (start w) Hch) as (k & Hk & Hlen).
  rewrite Hlast, (unit_step_manhattan _ _ Hadj) in Hlen.
  rewrite <- (path_eta p). rewrite Hp in *. cbn [length] in Hl.
  destruct t as [|b [|c t]]; cbn [length] in *; try lia.
  cbn in Hlast. subst b.
  replace (p_length p) with 2 by lia. replace (p_cost p) with 1 by lia.
  reflexivity.
Qed.

Lemma mark_endpoints w ty :
  mark_points w ty [start w; end_ w] = Done w.
Proof.
  cbn [mark_points]. rewrite !Point_eqb_refl, orb_true_r. reflexivity.
Qed.

(** X9: when End is a neighbour of a valid Start, all K searches succeed
    with the same two-point path of cost 1 and no cell is labelled: the
    loop reports K copies of one path and leaves the globals unchanged. *)
Theorem adjacent_endpoints_repeat (w : world) :
  valid w (start w) = true -> inb (end_ w) = true ->
  unit_step (start w) (end_ w) ->
  k_loop (Z.to_nat K_PATHS) 0 w
  = Done (w, map (fun k => mkCall (Z.of_nat k) w
                             (mkPath [start w; end_ w] 2 1))
                 (seq 1 (Z.to_nat K_PATHS))).
Proof.
  intros Hv He Hadj.
  pose proof (valid_inb _ _ Hv) as Hs.
  assert (Hrun : dijkstra_find_path w = Done (mkPath [start w; end_ w] 2 1)).
  { destruct (search_correct w Hs He) as (p & E & H). rewrite E. f_equal.
    destruct H as [[G _]|[[_ [_ Hno]]|[_ Hok]]].
    - unfold entry_open in G. rewrite Hv in G. discriminate.
    - exfalso. apply (Hno [start w; end_ w]).
      split; [reflexivity|]. split; [reflexivity|]. split; [cbn; auto|].
      constructor; [|constructor].
      unfold legal. rewrite He, Point_eqb_refl. reflexivity.
    - apply (adjacent_path w p He Hadj Hok). }
  assert (Hloop : forall todo i,
            k_loop todo i w
            = Done (w, map (fun k => mkCall (i + Z.of_nat k) w
                                       (mkPath [start w; end_ w] 2 1))
                           (seq 1 todo))).
  { induction todo as [|todo IH]; intros i; [reflexivity|].
    cbn [k_loop]. rewrite Hrun. cbn [bind p_cost p_length p_points].
    change (1 =? -1) with false. cbv iota.
    change (firstn (Z.to_nat 2) [start w; end_ w]) with [start w; end_ w].
    rewrite mark_endpoints. cbn [bind]. rewrite IH. cbn [bind fst snd].
    f_equal. f_equal. cbn [seq map]. f_equal.
    rewrite <- (seq_shift todo 1), map_map. apply map_ext. intros k.
    f_equal. lia. }
  rewrite Hloop. reflexivity.
Qed.

Lemma adjacent_endpoints_repeat_witness :
  k_loop (Z.to_nat K_PATHS) 0 neighbours_field
  = Done (neighbours_field,
          map (fun k => mkCall (Z.of_nat k) neighbours_field
                          (mkPath [start neighbours_field;
                                   end_ neighbours_field] 2 1))
              (seq 1 (Z.to_nat K_PATHS))).
Proof.
  apply (adjacent_endpoints_repeat neighbours_field);
    [reflexivity | reflexivity | left; split; reflexivity].
Defined.

(** Where the labels are after a run: on the interior of each reported
    path the label of its rank, elsewhere what was there before. *)
Lemma good_run_labels i w tr w' :
  good_run i w tr w' ->
  forall q,
    (forall r p, In (r, p) (found_paths tr) -> In q (interior w p) ->
       at2 (grid_path_type w') q = path_type_of (r - 1)) /\
    ((forall r p, In (r, p) (found_paths tr) -> ~ In q (interior w p)) ->
       at2 (grid_path_type w') q = at2 (grid_path_type w) q).
Proof.
  induction 1 as [i w|i w E|i w p w1 tr w' Hi E G Hok Hm Hrun IH]; intros q.
  - split; [intros r p []|reflexivity].
  - split; [intros r p []|reflexivity].
  - pose proof (path_type_of_not_empty i Hi) as Hty.
    pose proof (mk_frame _ _ _ _ Hm) as F.
    destruct (IH q) as [IH1 IH2].
    rewrite (found_paths_step _ _ _ _ Hok).
    split.
    + intros r p' [Heq|Hin] Hq.
      * inversion Heq; subst r p'.
        replace (i + 1 - 1) with i by lia.
        apply interior_spec in Hq. destruct Hq as (Hq1 & Hq2 & Hq3).
        rewrite IH2; [apply (mk_set _ _ _ _ Hm q Hq1 Hq2 Hq3)|].
        intros r p' Hin Hq'.
        destruct (good_run_found _ _ _ _ Hrun r p' Hin) as (_ & _ & _ & Hfresh).
        specialize (Hfresh q Hq').
        rewrite (mk_set _ _ _ _ Hm q Hq1 Hq2 Hq3) in Hfresh. contradiction.
      * apply (IH1 r p' Hin). rewrite (interior_frame w w1 p' F). exact Hq.
    + intros Hnone.
      rewrite IH2.
      * destruct (mk_kept _ _ _ _ Hm q) as [Hk|(_ & Hq1 & Hq2 & Hq3)];
          [exact Hk|].
        exfalso. apply (Hnone (i + 1) p); [left; reflexivity|].
        apply interior_spec. auto.
      * intros r p' Hin Hq'. apply (Hnone r p'); [right; exact Hin|].
        rewrite <- (interior_frame w w1 p' F). exact Hq'.
Qed.

(** X10: after the loop, every interior cell of a reported path carries
    the label CELL_PATH_r of that path's rank r, every other cell carries
    the label it had before, and [grid], Start, End and the flags are
    untouched. *)
Theorem labels_after_loop (w : world) :
  inb (start w) = true -> inb (end_ w) = true ->
  exists w' tr, k_loop (Z.to_nat K_PATHS) 0 w = Done (w', tr) /\
    same_frame w w' /\
    forall q,
      (forall r p, In (r, p) (found_paths tr) -> In q (interior w p) ->
         at2 (grid_path_type w') q = path_type_of (r - 1)) /\
      ((forall r p, In (r, p) (found_paths tr) -> ~ In q (interior w p)) ->
         at2 (grid_path_type w') q = at2 (grid_path_type w) q).
Proof.
  intros Hs He.
  destruct (k_loop_good (Z.to_nat K_PATHS) 0 w Hs He) as (w' & tr & E & Hg & _);
    [lia|vm_compute; discriminate|].
  exists w', tr. split; [exact E|].
  split; [apply (good_run_frame _ _ _ _ Hg)|].
  apply (good_run_labels _ _ _ _ Hg).
Qed.

Lemma labels_after_loop_witness :
  exists w' tr, k_loop (Z.to_nat K_PATHS) 0 open_field = Done (w', tr) /\
    same_frame open_field w' /\
    forall q,
      (forall r p, In (r, p) (found_paths tr) ->
         In q (interior open_field p) ->
         at2 (grid_path_type w') q = path_type_of (r - 1)) /\
      ((forall r p, In (r, p) (found_paths tr) ->
          ~ In q (interior open_field p)) ->
         at2 (grid_path_type w') q = at2 (grid_path_type open_field) q).
Proof.
  apply (labels_after_loop open_field); reflexivity.
Defined.

(* ------------------------------------------------------------------ *)
(** *** How many paths there can be *)

Lemma filter_length_lt {A} (f1 f : A -> bool) (x : A) : forall l,
  (forall y, f1 y = true -> f y = true) ->
  In x l -> f x = true -> f1 x = false ->
  (length (filter f1 l) < length (filter f l))%nat.
Proof.
  intros l Himp. induction l as [|a l IH]; intros Hin Hfx Hf1x; [destruct Hin|].
  assert (Hle : (length (filter f1 l) <= length (filter f l))%nat).
  { clear IH Hin. induction l as [|b l IHl]; cbn; [lia|].
    destruct (f1 b) eqn:E1.
    - rewrite (Himp b E1). cbn. lia.
    - destruct (f b); cbn; lia. }
  cbn [filter]. destruct Hin as [->|Hin].
  - rewrite Hfx, Hf1x. cbn. lia.
  - specialize (IH Hin Hfx Hf1x).
    destruct (f1 a) eqn:E1.
    + rewrite (Himp a E1). cbn. lia.
    + destruct (f a); cbn; lia.
Qed.

Lemma unit_step_irrefl p : ~ unit_step p p.
Proof. unfold unit_step. lia. Qed.

(** Every reported path was a successful search in a state of the same
    frame. *)
Lemma good_run_found_ok i w tr w' :
  good_run i w tr w' ->
  forall r p, In (r, p) (found_paths tr) ->
    exists wc, same_frame w wc /\ found_ok wc p.
Proof.
  induction 1 as [i w|i w E|i w p w1 tr w' Hi E G Hok Hm Hrun IH];
    intros r p' Hin.
  - destruct Hin.
  - destruct Hin.
  - rewrite (found_paths_step _ _ _ _ Hok) in Hin.
    destruct Hin as [Heq|Hin].
    + inversion Heq; subst. exists w. split; [apply same_frame_refl|exact Hok].
    + destruct (IH r p' Hin) as (wc & F & Hc).
      exists wc. split; [|exact Hc].
      exact (same_frame_trans _ _ _ (mk_frame _ _ _ _ Hm) F).
Qed.

(** A search that succeeds between endpoints that are neither equal nor
    neighbours uses up one free neighbour of Start. *)
Lemma step_uses_neighbour w p w1 ty :
  start w <> end_ w -> ~ unit_step (start w) (end_ w) ->
  found_ok w p -> marked w ty (p_points p) w1 -> ty <> CELL_EMPTY ->
  (length (free_neighbours w1) < length (free_neighbours w))%nat.
Proof.
  intros Hne Hnadj Hok Hm Hty.
  pose proof (mk_frame _ _ _ _ Hm) as F.
  destruct (walk_split w _ (fo_walk _ _ Hok)) as (t & Hp & Hch & Hleg & Hlast & _).
  destruct t as [|q t]; [cbn in Hlast; congruence|].
  destruct Hch as [Hst _]. inversion Hleg as [|? ? Hq _]; subst.
  destruct (unit_step_offset _ _ Hst) as (o & Ho & Hqo).
  assert (Hqe : q <> end_ w) by (intros ->; contradiction).
  assert (Hqs : q <> start w) by (intros ->; exact (unit_step_irrefl _ Hst)).
  assert (Hqv : valid w q = true).
  { unfold legal in Hq. apply andb_true_iff in Hq. destruct Hq as [_ Hq].
    apply orb_true_iff in Hq. destruct Hq as [Hq|Hq]; [|exact Hq].
    apply Point_eqb_eq in Hq. contradiction. }
  assert (Hq1 : valid w1 q = false).
  { destruct (valid w1 q) eqn:Ev; [|reflexivity].
    unfold valid, is_valid_position in Ev.
    apply andb_true_iff in Ev. destruct Ev as [_ Ev].
    apply CellType_eqb_eq in Ev. fold (at2 (grid_path_type w1) q) in Ev.
    rewrite (mk_set _ _ _ _ Hm q) in Ev; [contradiction| |exact Hqs|exact Hqe].
    rewrite Hp. right. left. reflexivity. }
  unfold free_neighbours. rewrite (sf_start _ _ F).
  apply (filter_length_lt _ _ o).
  - intros o'. apply (marked_valid _ _ _ _ Hm Hty).
  - exact Ho.
  - rewrite <- Hqo. exact Hqv.
  - rewrite <- Hqo. exact Hq1.
Qed.

Lemma good_run_bounded i w tr w' :
  good_run i w tr w' ->
  start w <> end_ w -> ~ unit_step (start w) (end_ w) ->
  (length (found_paths tr) <= length (free_neighbours w))%nat.
Proof.
  induction 1 as [i w|i w E|i w p w1 tr w' Hi E G Hok Hm Hrun IH];
    intros Hne Hnadj.
  - cbn. lia.
  - cbn. lia.
  - rewrite (found_paths_step _ _ _ _ Hok). cbn [length].
    pose proof (mk_frame _ _ _ _ Hm) as F.
    pose proof (step_uses_neighbour w p w1 _ Hne Hnadj Hok Hm
                  (path_type_of_not_empty i Hi)) as Hlt.
    rewrite <- (sf_start _ _ F), <- (sf_end _ _ F) in Hne, Hnadj.
    specialize (IH Hne Hnadj). lia.
Qed.

(** X11: between endpoints that are neither equal nor neighbours the loop
    reports no more paths than Start has valid neighbours, hence at most
    four, although K_PATHS is five. *)
Theorem at_most_four_paths (w : world) :
  inb (start w) = true -> inb (end_ w) = true ->
  start w <> end_ w -> ~ unit_step (start w) (end_ w) ->
  exists w' tr, k_loop (Z.to_nat K_PATHS) 0 w = Done (w', tr) /\
    (length (found_paths tr) <= length (free_neighbours w))%nat /\
    (length (free_neighbours w) <= 4)%nat.
Proof.
  intros Hs He Hne Hnadj.
  destruct (k_loop_good (Z.to_nat K_PATHS) 0 w Hs He) as (w' & tr & E & Hg & _);
    [lia|vm_compute; discriminate|].
  exists w', tr. split; [exact E|].
  split; [exact (good_run_bounded _ _ _ _ Hg Hne Hnadj)|].
  unfold free_neighbours. apply (filter_length_le _ offsets).
Qed.

Lemma at_most_four_paths_witness :
  exists w' tr, k_loop (Z.to_nat K_PATHS) 0 open_field = Done (w', tr) /\
    (length (found_paths tr) <= length (free_neighbours open_field))%nat /\
    (length (free_neighbours open_field) <= 4)%nat.
Proof.
  apply (at_most_four_paths open_field);
    [reflexivity | reflexivity | discriminate |].
  unfold unit_step. cbn. lia.
Defined.

Lemma same_cell_path w p :
  start w = end_ w -> found_ok w p -> p_points p = [start w].
Proof.
  intros Hse Hok.
  assert (Hw : walk w [start w]).
  { split; [reflexivity|]. split; [exact Hse|]. split; constructor. }
  pose proof (fo_optimal _ _ Hok _ Hw) as Hopt. unfold edges in Hopt.
  cbn [length] in Hopt.
  pose proof (fo_nonneg _ _ Hok). pose proof (fo_cost _ _ Hok).
  pose proof (fo_length _ _ Hok) as Hl.
  destruct (fo_walk _ _ Hok) as (Hhd & _).
  destruct (p_points p) as [|a [|b t]]; cbn [length] in Hl; try lia.
  cbn in Hhd. inversion Hhd. reflexivity.
Qed.

Lemma interior_endpoints_only w p :
  (forall q, In q (p_points p) -> q = start w \/ q = end_ w) ->
  interior w p = [].
Proof.
  intros H. unfold interior.
  induction (p_points p) as [|a l IH]; [reflexivity|].
  cbn [filter].
  destruct (H a (or_introl eq_refl)) as [-> | ->];
    rewrite Point_eqb_refl, ?orb_true_r; cbn [orb negb];
    apply IH; intros q Hq; apply H; right; exact Hq.
Qed.

Lemma interior_hit_dec w (found : list (Z * Path)) q :
  (exists r p, In (r, p) found /\ In q (interior w p)) \/
  (forall r p, In (r, p) found -> ~ In q (interior w p)).
Proof.
  induction found as [|[r p] found IH].
  - right. intros r p [].
  - destruct (in_dec Point_eq_dec q (interior w p)) as [Hin|Hnin].
    + left. exists r, p. split; [left; reflexivity|exact Hin].
    + destruct IH as [(r' & p' & H1 & H2)|IH].
      * left. exists r', p'. split; [right; exact H1|exact H2].
      * right. intros r' p' [Heq|Hin'].
        -- inversion Heq; subst. exact Hnin.
        -- apply (IH r' p'). exact Hin'.
Qed.

Lemma path_type_of_fifth i : path_type_of i = CELL_PATH_5 -> i = 4.
Proof.
  unfold path_type_of.
  destruct (i =? 0); [discriminate|].
  destruct (i =? 1); [discriminate|].
  destruct (i =? 2); [discriminate|].
  destruct (i =? 3); [discriminate|].
  destruct (i =? 4) eqn:E; [|discriminate].
  intros _. apply Z.eqb_eq in E. exact E.
Qed.

Lemma unit_step_dec p q : unit_step p q \/ ~ unit_step p q.
Proof. unfold unit_step. lia. Qed.

(** The label of the fifth rank is never written: a fifth path is
    reported only when Start and End are equal or neighbours, and then
    the paths have no interior cell. *)
Lemma good_run_no_fifth w tr w' :
  good_run 0 w tr w' -> inb (end_ w) = true ->
  forall q, at2 (grid_path_type w') q = CELL_PATH_5 ->
            at2 (grid_path_type w) q = CELL_PATH_5.
Proof.
  intros Hg He q Hq.
  destruct (good_run_labels _ _ _ _ Hg q) as [Hin Hout].
  destruct (interior_hit_dec w (found_paths tr) q) as [(r & p & Hf & Hi)|Hnone];
    [|rewrite <- (Hout Hnone); exact Hq].
  exfalso.
  rewrite (Hin r p Hf Hi) in Hq. apply path_type_of_fifth in Hq.
  destruct (good_run_found_ok _ _ _ _ Hg r p Hf) as (wc & F & Hok).
  rewrite <- (interior_frame w wc p F) in Hi.
  destruct (Point_eq_dec (start wc) (end_ wc)) as [Hse|Hne].
  { rewrite interior_endpoints_only in Hi; [destruct Hi|].
    intros q' Hq'. rewrite (same_cell_path wc p Hse Hok) in Hq'.
    destruct Hq' as [<-|[]]. left. reflexivity. }
  destruct (unit_step_dec (start wc) (end_ wc)) as [Hadj|Hnadj].
  { assert (Hec : inb (end_ wc) = true) by (rewrite (sf_end _ _ F); exact He).
    rewrite interior_endpoints_only in Hi; [destruct Hi|].
    intros q' Hq'. rewrite (adjacent_path wc p Hec Hadj Hok) in Hq'.
    cbn in Hq'. destruct Hq' as [<-|[<-|[]]]; auto. }
  rewrite (sf_start _ _ F), (sf_end _ _ F) in Hne, Hnadj.
  pose proof (good_run_bounded _ _ _ _ Hg Hne Hnadj) as Hb.
  assert (H4 : (length (free_neighbours w) <= 4)%nat)
    by (unfold free_neighbours; apply (filter_length_le _ offsets)).
  destruct (good_run_shape _ _ _ _ Hg) as (_ & Hranks & _).
  assert (Hr : In r (map fst (found_paths tr)))
    by (apply in_map_iff; exists (r, p); split; [reflexivity|exact Hf]).
  rewrite Hranks in Hr. apply in_map_iff in Hr.
  destruct Hr as (k & Hk & Hseq). apply in_seq in Hseq. lia.
Qed.

(** X12: the loop never writes CELL_PATH_5.  A fifth path is reported
    only when Start and End are equal or neighbours, and then the paths
    have no interior cell to label. *)
Theorem fifth_label_never_written (w : world) :
  inb (start w) = true -> inb (end_ w) = true ->
  exists w' tr, k_loop (Z.to_nat K_PATHS) 0 w = Done (w', tr) /\
    forall q, at2 (grid_path_type w') q = CELL_PATH_5 ->
              at2 (grid_path_type w) q = CELL_PATH_5.
Proof.
  intros Hs He.
  destruct (k_loop_good (Z.to_nat K_PATHS) 0 w Hs He) as (w' & tr & E & Hg & _);
    [lia|vm_compute; discriminate|].
  exists w', tr. split; [exact E|].
  exact (good_run_no_fifth w tr w' Hg He).
Qed.

Lemma fifth_label_never_written_witness :
  exists w' tr, k_loop (Z.to_nat K_PATHS) 0 open_field = Done (w', tr) /\
    forall q, at2 (grid_path_type w') q = CELL_PATH_5 ->
              at2 (grid_path_type open_field) q = CELL_PATH_5.
Proof.
  apply (fifth_label_never_written open_field); reflexivity.
Defined.

(* ================================================================== *)
(** ** More about the click handler and the reachable states *)

Lemma mark_points_frame ty : forall pts w w',
  mark_points w ty pts = Done w' -> same_frame w w'.
Proof.
  induction pts as [|p pts IH]; intros w w' E; cbn [mark_points] in E.
  - inversion E. apply same_frame_refl.
  - destruct (Point_eqb p (start w) || Point_eqb p (end_ w)); [exact (IH _ _ E)|].
    unfold wr in E. destruct (in_bounds (px p) (py p)); [|discriminate].
    cbn [bind] in E. destruct (IH _ _ E). constructor; assumption.
Qed.

Lemma k_loop_frame : forall todo i w w' tr,
  k_loop todo i w = Done (w', tr) -> same_frame w w'.
Proof.
  induction todo as [|todo IH]; intros i w w' tr E; cbn [k_loop] in E.
  - inversion E. apply same_frame_refl.
  - destruct (dijkstra_find_path w) as [path| |]; cbn [bind] in E;
      try discriminate.
    destruct (p_cost path =? -1).
    + inversion E. apply same_frame_refl.
    + destruct (mark_points w (path_type_of i) _) as [w1| |] eqn:Em;
        cbn [bind] in E; try discriminate.
      destruct (k_loop todo (i + 1) w1) as [[w2 tr2]| |] eqn:Ek;
        cbn [bind fst snd] in E; try discriminate.
      inversion E; subst.
      exact (same_frame_trans _ _ _ (mark_points_frame _ _ _ _ Em) (IH _ _ _ _ Ek)).
Qed.

Lemma k_loop_nonempty todo i w w' tr :
  k_loop (S todo) i w = Done (w', tr) -> tr <> [].
Proof.
  cbn [k_loop]. intros E.
  destruct (dijkstra_find_path w) as [path| |]; cbn [bind] in E;
    try discriminate.
  destruct (p_cost path =? -1).
  - inversion E. discriminate.
  - destruct (mark_points w (path_type_of i) _) as [w1| |];
      cbn [bind] in E; try discriminate.
    destruct (k_loop todo (i + 1) w1) as [[w2 tr2]| |];
      cbn [bind fst snd] in E; try discriminate.
    inversion E. discriminate.
Qed.

Lemma upd_cases {A} (a : array2 A) p (v : A) y x :
  (mkPoint x y = p /\ upd a (py p) (px p) v y x = v) \/
  (mkPoint x y <> p /\ upd a (py p) (px p) v y x = a y x).
Proof.
  unfold upd. destruct ((y =? py p) && (x =? px p)) eqn:E.
  - left. apply andb_true_iff in E. destruct E as [E1 E2].
    apply Z.eqb_eq in E1, E2. subst. split; [apply point_eta|reflexivity].
  - right. split; [|reflexivity]. intros <-. cbn in E.
    rewrite !Z.eqb_refl in E. discriminate.
Qed.

(** X13: a click never makes or removes a Wall, and changes no cell of
    [grid] other than the one clicked; a reset keeps exactly the Walls. *)
Theorem walls_never_change (w : world) (x y : Z) (w' : world) (tr : list call) :
  handle_click w x y = Done (w', tr) ->
  (forall cy cx, grid w' cy cx = CELL_WALL <-> grid w cy cx = CELL_WALL) /\
  (forall cy cx, mkPoint cx cy <> screen_to_grid x y ->
     grid w' cy cx = grid w cy cx) /\
  (forall cy cx, grid (reset_grid w) cy cx = CELL_WALL <->
                 grid w cy cx = CELL_WALL).
Proof.
  intros E.
  assert (Hreset : forall cy cx, grid (reset_grid w) cy cx = CELL_WALL <->
                                 grid w cy cx = CELL_WALL).
  { intros cy cx. cbn. destruct (CellType_eqb (grid w cy cx) CELL_WALL) eqn:Ew.
    - apply CellType_eqb_eq in Ew. tauto.
    - split; [discriminate|]. intros H. apply CellType_eqb_eq in H. congruence. }
  rewrite handle_click_eq in E. cbv zeta in E.
  set (grid_pos := screen_to_grid x y) in *.
  assert (Hsame : Done (w, @nil call) = Done (w', tr) ->
    (forall cy cx, grid w' cy cx = CELL_WALL <-> grid w cy cx = CELL_WALL) /\
    (forall cy cx, mkPoint cx cy <> grid_pos -> grid w' cy cx = grid w cy cx) /\
    (forall cy cx, grid (reset_grid w) cy cx = CELL_WALL <->
                   grid w cy cx = CELL_WALL)).
  { intros H. inversion H; subst. split; [tauto|]. split; [reflexivity|exact Hreset]. }
  assert (Hupd : forall v, v <> CELL_WALL ->
    CellType_eqb (at2 (grid w) grid_pos) CELL_WALL = false ->
    grid w' = upd (grid w) (py grid_pos) (px grid_pos) v ->
    (forall cy cx, grid w' cy cx = CELL_WALL <-> grid w cy cx = CELL_WALL) /\
    (forall cy cx, mkPoint cx cy <> grid_pos -> grid w' cy cx = grid w cy cx) /\
    (forall cy cx, grid (reset_grid w) cy cx = CELL_WALL <->
                   grid w cy cx = CELL_WALL)).
  { intros v Hv Hw Hg. rewrite Hg. split; [|split; [|exact Hreset]].
    - intros cy cx.
      destruct (upd_cases (grid w) grid_pos v cy cx) as [[Hp ->]|[_ ->]];
        [|tauto].
      split; [intros; contradiction|].
      intros H. subst grid_pos. rewrite <- Hp in Hw. unfold at2 in Hw. cbn in Hw.
      apply CellType_eqb_eq in H. congruence.
    - intros cy cx Hne.
      destruct (upd_cases (grid w) grid_pos v cy cx) as [[Hp _]|[_ ->]];
        [contradiction|reflexivity]. }
  destruct (negb (inb grid_pos) || paths_found_and_drawn w) eqn:E1;
    cbn [orb] in E; [exact (Hsame E)|].
  destruct (CellType_eqb (at2 (grid w) grid_pos) CELL_WALL) eqn:Ew;
    [exact (Hsame E)|].
  destruct (negb (start_selected w)).
  { inversion E; subst. apply (Hupd CELL_START); [discriminate|reflexivity|reflexivity]. }
  destruct (end_selected w || Point_eqb grid_pos (start w)); [exact (Hsame E)|].
  apply (Hupd CELL_END); [discriminate|reflexivity|].
  apply (sf_grid _ _ (k_loop_frame _ _ _ _ _ E)).
Qed.

Lemma walls_never_change_witness :
  (forall cy cx, grid one_wall_started cy cx = CELL_WALL <->
                 grid one_wall cy cx = CELL_WALL) /\
  (forall cy cx, mkPoint cx cy <> screen_to_grid 0 0 ->
     grid one_wall_started cy cx = grid one_wall cy cx) /\
  (forall cy cx, grid (reset_grid one_wall) cy cx = CELL_WALL <->
                 grid one_wall cy cx = CELL_WALL).
Proof.
  apply (walls_never_change one_wall 0 0 one_wall_started []).
  reflexivity.
Defined.

Lemma path_type_of_cases i :
  path_type_of i = CELL_EMPTY \/ path_type_of i = CELL_PATH_5 \/
  rank_label (path_type_of i).
Proof.
  unfold path_type_of, rank_label.
  destruct (i =? 0); [tauto|]. destruct (i =? 1); [tauto|].
  destruct (i =? 2); [tauto|]. destruct (i =? 3); [tauto|].
  destruct (i =? 4); tauto.
Qed.

Lemma initialize_grid_state_ok rnd : state_ok (initialize_grid rnd).
Proof.
  constructor; cbn; try reflexivity; try discriminate.
  - intros y x. destruct (Z.rem (rnd y x) 4 =? 0); tauto.
  - intros y x. destruct (Z.rem (rnd y x) 4 =? 0);
      split; try discriminate; intros [H _]; discriminate.
  - intros y x. destruct (Z.rem (rnd y x) 4 =? 0);
      split; try discriminate; intros [H _]; discriminate.
  - intros q H. contradiction.
Qed.

Lemma reset_grid_state_ok w : state_ok (reset_grid w).
Proof.
  constructor; cbn; try reflexivity; try discriminate.
  - intros y x. destruct (CellType_eqb (grid w y x) CELL_WALL); tauto.
  - intros y x. destruct (CellType_eqb (grid w y x) CELL_WALL);
      split; try discriminate; intros [H _]; discriminate.
  - intros y x. destruct (CellType_eqb (grid w y x) CELL_WALL);
      split; try discriminate; intros [H _]; discriminate.
  - intros q H. contradiction.
Qed.

Section ClickKeeps.

Variables (w : world) (x y : Z).
Hypothesis I : RInv w.
Hypothesis K : state_ok w.
Let grid_pos := screen_to_grid x y.
Hypothesis Hin : inb grid_pos = true.
Hypothesis Hwall : CellType_eqb (at2 (grid w) grid_pos) CELL_WALL = false.

(** The first valid click. *)
Lemma start_click_state_ok :
  start_selected w = false -> state_ok (start_world w grid_pos).
Proof.
  intros Hs.
  assert (He : end_selected w = false).
  { destruct (end_selected w) eqn:E; [|reflexivity].
    rewrite (ri_order _ I E) in Hs. discriminate. }
  constructor; unfold start_world;
    cbn [grid grid_path_type start end_ start_selected end_selected].
  - intros cy cx.
    destruct (upd_cases (grid w) grid_pos CELL_START cy cx) as [[_ ->]|[_ ->]];
      [tauto|apply (sk_kinds _ K)].
  - intros cy cx.
    destruct (upd_cases (grid w) grid_pos CELL_START cy cx) as [[Hp ->]|[Hp ->]].
    + split; auto.
    + rewrite (sk_start _ K), Hs. split; [intros [H _]; discriminate|].
      intros [_ H]. congruence.
  - intros cy cx. rewrite He.
    destruct (upd_cases (grid w) grid_pos CELL_START cy cx) as [[Hp ->]|[Hp ->]].
    + split; [discriminate|intros [H _]; discriminate].
    + rewrite (sk_end _ K), He. tauto.
  - intros q Hq. rewrite (ri_clean _ I He) in Hq. contradiction.
  - discriminate.
  - apply (sk_unset_end _ K).
  - rewrite He. discriminate.
Qed.

Hypothesis Hsel : start_selected w = true.
Hypothesis Hnot : end_selected w = false.
Hypothesis Hne : Point_eqb grid_pos (start w) = false.

(** The click that designates End and runs the loop. *)
Lemma end_click_state_ok w' tr :
  handle_click w x y = Done (w', tr) -> state_ok w'.
Proof.
  intros E.
  destruct (click_runs_loop w x y I Hsel Hnot Hin Hwall Hne)
    as (w2 & tr2 & E2 & Hg & F & _). fold grid_pos in Hg, F.
  rewrite E in E2. inversion E2; subst w2 tr2. clear E2.
  set (w1 := end_world w grid_pos) in *.
  apply Point_eqb_neq in Hne.
  destruct F as [Fg Fs Fe Fss Fes Fd].
  cbn [w1 end_world grid start end_ start_selected end_selected] in Fg, Fs, Fe, Fss, Fes.
  assert (Hstart : forall cy cx,
            grid w' cy cx = CELL_START <->
            start_selected w' = true /\ start w' = mkPoint cx cy).
  { intros cy cx. rewrite Fg, Fss, Fs.
    destruct (upd_cases (grid w) grid_pos CELL_END cy cx) as [[Hp ->]|[Hp ->]].
    - split; [discriminate|]. intros [_ H]. congruence.
    - apply (sk_start _ K). }
  assert (Hend : forall cy cx,
            grid w' cy cx = CELL_END <->
            end_selected w' = true /\ end_ w' = mkPoint cx cy).
  { intros cy cx. rewrite Fg, Fes, Fe.
    destruct (upd_cases (grid w) grid_pos CELL_END cy cx) as [[Hp ->]|[Hp ->]].
    - split; auto.
    - rewrite (sk_end _ K), Hnot. split; [intros [H _]; discriminate|].
      intros [_ H]. congruence. }
  assert (Hkinds : forall cy cx,
            grid w' cy cx = CELL_EMPTY \/ grid w' cy cx = CELL_WALL \/
            grid w' cy cx = CELL_START \/ grid w' cy cx = CELL_END).
  { intros cy cx. rewrite Fg.
    destruct (upd_cases (grid w) grid_pos CELL_END cy cx) as [[_ ->]|[_ ->]];
      [tauto|apply (sk_kinds _ K)]. }
  constructor; auto.
  - (* labels *)
    intros q Hq.
    assert (Hclean : forall q', at2 (grid_path_type w1) q' = CELL_EMPTY)
      by (intros q'; apply (ri_clean _ I Hnot)).
    destruct (good_run_labels _ _ _ _ Hg q) as [Hi Hout].
    destruct (interior_hit_dec w1 (found_paths tr) q) as [(r & p & Hf & Hqi)|Hnone].
    2:{ rewrite (Hout Hnone), Hclean in Hq. contradiction. }
    destruct (good_run_found _ _ _ _ Hg r p Hf) as (_ & Hw & _ & _).
    pose proof (Hi r p Hf Hqi) as Hlab.
    apply interior_spec in Hqi. destruct Hqi as (Hqp & Hqs & Hqe).
    destruct (walk_split w1 _ Hw) as (t & Hp & _ & Hleg & _ & _).
    rewrite Hp in Hqp. destruct Hqp as [Hqp|Hqp]; [congruence|].
    rewrite Forall_forall in Hleg. specialize (Hleg q Hqp).
    unfold legal in Hleg. apply andb_true_iff in Hleg.
    destruct Hleg as [Hqb Hl]. apply orb_true_iff in Hl.
    destruct Hl as [Hl|Hl]; [apply Point_eqb_eq in Hl; contradiction|].
    split; [exact Hqb|]. split; [|split; [congruence|]].
    + (* the kind of the cell *)
      unfold valid, is_valid_position in Hl.
      apply andb_true_iff in Hl. destruct Hl as [Hl _].
      apply andb_true_iff in Hl. destruct Hl as [_ Hl].
      apply negb_true_iff in Hl.
      assert (Hnw : grid w' (py q) (px q) <> CELL_WALL).
      { rewrite Fg. intros H. apply CellType_eqb_eq in H.
        cbn [w1 end_world grid] in Hl. congruence. }
      cbn [w1 end_world start end_] in Hqs, Hqe.
      unfold at2.
      destruct (Hkinds (py q) (px q)) as [H|[H|[H|H]]]; [exact H|contradiction| |].
      * apply Hstart in H. destruct H as [_ H].
        rewrite point_eta, Fs in H. congruence.
      * apply Hend in H. destruct H as [_ H].
        rewrite point_eta, Fe in H. congruence.
    + (* which label *)
      destruct (path_type_of_cases (r - 1)) as [H|[H|H]].
      * rewrite Hlab in Hq. contradiction.
      * assert (H5 : at2 (grid_path_type w') q = CELL_PATH_5)
          by (rewrite Hlab; exact H).
        apply (good_run_no_fifth w1 tr w' Hg Hin) in H5.
        rewrite Hclean in H5. discriminate.
      * rewrite Hlab. exact H.
  - rewrite Fss, Hsel. discriminate.
  - rewrite Fes. discriminate.
  - intros _. rewrite Fs, Fe. congruence.
Qed.

End ClickKeeps.

Lemma handle_click_state_ok w x y w' tr :
  RInv w -> state_ok w -> handle_click w x y = Done (w', tr) -> state_ok w'.
Proof.
  intros I K E. assert (E0 := E).
  rewrite handle_click_eq in E. cbv zeta in E.
  set (grid_pos := screen_to_grid x y) in *.
  destruct (inb grid_pos) eqn:Hin; cbn [negb orb] in E;
    [|inversion E; subst; exact K].
  destruct (paths_found_and_drawn w) eqn:Hp; cbn [orb] in E;
    [inversion E; subst; exact K|].
  destruct (CellType_eqb (at2 (grid w) grid_pos) CELL_WALL) eqn:Hw;
    [inversion E; subst; exact K|].
  rewrite (ri_flags _ I) in Hp.
  destruct (start_selected w) eqn:Hs; cbn [negb] in E.
  2:{ inversion E; subst.
      exact (start_click_state_ok w x y I K Hs). }
  rewrite Hp in E. cbn [orb] in E.
  destruct (Point_eqb grid_pos (start w)) eqn:Hne;
    [inversion E; subst; exact K|].
  exact (end_click_state_ok w x y I K Hin Hw Hs Hp Hne w' tr E0).
Qed.

Lemma reachable_state_ok w : reachable w -> state_ok w.
Proof.
  induction 1 as [rnd|w x y w' tr Hr IH E|w _ _].
  - apply initialize_grid_state_ok.
  - exact (handle_click_state_ok _ _ _ _ _ (reachable_RInv _ Hr) IH E).
  - apply reset_grid_state_ok.
Qed.

(** X14: in every reachable state [grid] holds only Empty, Wall, Start or
    End; CELL_START sits exactly on the designated Start and CELL_END
    exactly on the designated End (so there is at most one of each), the
    undesignated endpoints are (-1,-1), and Start and End differ. *)
Theorem reachable_grid_cells (w : world) :
  reachable w ->
  (forall y x, grid w y x = CELL_EMPTY \/ grid w y x = CELL_WALL \/
               grid w y x = CELL_START \/ grid w y x = CELL_END) /\
  (forall y x, grid w y x = CELL_START <->
               start_selected w = true /\ start w = mkPoint x y) /\
  (forall y x, grid w y x = CELL_END <->
               end_selected w = true /\ end_ w = mkPoint x y) /\
  (start_selected w = false -> start w = mkPoint (-1) (-1)) /\
  (end_selected w = false -> end_ w = mkPoint (-1) (-1)) /\
  (end_selected w = true -> start_selected w = true /\ start w <> end_ w).
Proof.
  intros Hr. pose proof (reachable_state_ok w Hr) as K.
  pose proof (reachable_RInv w Hr) as I.
  split; [apply K|]. split; [apply K|]. split; [apply K|].
  split; [apply K|]. split; [apply K|].
  intros He. split; [apply (ri_order _ I He)|apply (sk_distinct _ K He)].
Qed.

Lemma reachable_grid_cells_witness :
  (forall y x, grid one_wall_started y x = CELL_EMPTY \/
               grid one_wall_started y x = CELL_WALL \/
               grid one_wall_started y x = CELL_START \/
               grid one_wall_started y x = CELL_END) /\
  (forall y x, grid one_wall_started y x = CELL_START <->
               start_selected one_wall_started = true /\
               start one_wall_started = mkPoint x y) /\
  (forall y x, grid one_wall_started y x = CELL_END <->
               end_selected one_wall_started = true /\
               end_ one_wall_started = mkPoint x y) /\
  (start_selected one_wall_started = false ->
   start one_wall_started = mkPoint (-1) (-1)) /\
  (end_selected one_wall_started = false ->
   end_ one_wall_started = mkPoint (-1) (-1)) /\
  (end_selected one_wall_started = true ->
   start_selected one_wall_started = true /\
   start one_wall_started <> end_ one_wall_started).
Proof.
  apply (reachable_grid_cells one_wall_started).
  exact one_wall_started_reachable.
Defined.

(** X15: in every reachable state a rank label sits only on an in-bounds
    cell that [grid] holds as Empty (never on a Wall, on Start or on
    End), only once End is designated, and it is one of CELL_PATH_1 to
    CELL_PATH_4. *)
Theorem reachable_labels (w : world) :
  reachable w ->
  forall q, at2 (grid_path_type w) q <> CELL_EMPTY ->
    inb q = true /\ at2 (grid w) q = CELL_EMPTY /\
    end_selected w = true /\ rank_label (at2 (grid_path_type w) q).
Proof.
  intros Hr. apply (sk_labels _ (reachable_state_ok w Hr)).
Qed.

Lemma reachable_labels_witness :
  reachable (fst one_wall_finished) /\
  at2 (grid_path_type (fst one_wall_finished)) (mkPoint 0 1) <> CELL_EMPTY /\
  inb (mkPoint 0 1) = true /\
  at2 (grid (fst one_wall_finished)) (mkPoint 0 1) = CELL_EMPTY /\
  end_selected (fst one_wall_finished) = true /\
  rank_label (at2 (grid_path_type (fst one_wall_finished)) (mkPoint 0 1)).
Proof.
  assert (Hl : at2 (grid_path_type (fst one_wall_finished)) (mkPoint 0 1)
               <> CELL_EMPTY) by (vm_compute; discriminate).
  split; [exact one_wall_finished_reachable|]. split; [exact Hl|].
  exact (reachable_labels (fst one_wall_finished)
           one_wall_finished_reachable (mkPoint 0 1) Hl).
Defined.

Lemma quot_cell x n :
  0 < n -> (0 <= Z.quot x CELL_SIZE < n <-> - CELL_SIZE < x < CELL_SIZE * n).
Proof.
  unfold CELL_SIZE. intros Hn. pose proof (Z.quot_rem' x 40).
  destruct (Z_lt_le_dec x 0).
  - pose proof (Z.rem_bound_pos_neg x 40 ltac:(lia) ltac:(lia)). lia.
  - pose proof (Z.rem_bound_pos x 40 ltac:(lia) ltac:(lia)). lia.
Qed.

(** X16: a click passes the bounds test of [handle_click] exactly when
    its screen coordinates lie in the window or less than one cell to
    the left of or above it: C division rounds toward zero, so x and y
    in (-CELL_SIZE, 0) fall into column and row 0. *)
Theorem screen_to_grid_bounds (x y : Z) :
  inb (screen_to_grid x y) = true <->
  - CELL_SIZE < x < GRID_WIDTH * CELL_SIZE /\
  - CELL_SIZE < y < GRID_HEIGHT * CELL_SIZE.
Proof.
  unfold inb, screen_to_grid. cbn [px py]. rewrite in_bounds_iff.
  rewrite (quot_cell x GRID_WIDTH) by reflexivity.
  rewrite (quot_cell y GRID_HEIGHT) by reflexivity.
  unfold CELL_SIZE, GRID_WIDTH, GRID_HEIGHT. lia.
Qed.

Lemma handle_click_total w x y :
  RInv w -> exists w' tr, handle_click w x y = Done (w', tr).
Proof.
  intros I. rewrite handle_click_eq. cbv zeta.
  set (grid_pos := screen_to_grid x y).
  destruct (inb grid_pos) eqn:Hin; cbn [negb orb]; [|eauto].
  destruct (paths_found_and_drawn w) eqn:Hp; cbn [orb]; [eauto|].
  destruct (CellType_eqb (at2 (grid w) grid_pos) CELL_WALL) eqn:Hw; [eauto|].
  destruct (start_selected w) eqn:Hs; cbn [negb]; [|eauto].
  destruct (end_selected w) eqn:He; cbn [orb]; [eauto|].
  destruct (Point_eqb grid_pos (start w)) eqn:Hne; [eauto|].
  destruct (ri_start _ I Hs) as (Hsb & _).
  destruct (k_loop_good (Z.to_nat K_PATHS) 0 (end_world w grid_pos))
    as (w' & tr & E & _); [exact Hsb|exact Hin|lia|vm_compute; discriminate|].
  eauto.
Qed.

(** X17: what a click does in a reachable state.  Awaiting Start: a click
    on an in-bounds cell that is no Wall designates Start there, any
    other click changes nothing.  Awaiting End: a click on an in-bounds
    cell that is no Wall and not Start designates End there and runs
    between one and K searches, any other click changes nothing.
    Finished: every click is ignored.  No click faults. *)
Theorem click_transitions (w : world) (x y : Z) :
  reachable w ->
  let grid_pos := screen_to_grid x y in
  let free := inb grid_pos
              && negb (CellType_eqb (at2 (grid w) grid_pos) CELL_WALL) in
  exists w' tr, handle_click w x y = Done (w', tr) /\
    match phase_of w with
    | AwaitingStart =>
        tr = [] /\ w' = (if free then start_world w grid_pos else w)
    | AwaitingEnd =>
        if free && negb (Point_eqb grid_pos (start w))
        then phase_of w' = Finished /\ start w' = start w /\
             end_ w' = grid_pos /\
             (1 <= length tr <= Z.to_nat K_PATHS)%nat
        else tr = [] /\ w' = w
    | Finished => tr = [] /\ w' = w
    end.
Proof.
  intros Hr grid_pos free. pose proof (reachable_RInv w Hr) as I.
  unfold phase_of, free. rewrite handle_click_eq. cbv zeta. fold grid_pos.
  rewrite (ri_flags _ I).
  destruct (start_selected w) eqn:Hs; cbn [negb].
  2:{ assert (He : end_selected w = false).
      { destruct (end_selected w) eqn:E; [|reflexivity].
        rewrite (ri_order _ I E) in Hs. discriminate. }
      rewrite He.
      destruct (inb grid_pos); cbn [negb orb andb]; [|eauto].
      destruct (CellType_eqb (at2 (grid w) grid_pos) CELL_WALL);
        cbn [negb]; eauto. }
  destruct (end_selected w) eqn:He; cbn [negb].
  { rewrite orb_true_r. cbn [orb]. eauto. }
  rewrite orb_false_r.
  destruct (inb grid_pos) eqn:Hin; cbn [negb orb andb]; [|eauto].
  destruct (CellType_eqb (at2 (grid w) grid_pos) CELL_WALL) eqn:Hw;
    cbn [negb andb]; [eauto|].
  destruct (Point_eqb grid_pos (start w)) eqn:Hne; cbn [negb]; [eauto|].
  destruct (ri_start _ I Hs) as (Hsb & _).
  destruct (k_loop_good (Z.to_nat K_PATHS) 0 (end_world w grid_pos))
    as (w' & tr & E & _ & Hlen); [exact Hsb|exact Hin|lia|vm_compute; discriminate|].
  exists w', tr. split; [exact E|].
  destruct (k_loop_frame _ _ _ _ _ E) as [_ Fs Fe Fss Fes _].
  cbn [end_world start end_ start_selected end_selected] in Fs, Fe, Fss, Fes.
  split; [rewrite Fss, Fes, Hs; reflexivity|].
  split; [exact Fs|]. split; [exact Fe|]. split; [|exact Hlen].
  assert (Hn : tr <> []).
  { change (Z.to_nat K_PATHS) with (S 4) in E.
    exact (k_loop_nonempty _ _ _ _ _ E). }
  destruct tr; [contradiction|cbn; lia].
Qed.

Lemma click_transitions_witness :
  let grid_pos := screen_to_grid 80 0 in
  let free := inb grid_pos
              && negb (CellType_eqb (at2 (grid one_wall_started) grid_pos)
                                    CELL_WALL) in
  exists w' tr, handle_click one_wall_started 80 0 = Done (w', tr) /\
    match phase_of one_wall_started with
    | AwaitingStart =>
        tr = [] /\
        w' = (if free then start_world one_wall_started grid_pos
              else one_wall_started)
    | AwaitingEnd =>
        if free && negb (Point_eqb grid_pos (start one_wall_started))
        then phase_of w' = Finished /\ start w' = start one_wall_started /\
             end_ w' = grid_pos /\
             (1 <= length tr <= Z.to_nat K_PATHS)%nat
        else tr = [] /\ w' = one_wall_started
    | Finished => tr = [] /\ w' = one_wall_started
    end.
Proof.
  apply (click_transitions one_wall_started 80 0).
  exact one_wall_started_reachable.
Defined.

(* ================================================================== *)
(** ** [draw_grid] *)

Lemma zrange_In n z : In z (zrange n) <-> 0 <= z < n.
Proof.
  unfold zrange. rewrite in_map_iff. split.
  - intros (k & <- & Hk). apply in_seq in Hk. lia.
  - intros Hz. exists (Z.to_nat z). split; [lia|]. apply in_seq. lia.
Qed.

Lemma fills_row w y rest :
  (forall c1 c2, fills c1 rest = fills c2 rest) ->
  forall xs cur,
    fills cur (flat_map (fun x => draw_cell w y x) xs ++ rest)
    = map (fun x => (cell_rect x y, shown w y x)) xs ++ fills cur rest.
Proof.
  intros Hrest. induction xs as [|x xs IH]; intros cur; [reflexivity|].
  cbn [flat_map draw_cell app fills map]. rewrite IH.
  rewrite (Hrest _ cur). reflexivity.
Qed.

Lemma fills_rows w xs : forall ys cur,
  fills cur (flat_map (fun y => flat_map (fun x => draw_cell w y x) xs) ys)
  = flat_map (fun y => map (fun x => (cell_rect x y, shown w y x)) xs) ys.
Proof.
  induction ys as [|y ys IH]; intros cur; [reflexivity|].
  cbn [flat_map]. rewrite fills_row.
  - rewrite IH. reflexivity.
  - intros c1 c2. rewrite !IH. reflexivity.
Qed.

(** One rectangle per cell, filled with that cell's colour, whatever the
    draw colour was before. *)
Lemma fills_draw_grid w cur r c :
  In (r, c) (fills cur (draw_grid w)) <->
  exists x y, in_bounds x y = true /\ r = cell_rect x y /\ c = shown w y x.
Proof.
  unfold draw_grid. rewrite fills_rows, in_flat_map. split.
  - intros (y & Hy & Hin). apply in_map_iff in Hin.
    destruct Hin as (x & Heq & Hx). inversion Heq; subst.
    apply zrange_In in Hx, Hy. exists x, y.
    split; [apply in_bounds_iff; lia|]. auto.
  - intros (x & y & Hb & -> & ->). apply in_bounds_iff in Hb.
    exists y. split; [apply zrange_In; lia|].
    apply in_map_iff. exists x. split; [reflexivity|apply zrange_In; lia].
Qed.

Lemma covers_cell x y sx sy :
  0 <= sx -> 0 <= sy ->
  (covers (cell_rect x y) sx sy <-> mkPoint x y = screen_to_grid sx sy).
Proof.
  intros Hx Hy. unfold covers, cell_rect, screen_to_grid, CELL_SIZE.
  cbn [r_x r_y r_w r_h].
  pose proof (Z.quot_rem' sx 40). pose proof (Z.quot_rem' sy 40).
  pose proof (Z.rem_bound_pos sx 40 Hx ltac:(lia)).
  pose proof (Z.rem_bound_pos sy 40 Hy ltac:(lia)).
  split.
  - intros [Ha Hb]. f_equal; lia.
  - intros Heq. inversion Heq; subst. lia.
Qed.

(** X18: what is painted under a pixel of the window is the cell a click
    on that pixel selects: among the rectangles [draw_grid] fills exactly
    one contains the pixel, the one of the cell [screen_to_grid] maps the
    pixel to, and it is filled with that cell's colour. *)
Theorem pixel_shows_clicked_cell (w : world) (cur : SDL_Color) (sx sy : Z) :
  0 <= sx < GRID_WIDTH * CELL_SIZE ->
  0 <= sy < GRID_HEIGHT * CELL_SIZE ->
  let g := screen_to_grid sx sy in
  forall r c,
    (In (r, c) (fills cur (draw_grid w)) /\ covers r sx sy) <->
    (r = cell_rect (px g) (py g) /\ c = shown w (py g) (px g)).
Proof.
  intros Hx Hy g r c.
  assert (Hg : inb g = true).
  { unfold g, inb, screen_to_grid. cbn [px py]. apply in_bounds_iff.
    rewrite (quot_cell sx GRID_WIDTH), (quot_cell sy GRID_HEIGHT) by reflexivity.
    unfold CELL_SIZE, GRID_WIDTH, GRID_HEIGHT in *. lia. }
  rewrite fills_draw_grid. split.
  - intros [(x & y & Hb & -> & ->) Hc].
    apply covers_cell in Hc; [|lia|lia]. fold g in Hc. rewrite <- Hc.
    cbn [px py]. auto.
  - intros [-> ->]. split.
    + exists (px g), (py g). auto.
    + apply covers_cell; [lia|lia|]. apply point_eta.
Qed.

Lemma pixel_shows_clicked_cell_witness :
  0 <= 85 < GRID_WIDTH * CELL_SIZE /\
  0 <= 10 < GRID_HEIGHT * CELL_SIZE /\
  In (cell_rect 2 0, shown open_field 0 2)
     (fills (mkColor 255 255 255 255) (draw_grid open_field)) /\
  covers (cell_rect 2 0) 85 10.
Proof.
  assert (H1 : 0 <= 85 < GRID_WIDTH * CELL_SIZE)
    by (vm_compute; split; congruence).
  assert (H2 : 0 <= 10 < GRID_HEIGHT * CELL_SIZE)
    by (vm_compute; split; congruence).
  split; [exact H1|]. split; [exact H2|].
  apply (proj2 (pixel_shows_clicked_cell open_field (mkColor 255 255 255 255)
                  85 10 H1 H2 (cell_rect 2 0) (shown open_field 0 2))).
  split; reflexivity.
Defined.

(** X19: in every reachable state the kind of the cell decides its
    colour: Start is filled green and End red, never painted over by a
    path shade; a Wall is dark; any other cell has the shade of its rank
    label, one of four, or light grey without label. *)
Theorem reachable_colours (w : world) :
  reachable w ->
  forall y x,
    shown w y x =
    match grid w y x with
    | CELL_START => mkColor 0 255 0 255
    | CELL_END => mkColor 255 0 0 255
    | CELL_WALL => mkColor 50 50 50 255
    | _ =>
        match grid_path_type w y x with
        | CELL_PATH_1 => mkColor 2 136 209 255
        | CELL_PATH_2 => mkColor 41 182 246 255
        | CELL_PATH_3 => mkColor 129 212 250 255
        | CELL_PATH_4 => mkColor 179 229 252 255
        | _ => mkColor 200 200 200 255
        end
    end.
Proof.
  intros Hr y x. pose proof (reachable_state_ok w Hr) as K.
  unfold shown.
  destruct (CellType_eqb (grid_path_type w y x) CELL_EMPTY) eqn:El.
  - apply CellType_eqb_eq in El. rewrite El.
    destruct (sk_kinds _ K y x) as [H|[H|[H|H]]]; rewrite H; reflexivity.
  - assert (Hl : at2 (grid_path_type w) (mkPoint x y) <> CELL_EMPTY).
    { unfold at2. cbn [px py]. intros H. apply CellType_eqb_eq in H. congruence. }
    destruct (sk_labels _ K _ Hl) as (_ & Hg & _ & Hrank).
    unfold at2 in Hg, Hrank. cbn [px py] in Hg, Hrank. rewrite Hg.
    destruct Hrank as [H|[H|[H|H]]]; rewrite H; reflexivity.
Qed.

Lemma reachable_colours_witness :
  reachable (fst one_wall_finished) /\
  shown (fst one_wall_finished) 0 0 = mkColor 0 255 0 255 /\
  shown (fst one_wall_finished) 0 1 = mkColor 50 50 50 255 /\
  shown (fst one_wall_finished) 0 2 = mkColor 255 0 0 255 /\
  shown (fst one_wall_finished) 1 0 = mkColor 2 136 209 255 /\
  shown (fst one_wall_finished) 5 5 = mkColor 200 200 200 255.
Proof.
  pose proof (reachable_colours (fst one_wall_finished)
                one_wall_finished_reachable) as H.
  split; [exact one_wall_finished_reachable|].
  repeat split; rewrite H; vm_compute; reflexivity.
Defined.

(* ================================================================== *)
(** ** [main] *)

Lemma poll_events_reachable : forall es w running,
  reachable w ->
  exists w', poll_events (w, running) es
             = Done (w', running && negb (existsb is_quit es)) /\
             reachable w'.
Proof.
  induction es as [|e es IH]; intros w running Hr; cbn [poll_events existsb].
  - exists w. rewrite andb_true_r. auto.
  - destruct e as [|is_left x y|rnd| | |]; cbn [handle_event fst snd bind is_quit orb negb].
    + destruct (IH w false Hr) as (w' & E & Hr'). exists w'.
      rewrite E, andb_false_r. auto.
    + destruct is_left; [|exact (IH w running Hr)].
      destruct (handle_click_total w x y (reachable_RInv w Hr)) as (w1 & tr & E1).
      rewrite E1. cbn [bind fst].
      exact (IH w1 running (reach_click w x y w1 tr Hr E1)).
    + exact (IH _ running (reach_init rnd)).
    + exact (IH _ running (reach_reset w Hr)).
    + exact (IH w running Hr).
    + exact (IH w running Hr).
Qed.

Lemma main_loop_reachable : forall rounds w,
  reachable w ->
  exists w' out, main_loop rounds w = Done (w', out) /\
    reachable w' /\
    length out = length (until_quit rounds) /\
    Forall (fun f => exists wr, reachable wr /\ f = render_frame wr) out.
Proof.
  induction rounds as [|es rounds IH]; intros w Hr; cbn [main_loop until_quit].
  - exists w, []. repeat split; auto.
  - destruct (poll_events_reachable es w true Hr) as (w1 & E1 & Hr1).
    rewrite E1. cbn [bind fst snd andb].
    destruct (existsb is_quit es); cbn [negb].
    + exists w1, [render_frame w1]. repeat split; auto.
      constructor; [|constructor]. exists w1. auto.
    + destruct (IH w1 Hr1) as (w' & out & E & Hr' & Hlen & Hall).
      rewrite E. cbn [bind fst snd].
      exists w', (render_frame w1 :: out). repeat split; auto.
      * cbn [length]. rewrite Hlen. reflexivity.
      * constructor; [exists w1; auto|exact Hall].
Qed.

(** X20: the event loop never faults, whatever the events: it ends in a
    reachable state, renders one frame per round up to and including the
    first round with a quit event (whose other events are still handled),
    and every frame is the picture of a reachable state. *)
Theorem main_never_faults (rnd : Z -> Z -> Z) (rounds : list (list event)) :
  exists w' out, main rnd rounds = Done (w', out) /\
    reachable w' /\
    length out = length (until_quit rounds) /\
    Forall (fun f => exists wr, reachable wr /\ f = render_frame wr) out.
Proof.
  unfold main. apply main_loop_reachable. apply reach_init.
Qed.

(** A session: Start on (0,0), End on (2,0) on the one-wall grid, then a
    quit event followed in the same round by key C, which is still
    handled. *)
Example session_run :
  match main (fun y x => if (x =? 1) && (y =? 0) then 0 else 1)
             [[EVENT_MOUSE_BUTTON_DOWN true 0 0];
              [EVENT_MOUSE_BUTTON_DOWN true 80 0];
              [EVENT_QUIT; EVENT_KEY_DOWN_C];
              [EVENT_MOUSE_BUTTON_DOWN true 0 0]] with
  | Done (w, out) =>
      length out = 3%nat /\ phase_of w = AwaitingStart /\
      grid w 0 1 = CELL_WALL /\ grid_path_type w 1 0 = CELL_EMPTY
  | _ => False
  end.
Proof. vm_compute. repeat split; reflexivity. Qed.

(* ================================================================== *)
(** ** The paths a click draws *)

Lemma good_run_calls i w tr w' :
  good_run i w tr w' ->
  forall c, In c tr ->
    call_result c = no_path \/
    In (call_rank c, call_result c) (found_paths tr).
Proof.
  induction 1 as [i w|i w E|i w p w1 tr w' Hi E G Hok Hm Hrun IH];
    intros c Hc.
  - destruct Hc.
  - destruct Hc as [<-|[]]. left. reflexivity.
  - rewrite (found_paths_step _ _ _ _ Hok).
    destruct Hc as [<-|Hc]; [right; left; reflexivity|].
    destruct (IH c Hc) as [H|H]; [left; exact H|right; right; exact H].
Qed.

(** X21: the paths found by the searches of a click in a reachable state
    consist of in-bounds cells none of which is a Wall. *)
Theorem paths_avoid_walls (w : world) (x y : Z) (w' : world) (tr : list call) :
  reachable w -> handle_click w x y = Done (w', tr) ->
  forall c q, In c tr -> In q (p_points (call_result c)) ->
    inb q = true /\ at2 (grid w') q <> CELL_WALL.
Proof.
  intros Hr E c q Hc Hq. pose proof (reachable_RInv w Hr) as I.
  assert (E0 := E). rewrite handle_click_eq in E. cbv zeta in E.
  set (grid_pos := screen_to_grid x y) in *.
  destruct (inb grid_pos) eqn:Hin; cbn [negb orb] in E;
    [|inversion E; subst; destruct Hc].
  destruct (paths_found_and_drawn w) eqn:Hp; cbn [orb] in E;
    [inversion E; subst; destruct Hc|].
  destruct (CellType_eqb (at2 (grid w) grid_pos) CELL_WALL) eqn:Hw;
    [inversion E; subst; destruct Hc|].
  rewrite (ri_flags _ I) in Hp.
  destruct (start_selected w) eqn:Hs; cbn [negb] in E;
    [|inversion E; subst; destruct Hc].
  rewrite Hp in E. cbn [orb] in E.
  destruct (Point_eqb grid_pos (start w)) eqn:Hne;
    [inversion E; subst; destruct Hc|].
  clear E.
  destruct (click_runs_loop w x y I Hs Hp Hin Hw Hne)
    as (w2 & tr2 & E2 & Hg & F & _). fold grid_pos in Hg, F.
  rewrite E0 in E2. inversion E2; subst w2 tr2. clear E2.
  destruct (ri_start _ I Hs) as (Hsb & Hsw & _).
  apply Point_eqb_neq in Hne.
  destruct (good_run_calls _ _ _ _ Hg c Hc) as [Hnone|Hf];
    [rewrite Hnone in Hq; destruct Hq|].
  destruct (good_run_found _ _ _ _ Hg _ _ Hf) as (_ & Hwalk & _ & _).
  destruct (walk_split _ _ Hwalk) as (t & Hp' & _ & Hleg & _ & _).
  rewrite (sf_grid _ _ F). cbn [end_world grid start] in *.
  rewrite Hp' in Hq. destruct Hq as [<-|Hq].
  - split; [exact Hsb|].
    rewrite at2_upd_other by (intros H; apply Hne; symmetry; exact H).
    exact Hsw.
  - rewrite Forall_forall in Hleg. specialize (Hleg q Hq).
    unfold legal in Hleg. apply andb_true_iff in Hleg.
    destruct Hleg as [Hqb Hl]. split; [exact Hqb|].
    apply orb_true_iff in Hl. destruct Hl as [Hl|Hl].
    + apply Point_eqb_eq in Hl. cbn [end_world end_] in Hl. subst q.
      rewrite at2_upd_same. discriminate.
    + unfold valid, is_valid_position in Hl.
      apply andb_true_iff in Hl. destruct Hl as [Hl _].
      apply andb_true_iff in Hl. destruct Hl as [_ Hl].
      apply negb_true_iff in Hl. cbn [end_world grid] in Hl.
      unfold at2. intros H. apply CellType_eqb_eq in H. congruence.
Qed.

Lemma paths_avoid_walls_witness :
  reachable one_wall_started /\
  handle_click one_wall_started 80 0
  = Done (fst one_wall_finished, snd one_wall_finished) /\
  exists c, In c (snd one_wall_finished) /\
    In (mkPoint 0 1) (p_points (call_result c)) /\
    inb (mkPoint 0 1) = true /\
    at2 (grid (fst one_wall_finished)) (mkPoint 0 1) <> CELL_WALL.
Proof.
  assert (Hk : handle_click one_wall_started 80 0
               = Done (fst one_wall_finished, snd one_wall_finished))
    by (vm_compute; reflexivity).
  assert (Hc : exists c, In c (snd one_wall_finished) /\
                 In (mkPoint 0 1) (p_points (call_result c))).
  { vm_compute. eexists. split; [left; reflexivity|].
    repeat (first [left; reflexivity | right]). }
  destruct Hc as (c & Hc & Hq).
  split; [exact one_wall_started_reachable|]. split; [exact Hk|].
  exists c. split; [exact Hc|]. split; [exact Hq|].
  exact (paths_avoid_walls one_wall_started 80 0
           (fst one_wall_finished) (snd one_wall_finished)
           one_wall_started_reachable Hk c (mkPoint 0 1) Hc Hq).
Defined.
